(** * TreeviewComponent: the tree mutation engine of [TreeView.tsx]

    A shallow embedding of the pure tree helpers of [src/TreeView.tsx]
    ([findNodeAndLocation], [updateNodeInTree], [addNodeToTree],
    [removeNodeFromTree], [isAncestor]) and of the [handleDrop] callback,
    over the data model of [src/types.ts].

    JavaScript values are modelled as follows.
    - [string | null] is [option string]; an optional field ([isExpanded?],
      [hasChildren?]) is an [option bool], [None] standing for [undefined].
    - [children?: ITreeNode[] | true] is the three-state type [Children].
    - Truthiness is written out: [!nodeId] holds for [null] and for the
      empty string, an array (even an empty one) is truthy, [undefined] is
      falsy.
    - Structural equality of trees is Rocq's [=]; object identity is only
      needed for the sharing behaviour of [updateNodeInTree] and is modelled
      separately in [Module Identity]. *)

From Stdlib Require Import List String Bool Arith Lia.
From Stdlib Require Import NArith DecimalString DecimalN Permutation.
Import ListNotations.
Local Open Scope string_scope.
Local Open Scope list_scope.

Set Implicit Arguments.

(** ** Data model ([src/types.ts]) *)

(** [children?: ITreeNode[] | true]: the field is absent, the lazy marker
    [true], or a loaded array. *)
Inductive Children (A : Type) : Type :=
| Absent
| Unloaded
| Loaded (l : list A).
Arguments Absent {A}.
Arguments Unloaded {A}.
Arguments Loaded {A} l.

#[warnings="-register-all"] Inductive ITreeNode : Type :=
  mkNode {
    id : string;
    name : string;
    children : Children ITreeNode;
    isExpanded : option bool;
    hasChildren : option bool;
    parentId : option string
  }.

Definition TreeData : Type := list ITreeNode.

Record DragItem : Type := mkDragItem {
  drag_id : string;
  drag_parentId : option string
}.

Inductive DropPosition : Type := above | below | child.

Record NodeLocation : Type := mkLoc {
  node : ITreeNode;
  parent : option ITreeNode;
  index : nat;
  siblings : list ITreeNode
}.

(** ** JavaScript idioms *)

(** Truthiness of a [string | null]: [null] and [""] are falsy. *)
Definition truthy (s : option string) : bool :=
  match s with
  | Some s => negb (s =? "")
  | None => false
  end.

(** Truthiness of an optional boolean: [undefined] is falsy. *)
Definition truthy_flag (b : option bool) : bool :=
  match b with
  | Some b => b
  | None => false
  end.

(** [a === b] for [a : string] and [b : string | null]. *)
Definition strict_eq (a : string) (b : option string) : bool :=
  match b with
  | Some b => a =? b
  | None => false
  end.

(** [Array.isArray(c) ? c : []]. *)
Definition childrenArray (c : Children ITreeNode) : list ITreeNode :=
  match c with
  | Loaded l => l
  | _ => []
  end.

(** [arr.splice(i, 0, x)] on a copy: insertion before index [i], clamped to
    the end of the array. *)
Definition splice (A : Type) (i : nat) (x : A) (arr : list A) : list A :=
  firstn i arr ++ x :: skipn i arr.

(** [JSON.parse(JSON.stringify(node))]: a detached copy. Without object
    identity the copy is the same value ([undefined] fields are dropped,
    which [None] already stands for). *)
Definition jsonClone (n : ITreeNode) : ITreeNode := n.

(** ** [findNodeAndLocation] *)

(** The [for] loop of [findNodeAndLocation] over the remaining elements of
    [tree], [i] being the index of the first of them. [descend] is the
    guarded recursive call of line 118-119. *)
Definition findLoop (descend : ITreeNode -> option NodeLocation)
    (nodeId : string) (parent : option ITreeNode) (siblings : list ITreeNode)
    : list ITreeNode -> nat -> option NodeLocation :=
  fix loop (tree : list ITreeNode) (i : nat) : option NodeLocation :=
    match tree with
    | [] => None
    | n :: rest =>
        if id n =? nodeId then Some (mkLoc n parent i siblings)
        else match descend n with
             | Some found => Some found
             | None => loop rest (S i)
             end
    end.

(** [node.children && Array.isArray(node.children) && node.isExpanded], then
    [findNodeAndLocation(node.children, nodeId, node, node.children)]. *)
Fixpoint findDescend (nodeId : string) (n : ITreeNode) {struct n}
    : option NodeLocation :=
  match n with
  | mkNode _ _ (Loaded cs) e _ _ =>
      if truthy_flag e
      then findLoop (findDescend nodeId) nodeId (Some n) cs cs 0
      else None
  | _ => None
  end.

(** [findNodeAndLocation(tree, nodeId, parent, siblings)]. *)
Definition findNodeAndLocation_from (tree : TreeData) (nodeId : option string)
    (parent : option ITreeNode) (siblings : list ITreeNode)
    : option NodeLocation :=
  match nodeId with
  | Some s =>
      if truthy nodeId
      then findLoop (findDescend s) s parent siblings tree 0
      else None
  | None => None
  end.

(** The two-argument call, with the defaults [parent = null] and
    [siblings = []] of the signature. *)
Definition findNodeAndLocation (tree : TreeData) (nodeId : option string)
    : option NodeLocation :=
  findNodeAndLocation_from tree nodeId None [].

(** ** [updateNodeInTree] *)

(** The callback of [tree.map] in [updateNodeInTree]. *)
Fixpoint updateNode (nodeId : string) (updater : ITreeNode -> ITreeNode)
    (n : ITreeNode) {struct n} : ITreeNode :=
  match n with
  | mkNode i nm c e h p =>
      if i =? nodeId then updater n
      else match c with
           | Loaded cs =>
               mkNode i nm (Loaded (map (updateNode nodeId updater) cs)) e h p
           | _ => n
           end
  end.

Definition updateNodeInTree (tree : TreeData) (nodeId : string)
    (updater : ITreeNode -> ITreeNode) : TreeData :=
  map (updateNode nodeId updater) tree.

(** ** [addNodeToTree] *)

Definition with_parentId (n : ITreeNode) (p : option string) : ITreeNode :=
  mkNode (id n) (name n) (children n) (isExpanded n) (hasChildren n) p.

(** The updater of [addNodeToTree] (and of the [child] branch of
    [handleDrop]): append to the coerced children, mark and expand. *)
Definition adopt (newNode : ITreeNode) (parentNode : ITreeNode) : ITreeNode :=
  mkNode (id parentNode) (name parentNode)
         (Loaded (childrenArray (children parentNode)
                  ++ [with_parentId newNode (Some (id parentNode))]))
         (Some true) (Some true) (parentId parentNode).

Definition addNodeToTree (tree : TreeData) (parentId : option string)
    (newNode : ITreeNode) : TreeData :=
  match parentId with
  | None => tree ++ [with_parentId newNode None]
  | Some p => updateNodeInTree tree p (adopt newNode)
  end.

(** ** [removeNodeFromTree] *)

(** [tree.filter(node => node.id !== r).map(cb)], fused into one loop so
    that the recursion is structural; [removeNodeFromTree_eq] below states
    it with [filter] and [map] as the source does. *)
Definition removeLoop (cb : ITreeNode -> ITreeNode) (r : string)
    : list ITreeNode -> list ITreeNode :=
  fix loop (tree : list ITreeNode) : list ITreeNode :=
    match tree with
    | [] => []
    | n :: rest => if id n =? r then loop rest else cb n :: loop rest
    end.

(** The callback of [.map] in [removeNodeFromTree]. *)
Fixpoint removeNode (r : string) (n : ITreeNode) {struct n} : ITreeNode :=
  match n with
  | mkNode i nm (Loaded cs) e _ p =>
      let updatedChildren := removeLoop (removeNode r) r cs in
      mkNode i nm (Loaded updatedChildren) e
             (Some (0 <? List.length updatedChildren)%nat) p
  | _ => n
  end.

Definition removeNodeFromTree (tree : TreeData) (nodeIdToRemove : string)
    : TreeData :=
  removeLoop (removeNode nodeIdToRemove) nodeIdToRemove tree.

(** ** [isAncestor] *)

Definition anyLoop (A : Type) (visit : A -> bool) : list A -> bool :=
  fix loop (l : list A) : bool :=
    match l with
    | [] => false
    | n :: rest => if visit n then true else loop rest
    end.

(** One iteration of the loop of [findDescendant]: the node itself, then
    its loaded children, whatever its expansion state. *)
Fixpoint hasDescendant (descendantId : string) (n : ITreeNode) {struct n}
    : bool :=
  match n with
  | mkNode i _ c _ _ _ =>
      if i =? descendantId then true
      else match c with
           | Loaded cs => anyLoop (hasDescendant descendantId) cs
           | _ => false
           end
  end.

Definition findDescendant (descendantId : string) (currentNodes : TreeData)
    : bool :=
  anyLoop (hasDescendant descendantId) currentNodes.

Definition isAncestor (ancestorId descendantId : string) (nodes : TreeData)
    : bool :=
  match findNodeAndLocation nodes (Some ancestorId) with
  | Some loc =>
      match children (node loc) with
      | Loaded cs => findDescendant descendantId cs
      | _ => false
      end
  | None => false
  end.

(** ** [handleDrop] *)

(** The widget state: the two [useState] cells of [TreeView]. *)
Record TreeViewState : Type := mkState {
  treeData : TreeData;
  draggedItem : option DragItem
}.

(** [for (const node of nodes) { const r = visit(node); if (r) return r; }
    return null] for an object-valued [visit]. *)
Definition firstLoop (A B : Type) (visit : A -> option B)
    : list A -> option B :=
  fix loop (l : list A) : option B :=
    match l with
    | [] => None
    | n :: rest =>
        match visit n with
        | Some found => Some found
        | None => loop rest
        end
    end.

Fixpoint deepCopyOf (nodeId : string) (n : ITreeNode) {struct n}
    : option ITreeNode :=
  match n with
  | mkNode i _ c _ _ _ =>
      if i =? nodeId then Some (jsonClone n)
      else match c with
           | Loaded cs => firstLoop (deepCopyOf nodeId) cs
           | _ => None
           end
  end.

Definition findNodeDeepCopy (nodes : TreeData) (nodeId : string)
    : option ITreeNode :=
  firstLoop (deepCopyOf nodeId) nodes.

(** [x || null] for a [string | null | undefined]. *)
Definition or_null (s : option string) : option string :=
  if truthy s then s else None.

(** The updater of the [above]/[below] branch: install the new sibling
    array and mark the parent. *)
Definition install (newSiblings : list ITreeNode) (parentNode : ITreeNode)
    : ITreeNode :=
  mkNode (id parentNode) (name parentNode) (Loaded newSiblings)
         (isExpanded parentNode) (Some true) (parentId parentNode).

(** Step 3 of the state updater, lines 310-339: the [else] branch. When a
    parent is returned by [findNodeAndLocation] its [children] is the array
    it was searched in, so the cast of line 319 never meets [true]. *)
Definition dropAsSibling (treeAfterRemoval : TreeData)
    (nodeToInsert : ITreeNode) (targetNodeId : option string)
    (dropPosition : DropPosition) : TreeData :=
  let '(newSiblings, newParentId, insertIndex) :=
    if truthy targetNodeId then
      match findNodeAndLocation treeAfterRemoval targetNodeId with
      | Some targetSiblingLocation =>
          let newParentId :=
            or_null (option_map id (parent targetSiblingLocation)) in
          (match newParentId with
           | None => treeAfterRemoval
           | Some _ =>
               match parent targetSiblingLocation with
               | Some p => childrenArray (children p)
               | None => []
               end
           end,
           newParentId,
           match dropPosition with
           | above => index targetSiblingLocation
           | _ => index targetSiblingLocation + 1
           end)
      | None => ([], None, 0)
      end
    else (treeAfterRemoval, None, List.length treeAfterRemoval) in
  let newNodeWithCorrectParent := with_parentId nodeToInsert newParentId in
  let newSiblings := splice insertIndex newNodeWithCorrectParent newSiblings in
  match newParentId with
  | Some p =>
      if truthy newParentId
      then updateNodeInTree treeAfterRemoval p (install newSiblings)
      else newSiblings
  | None => newSiblings
  end.

(** The function passed to [setTreeData] by [handleDrop], lines 268-342. *)
Definition dropUpdater (dragged : DragItem) (targetNodeId : option string)
    (dropPosition : DropPosition) (prevTreeData : TreeData) : TreeData :=
  match findNodeDeepCopy prevTreeData (drag_id dragged) with
  | None => prevTreeData
  | Some draggedNode =>
      if truthy targetNodeId
         && match targetNodeId with
            | Some t => isAncestor (drag_id dragged) t prevTreeData
            | None => false
            end
      then prevTreeData
      else
        let treeAfterRemoval :=
          removeNodeFromTree prevTreeData (drag_id dragged) in
        let nodeToInsert := draggedNode in
        match dropPosition, targetNodeId with
        | child, Some t =>
            if truthy targetNodeId then
              match findNodeAndLocation treeAfterRemoval targetNodeId with
              | Some _ => updateNodeInTree treeAfterRemoval t (adopt nodeToInsert)
              | None => treeAfterRemoval
              end
            else dropAsSibling treeAfterRemoval nodeToInsert targetNodeId
                               dropPosition
        | _, _ => dropAsSibling treeAfterRemoval nodeToInsert targetNodeId
                                dropPosition
        end
  end.

(** [handleDrop(event, targetNodeId, dropPosition)]: the drag cell is
    cleared on every path. *)
Definition handleDrop (st : TreeViewState) (targetNodeId : option string)
    (dropPosition : DropPosition) : TreeViewState :=
  match draggedItem st with
  | None => mkState (treeData st) None
  | Some dragged =>
      if strict_eq (drag_id dragged) targetNodeId
      then mkState (treeData st) None
      else mkState (dropUpdater dragged targetNodeId dropPosition (treeData st))
                   None
  end.

(** ** Vocabulary of the properties *)

(** The nodes of a subtree in preorder, through loaded children whatever the
    expansion state. *)
Fixpoint subtree_nodes (n : ITreeNode) {struct n} : list ITreeNode :=
  match n with
  | mkNode _ _ c _ _ _ =>
      n :: match c with
           | Loaded cs => flat_map subtree_nodes cs
           | _ => []
           end
  end.

Definition all_nodes (tree : TreeData) : list ITreeNode :=
  flat_map subtree_nodes tree.

Definition tree_ids (tree : TreeData) : list string :=
  map id (all_nodes tree).

(** The proper descendants of a node. *)
Definition descendants (n : ITreeNode) : list ITreeNode :=
  all_nodes (childrenArray (children n)).

(** [n] is reachable from a root of [tree] through a chain of ancestors each
    of which is expanded and has loaded children. *)
Inductive Exposed (tree : TreeData) : ITreeNode -> Prop :=
| exposed_root : forall n, In n tree -> Exposed tree n
| exposed_child : forall p cs n,
    Exposed tree p ->
    children p = Loaded cs ->
    isExpanded p = Some true ->
    In n cs ->
    Exposed tree n.

(** The nodes a lookup can meet, in preorder: a list form of [Exposed],
    related to it by [Exposed_iff_shown]. *)
Fixpoint shown_nodes (n : ITreeNode) {struct n} : list ITreeNode :=
  match n with
  | mkNode _ _ c e _ _ =>
      n :: match c with
           | Loaded cs => if truthy_flag e then flat_map shown_nodes cs else []
           | _ => []
           end
  end.

Definition shown (tree : TreeData) : list ITreeNode :=
  flat_map shown_nodes tree.

(** Every node with a loaded children array carries the flag the array
    calls for. *)
Definition flag_ok (n : ITreeNode) : Prop :=
  forall cs, children n = Loaded cs ->
             hasChildren n = Some (0 <? List.length cs)%nat.

Definition flags_consistent (tree : TreeData) : Prop :=
  Forall flag_ok (all_nodes tree).

(** [removeNodeFromTree] seen on a tree that does not hold the id: only the
    flags are recomputed. *)
Fixpoint normalizeNode (n : ITreeNode) {struct n} : ITreeNode :=
  match n with
  | mkNode i nm (Loaded cs) e _ p =>
      mkNode i nm (Loaded (map normalizeNode cs)) e
             (Some (0 <? List.length cs)%nat) p
  | _ => n
  end.

Definition isSome (A : Type) (o : option A) : bool :=
  match o with
  | Some _ => true
  | None => false
  end.

(** ** Object identity: [updateNodeInTree] on a heap of immutable objects

    None of the helpers writes to an object after it is built, so a heap
    value is determined by its address and a tree of objects can carry the
    addresses in place: every node object and every array has the address
    it was allocated at, and allocation is a counter threaded through the
    code. Two references are identical ([===]) when the addresses agree. *)
Module Identity.

Definition addr : Type := nat.

(** [children]: absent, [true], or a reference to an array object. *)
Inductive Kids (A : Type) : Type :=
| KAbsent
| KUnloaded
| KLoaded (arr : addr) (elems : list A).
Arguments KAbsent {A}.
Arguments KUnloaded {A}.
Arguments KLoaded {A} arr elems.

#[warnings="-register-all"] Inductive Obj : Type :=
  mkObj {
    self : addr;
    oid : string;
    oname : string;
    okids : Kids Obj;
    oexpanded : option bool;
    ohasChildren : option bool;
    oparentId : option string
  }.

Definition kidsArray (k : Kids Obj) : list Obj :=
  match k with
  | KLoaded _ cs => cs
  | _ => []
  end.

(** An array object. *)
Record Arr : Type := mkArr {
  arr_addr : addr;
  arr_elems : list Obj
}.

(** Computations that allocate: the next free address goes in and out. *)
Definition Alloc (A : Type) : Type := addr -> A * addr.

Definition ret (A : Type) (x : A) : Alloc A := fun s => (x, s).

Definition bind (A B : Type) (m : Alloc A) (k : A -> Alloc B) : Alloc B :=
  fun s => let (x, s1) := m s in k x s1.

Definition fresh : Alloc addr := fun s => (s, S s).

Notation "x <- m ;; k" := (bind m (fun x => k))
  (at level 61, m at next level, right associativity).

(** The callbacks of [Array.prototype.map], run left to right. *)
Definition mapM (A B : Type) (f : A -> Alloc B) : list A -> Alloc (list B) :=
  fix loop (l : list A) : Alloc (list B) :=
    match l with
    | [] => ret []
    | x :: rest =>
        y <- f x ;;
        ys <- loop rest ;;
        ret (y :: ys)
    end.

(** The callback of [tree.map] in [updateNodeInTree]: the object literal
    [{...node, children: ...}] is a new object and the inner [.map] a new
    array, whether or not the target lies below [node]. *)
Fixpoint updateNode (nodeId : string) (updater : Obj -> Alloc Obj)
    (n : Obj) {struct n} : Alloc Obj :=
  match n with
  | mkObj _ i nm k e h p =>
      if i =? nodeId then updater n
      else match k with
           | KLoaded _ cs =>
               o <- fresh ;;
               a <- fresh ;;
               cs' <- mapM (updateNode nodeId updater) cs ;;
               ret (mkObj o i nm (KLoaded a cs') e h p)
           | _ => ret n
           end
  end.

Definition updateNodeInTree (tree : Arr) (nodeId : string)
    (updater : Obj -> Alloc Obj) : Alloc Arr :=
  a <- fresh ;;
  elems <- mapM (updateNode nodeId updater) (arr_elems tree) ;;
  ret (mkArr a elems).

(** The updater of [handleEditNodeName]: [{ ...node, name: newName }]. *)
Definition rename (newName : string) (n : Obj) : Alloc Obj :=
  o <- fresh ;;
  ret (mkObj o (oid n) newName (okids n) (oexpanded n) (ohasChildren n)
             (oparentId n)).

(** The value of an object, addresses forgotten. *)
Fixpoint erase (n : Obj) {struct n} : ITreeNode :=
  match n with
  | mkObj _ i nm k e h p =>
      mkNode i nm
             match k with
             | KAbsent => Absent
             | KUnloaded => Unloaded
             | KLoaded _ cs => Loaded (map erase cs)
             end
             e h p
  end.

Definition loaded (n : Obj) : bool :=
  match okids n with
  | KLoaded _ _ => true
  | _ => false
  end.

(** The object at a position (a path of child indices from the root
    array). *)
Fixpoint obj_at (p : list nat) (elems : list Obj) {struct p} : option Obj :=
  match p with
  | [] => None
  | i :: q =>
      match nth_error elems i with
      | None => None
      | Some n =>
          match q with
          | [] => Some n
          | _ :: _ =>
              match okids n with
              | KLoaded _ cs => obj_at q cs
              | _ => None
              end
          end
      end
  end.

(** The ids carried by a subtree. *)
Fixpoint ids (n : Obj) {struct n} : list string :=
  match n with
  | mkObj _ i _ k _ _ _ =>
      i :: match k with
           | KLoaded _ cs => flat_map ids cs
           | _ => []
           end
  end.

(** [n] sits at position [p] of [elems], the walk of [updateNodeInTree]
    for [nodeId] comes to it (no proper ancestor carries the id), and the
    subtree of [n] is off the root-to-target path (it does not hold the
    id). *)
Inductive OffPath (nodeId : string) : list Obj -> list nat -> Obj -> Prop :=
| off_here : forall elems i n,
    nth_error elems i = Some n ->
    ~ In nodeId (ids n) ->
    OffPath nodeId elems [i] n
| off_below : forall elems i a arr cs q n,
    nth_error elems i = Some a ->
    oid a <> nodeId ->
    okids a = KLoaded arr cs ->
    OffPath nodeId cs q n ->
    OffPath nodeId elems (i :: q) n.

(** [n] sits at position [p] of [elems] and the walk of
    [updateNodeInTree] for [nodeId] comes to it: every proper ancestor has
    another id and a loaded children array. [n] itself may carry the id,
    lie above a node that does, or be off the path. *)
Inductive Reached (nodeId : string) : list Obj -> list nat -> Obj -> Prop :=
| reached_here : forall elems i n,
    nth_error elems i = Some n ->
    Reached nodeId elems [i] n
| reached_below : forall elems i a arr cs q n,
    nth_error elems i = Some a ->
    oid a <> nodeId ->
    okids a = KLoaded arr cs ->
    Reached nodeId cs q n ->
    Reached nodeId elems (i :: q) n.

(** Update locality as the specification words it: every subtree off the
    path is, in the result, the very object of the input. *)
Definition update_locality (tree : Arr) (nodeId : string)
    (updater : Obj -> Alloc Obj) (s : addr) : Prop :=
  forall p n,
    OffPath nodeId (arr_elems tree) p n ->
    exists n',
      obj_at p (arr_elems (fst (updateNodeInTree tree nodeId updater s)))
        = Some n'
      /\ self n' = self n.

(** An updater that behaves as an allocator: it never gives addresses
    back. *)
Definition monotone (updater : Obj -> Alloc Obj) : Prop :=
  forall n s, s <= snd (updater n s).

(** Two roots, the second with a loaded child: the heap of
    [ [A, B[C]] ], addresses 0 to 4 in use. *)
Definition heap_C : Obj :=
  mkObj 4 "node-102" "C" KAbsent None (Some false) (Some "node-101").
Definition heap_B : Obj :=
  mkObj 2 "node-101" "B" (KLoaded 3 [heap_C]) (Some false) (Some true) None.
Definition heap_A : Obj :=
  mkObj 1 "node-100" "A" KAbsent None (Some false) None.
Definition heap_tree : Arr := mkArr 0 [heap_A; heap_B].

End Identity.

(** ** Sample trees

    Ids are those [generateId] hands out. [newLeaf] is the node built by
    [handleAddNode]: an empty loaded array, collapsed, flag off. *)

Definition newLeaf (i nm : string) (p : option string) : ITreeNode :=
  mkNode i nm (Loaded []) (Some false) (Some false) p.

(** [ [A[B, C]] ], [A] expanded. *)
Definition ex_B : ITreeNode := newLeaf "node-101" "B" (Some "node-100").
Definition ex_C : ITreeNode := newLeaf "node-102" "C" (Some "node-100").
Definition ex_A : ITreeNode :=
  mkNode "node-100" "A" (Loaded [ex_B; ex_C]) (Some true) (Some true) None.
Definition ex_family : TreeData := [ex_A].

(** Two roots without children. *)
Definition ex_R1 : ITreeNode := newLeaf "node-100" "A" None.
Definition ex_R2 : ITreeNode := newLeaf "node-101" "B" None.
Definition ex_roots : TreeData := [ex_R1; ex_R2].

(** [ [R[A[D]]] ] with the root [R] collapsed: [A] and [D] are loaded but
    not shown. *)
Definition ex_D : ITreeNode := newLeaf "node-102" "D" (Some "node-101").
Definition ex_hiddenA : ITreeNode :=
  mkNode "node-101" "A" (Loaded [ex_D]) (Some true) (Some true)
         (Some "node-100").
Definition ex_R : ITreeNode :=
  mkNode "node-100" "R" (Loaded [ex_hiddenA]) (Some false) (Some true) None.
Definition ex_hidden : TreeData := [ex_R].

(** A parent whose flag lags behind its loaded children. *)
Definition ex_stale : TreeData :=
  [mkNode "node-100" "A" (Loaded [newLeaf "node-101" "B" (Some "node-100")])
          (Some true) (Some false) None].

(** A root whose id is the empty string. *)
Definition ex_unnamed : TreeData := [newLeaf "" "A" None].

(** ** [mockData.ts]: ids, the initial tree, the loader *)

(** [nextId++] on a JavaScript number: integers are exact up to [2^53], and
    [2^53 + 1] rounds back to [2^53], where the counter stays. The counter
    starts at 100 and only grows through [increment], so it never leaves
    this range. *)
Definition increment (n : N) : N :=
  if (n <? 2 ^ 53)%N then (n + 1)%N else n.

(** A number of that range in a template literal: its decimal digits. *)
Definition numberToString (n : N) : string :=
  NilEmpty.string_of_uint (N.to_uint n).

(** [generateId()]: the id and the counter left behind. *)
Definition generateId (nextId : N) : string * N :=
  (("node-" ++ numberToString nextId)%string, increment nextId).

(** The callback of [nodes.map] in [setParentIds]. *)
Fixpoint setParentId (parentId : option string) (n : ITreeNode) {struct n}
    : ITreeNode :=
  match n with
  | mkNode i nm c e h _ =>
      match c with
      | Loaded cs => mkNode i nm (Loaded (map (setParentId (Some i)) cs)) e h
                            parentId
      | _ => mkNode i nm c e h parentId
      end
  end.

Definition setParentIds (nodes : TreeData) (parentId : option string)
    : TreeData :=
  map (setParentId parentId) nodes.

(** [rawInitialTreeData], built when the module is loaded: the five calls
    of [generateId] in the order the literal evaluates them. *)
Definition rawInitialTreeData : TreeData * N :=
  let (idA, n1) := generateId 100 in
  let (idB, n2) := generateId n1 in
  let (idB1, n3) := generateId n2 in
  let (idB2, n4) := generateId n3 in
  let (idC, n5) := generateId n4 in
  ([mkNode idA "Root A (Lazy Children)" Unloaded (Some false) (Some true) None;
    mkNode idB "Root B"
           (Loaded [mkNode idB1 "Child B1 (Lazy Children)" Unloaded
                           (Some false) (Some true) None;
                    mkNode idB2 "Child B2" (Loaded []) (Some false)
                           (Some false) None])
           (Some false) (Some true) None;
    mkNode idC "Root C (No Children)" (Loaded []) (Some false) (Some false)
           None],
   n5).

Definition createInitialTree : TreeData :=
  setParentIds (fst rawInitialTreeData) None.

(** The array [simulateApiCall] resolves with, the outcomes of
    [Math.random] taken as inputs: [draws] holds, for each child of the
    loop, the value of [hasGrandchildren]; the early [resolve([])] is the
    empty list. [i] is the loop index of the first child built. *)
Fixpoint newChildren (nodeId : string) (i : nat) (draws : list bool)
    (nextId : N) {struct draws} : list ITreeNode * N :=
  match draws with
  | [] => ([], nextId)
  | hasGrandchildren :: rest =>
      let (newId, n1) := generateId nextId in
      let (others, n2) := newChildren nodeId (S i) rest n1 in
      (mkNode newId
              ("Lazy Child " ++ nodeId ++ "-"
               ++ numberToString (N.of_nat (i + 1)))%string
              (if hasGrandchildren then Unloaded else Loaded [])
              (Some false) (Some hasGrandchildren) (Some nodeId)
       :: others, n2)
  end.

(** ** The other handlers of [TreeView] *)

(** The first updater of [handleToggleExpand]:
    [{ ...node, isExpanded: !currentIsExpanded }]. *)
Definition flipExpanded (currentIsExpanded : bool) (n : ITreeNode)
    : ITreeNode :=
  mkNode (id n) (name n) (children n) (Some (negb currentIsExpanded))
         (hasChildren n) (parentId n).

(** The second updater of [handleToggleExpand], run when the loader has
    resolved. *)
Definition installChildren (loadedChildren : list ITreeNode) (n : ITreeNode)
    : ITreeNode :=
  mkNode (id n) (name n) (Loaded loadedChildren) (isExpanded n)
         (Some (0 <? List.length loadedChildren)%nat) (parentId n).

(** [handleToggleExpand], first state transition. *)
Definition toggleExpand (tree : TreeData) (nodeId : string)
    (currentIsExpanded : bool) : TreeData :=
  updateNodeInTree tree nodeId (flipExpanded currentIsExpanded).

(** [!currentIsExpanded && currentChildren === true]: the loader is
    called. *)
Definition startsLoad (currentIsExpanded : bool)
    (currentChildren : Children ITreeNode) : bool :=
  negb currentIsExpanded
  && match currentChildren with
     | Unloaded => true
     | _ => false
     end.

(** [handleToggleExpand], second state transition, on the value the loader
    resolved with. *)
Definition finishLoad (tree : TreeData) (nodeId : string)
    (loadedChildren : list ITreeNode) : TreeData :=
  updateNodeInTree tree nodeId (installChildren loadedChildren).

(** [handleAddNode(parentId)] on the answer of [prompt]: [null] and the
    empty string leave the state alone, [generateId] not being called. *)
Definition handleAddNode (tree : TreeData) (nextId : N)
    (parentId : option string) (nodeName : option string) : TreeData * N :=
  match nodeName with
  | Some nm =>
      if truthy nodeName then
        let (newId, n1) := generateId nextId in
        (addNodeToTree tree parentId
           (mkNode newId nm (Loaded []) (Some false) (Some false) parentId),
         n1)
      else (tree, nextId)
  | None => (tree, nextId)
  end.

(** [handleRemoveNode(nodeId)] on the answer of [window.confirm]. *)
Definition handleRemoveNode (tree : TreeData) (nodeId : string)
    (confirmed : bool) : TreeData :=
  if confirmed then removeNodeFromTree tree nodeId else tree.

Definition with_name (newName : string) (n : ITreeNode) : ITreeNode :=
  mkNode (id n) newName (children n) (isExpanded n) (hasChildren n)
         (parentId n).

Definition handleEditNodeName (tree : TreeData) (nodeId newName : string)
    : TreeData :=
  updateNodeInTree tree nodeId (with_name newName).

Definition handleDragStart (st : TreeViewState) (item : DragItem)
    : TreeViewState :=
  mkState (treeData st) (Some item).

(** ** [TreeNode.tsx]: what a node shows *)

(** [node.isExpanded ?? false]. *)
Definition viewIsExpanded (n : ITreeNode) : bool :=
  match isExpanded n with
  | Some b => b
  | None => false
  end.

(** [node.hasChildren ?? (node.children === true
    || (Array.isArray(node.children) && node.children.length > 0))]. *)
Definition viewHasChildren (n : ITreeNode) : bool :=
  match hasChildren n with
  | Some b => b
  | None =>
      match children n with
      | Unloaded => true
      | Loaded cs => (0 <? List.length cs)%nat
      | Absent => false
      end
  end.

(** [isExpanded && node.children === true]: the spinner. *)
Definition isLoadingChildren (n : ITreeNode) : bool :=
  viewIsExpanded n
  && match children n with
     | Unloaded => true
     | _ => false
     end.

(** The expand toggle of a [TreeNode]:
    [hasChildren && <span> isLoadingChildren ? spinner
                           : (isExpanded ? chevron down : chevron right)].
    Without [hasChildren] no toggle is rendered, and no spinner. *)
Inductive ToggleIcon : Type := Spinner | ChevronDown | ChevronRight.

Definition expandToggle (n : ITreeNode) : option ToggleIcon :=
  if viewHasChildren n
  then Some (if isLoadingChildren n then Spinner
             else if viewIsExpanded n then ChevronDown else ChevronRight)
  else None.

(** The [node] and [level] props of the [TreeNode] elements rendered for a
    node, in document order: the element itself, then, when it is expanded
    and its children are an array, the elements of the children, each given
    as prop [{ ...child, parentId: node.id }]. [asProp] is what the parent
    does to the stored node to make the prop. *)
Fixpoint renderNode (level : nat) (asProp : ITreeNode -> ITreeNode)
    (n : ITreeNode) {struct n} : list (ITreeNode * nat) :=
  match n with
  | mkNode i _ c e _ _ =>
      (asProp n, level)
      :: match c with
         | Loaded cs =>
             if truthy_flag e
             then flat_map (renderNode (S level)
                              (fun c => with_parentId c (Some i))) cs
             else []
         | _ => []
         end
  end.

(** The elements [TreeView] renders for [treeData]. *)
Definition render (tree : TreeData) : list (ITreeNode * nat) :=
  flat_map (renderNode 0 (fun n => n)) tree.

(** ** Vocabulary of the further properties *)

(** Every node paired with the id of the node that holds it ([p] for the
    nodes of [tree] themselves). *)
Fixpoint links_of (p : option string) (n : ITreeNode) {struct n}
    : list (option string * ITreeNode) :=
  match n with
  | mkNode i _ c _ _ _ =>
      (p, n) :: match c with
                | Loaded cs => flat_map (links_of (Some i)) cs
                | _ => []
                end
  end.

Definition links (p : option string) (tree : TreeData)
    : list (option string * ITreeNode) :=
  flat_map (links_of p) tree.

(** Parent consistency: every node names in [parentId] the node whose
    children hold it, the nodes of [tree] itself naming [p]. *)
Definition parents_consistent (p : option string) (tree : TreeData) : Prop :=
  Forall (fun l => parentId (snd l) = fst l) (links p tree).

(** The ids [generateId] has handed out when the counter stands at [c]. *)
Definition issued (c : N) (i : string) : Prop :=
  exists k, (100 <= k < c)%N /\ i = fst (generateId k).

(** ** The widget as a transition system

    The state is the two [useState] cells and the module variable
    [nextId]. A step is one handler run, or one resolution of the loader
    ([step_load]: the children are built and installed in one turn of the
    event loop). The answers of the user, the arguments of the handlers and
    the outcomes of [Math.random] are free. *)
Record AppState : Type := mkApp {
  app_view : TreeViewState;
  app_nextId : N
}.

Definition app_tree (s : AppState) : TreeData := treeData (app_view s).

Definition initialApp : AppState :=
  mkApp (mkState createInitialTree None) (snd rawInitialTreeData).

Inductive Step : AppState -> AppState -> Prop :=
| step_toggle : forall s nodeId currentIsExpanded,
    Step s (mkApp (mkState (toggleExpand (app_tree s) nodeId currentIsExpanded)
                           (draggedItem (app_view s)))
                  (app_nextId s))
| step_load : forall s nodeId draws,
    Step s (mkApp (mkState (finishLoad (app_tree s) nodeId
                              (fst (newChildren nodeId 0 draws (app_nextId s))))
                           (draggedItem (app_view s)))
                  (snd (newChildren nodeId 0 draws (app_nextId s))))
| step_add : forall s parentId nodeName,
    Step s (mkApp (mkState (fst (handleAddNode (app_tree s) (app_nextId s)
                                   parentId nodeName))
                           (draggedItem (app_view s)))
                  (snd (handleAddNode (app_tree s) (app_nextId s)
                          parentId nodeName)))
| step_remove : forall s nodeId confirmed,
    Step s (mkApp (mkState (handleRemoveNode (app_tree s) nodeId confirmed)
                           (draggedItem (app_view s)))
                  (app_nextId s))
| step_rename : forall s nodeId newName,
    Step s (mkApp (mkState (handleEditNodeName (app_tree s) nodeId newName)
                           (draggedItem (app_view s)))
                  (app_nextId s))
| step_dragStart : forall s item,
    Step s (mkApp (handleDragStart (app_view s) item) (app_nextId s))
| step_drop : forall s targetNodeId dropPosition,
    Step s (mkApp (handleDrop (app_view s) targetNodeId dropPosition)
                  (app_nextId s)).

Inductive Reachable : AppState -> Prop :=
| reach_init : Reachable initialApp
| reach_step : forall s s', Reachable s -> Step s s' -> Reachable s'.

(** The trees the widget is meant to hold: flags and parents consistent,
    and, as long as the counter is below [2^53], ids unique and all handed
    out by [generateId]. *)
Definition well_formed (s : AppState) : Prop :=
  flags_consistent (app_tree s)
  /\ parents_consistent None (app_tree s)
  /\ (100 <= app_nextId s)%N
  /\ ((app_nextId s < 2 ^ 53)%N ->
      NoDup (tree_ids (app_tree s))
      /\ Forall (issued (app_nextId s)) (tree_ids (app_tree s))).

(** * Proofs *)

Unset Implicit Arguments.

(** ** Induction on trees *)

Lemma tree_ind (P : TreeData -> Prop) :
  P [] ->
  (forall n rest, P (childrenArray (children n)) -> P rest -> P (n :: rest)) ->
  forall tree, P tree.
Proof.
  intros P_nil P_cons.
  assert (below : forall n, P (childrenArray (children n))).
  { fix below 1. intros [i nm [| |cs] e h p]; simpl; try exact P_nil.
    induction cs as [|c cs IH]; [exact P_nil|].
    apply P_cons; [apply below | exact IH]. }
  induction tree as [|n rest IH]; [exact P_nil|].
  apply P_cons; [apply below | exact IH].
Qed.

(** ** Unfolding equations *)

Lemma subtree_nodes_eq n : subtree_nodes n = n :: descendants n.
Proof. destruct n as [i nm [| |cs] e h p]; reflexivity. Qed.

Lemma all_nodes_cons n rest :
  all_nodes (n :: rest) = n :: descendants n ++ all_nodes rest.
Proof. unfold all_nodes at 1; simpl. now rewrite subtree_nodes_eq. Qed.

Lemma tree_ids_cons n rest :
  tree_ids (n :: rest)
  = id n :: tree_ids (childrenArray (children n)) ++ tree_ids rest.
Proof. unfold tree_ids. rewrite all_nodes_cons. simpl. now rewrite map_app. Qed.

Lemma removeLoop_eq cb r tree :
  removeLoop cb r tree = map cb (filter (fun n => negb (id n =? r)) tree).
Proof.
  induction tree as [|n rest IH]; simpl; [reflexivity|].
  destruct (id n =? r); simpl; now rewrite IH.
Qed.

(** [removeNodeFromTree] as the source writes it: filter, then map. *)
Lemma removeNodeFromTree_eq tree r :
  removeNodeFromTree tree r
  = map (removeNode r) (filter (fun n => negb (id n =? r)) tree).
Proof. apply removeLoop_eq. Qed.

Lemma removeNode_eq r n :
  removeNode r n
  = match children n with
    | Loaded cs =>
        let updatedChildren := removeNodeFromTree cs r in
        mkNode (id n) (name n) (Loaded updatedChildren) (isExpanded n)
               (Some (0 <? List.length updatedChildren)%nat) (parentId n)
    | _ => n
    end.
Proof. destruct n as [i nm [| |cs] e h p]; reflexivity. Qed.

Lemma removeNodeFromTree_cons n rest r :
  removeNodeFromTree (n :: rest) r
  = if id n =? r then removeNodeFromTree rest r
    else removeNode r n :: removeNodeFromTree rest r.
Proof. reflexivity. Qed.

Lemma updateNode_eq nodeId updater n :
  updateNode nodeId updater n
  = if id n =? nodeId then updater n
    else match children n with
         | Loaded cs =>
             mkNode (id n) (name n)
                    (Loaded (updateNodeInTree cs nodeId updater))
                    (isExpanded n) (hasChildren n) (parentId n)
         | _ => n
         end.
Proof. destruct n as [i nm [| |cs] e h p]; reflexivity. Qed.

(** ** Flags after a removal *)

Lemma flags_consistent_cons n rest :
  flags_consistent (n :: rest)
  <-> flag_ok n /\ flags_consistent (childrenArray (children n))
      /\ flags_consistent rest.
Proof.
  unfold flags_consistent. rewrite all_nodes_cons.
  split.
  - intros H. inversion H as [|? ? Hn Hr]; subst.
    apply Forall_app in Hr. tauto.
  - intros (Hn & Hk & Hr). constructor; [exact Hn|].
    apply Forall_app. split; assumption.
Qed.

Lemma removeNodeFromTree_flags tree r :
  flags_consistent (removeNodeFromTree tree r).
Proof.
  induction tree as [|n rest IHk IHr] using tree_ind.
  - constructor.
  - rewrite removeNodeFromTree_cons.
    destruct (id n =? r); [exact IHr|].
    apply flags_consistent_cons. rewrite removeNode_eq.
    destruct n as [i nm [| |cs] e h p]; simpl in *.
    + repeat split; try exact IHr; try constructor. intros cs H; discriminate.
    + repeat split; try exact IHr; try constructor. intros cs H; discriminate.
    + repeat split; try exact IHr; try exact IHk.
      intros cs' H. simpl in H. now inversion H.
Qed.

(** ** Removing an id the tree does not hold *)

Lemma normalizeNode_eq n :
  normalizeNode n
  = match children n with
    | Loaded cs =>
        mkNode (id n) (name n) (Loaded (map normalizeNode cs)) (isExpanded n)
               (Some (0 <? List.length cs)%nat) (parentId n)
    | _ => n
    end.
Proof. destruct n as [i nm [| |cs] e h p]; reflexivity. Qed.

Lemma not_in_tree_ids_cons r n rest :
  ~ In r (tree_ids (n :: rest)) ->
  id n <> r /\ ~ In r (tree_ids (childrenArray (children n)))
  /\ ~ In r (tree_ids rest).
Proof.
  rewrite tree_ids_cons. simpl. rewrite in_app_iff. tauto.
Qed.

Lemma removeNodeFromTree_absent tree r :
  ~ In r (tree_ids tree) ->
  removeNodeFromTree tree r = map normalizeNode tree.
Proof.
  induction tree as [|n rest IHk IHr] using tree_ind; intros Hr; [reflexivity|].
  apply not_in_tree_ids_cons in Hr. destruct Hr as (Hn & Hk & Hrest).
  rewrite removeNodeFromTree_cons.
  apply String.eqb_neq in Hn. rewrite Hn. simpl.
  rewrite (IHr Hrest). f_equal.
  rewrite removeNode_eq, normalizeNode_eq.
  destruct n as [i nm [| |cs] e h p]; simpl in *; try reflexivity.
  rewrite (IHk Hk). now rewrite length_map.
Qed.

Lemma normalize_consistent (tree : TreeData) :
  flags_consistent tree -> map normalizeNode tree = tree.
Proof.
  induction tree as [|n rest IHk IHr] using tree_ind; intros H; [reflexivity|].
  apply flags_consistent_cons in H. destruct H as (Hn & Hk & Hrest).
  simpl. rewrite (IHr Hrest). f_equal.
  rewrite normalizeNode_eq.
  destruct n as [i nm [| |cs] e h p]; simpl in *; try reflexivity.
  rewrite (IHk Hk). specialize (Hn cs eq_refl). simpl in Hn. now rewrite Hn.
Qed.

Lemma tree_ids_normalize (tree : TreeData) :
  tree_ids (map normalizeNode tree) = tree_ids tree.
Proof.
  induction tree as [|n rest IHk IHr] using tree_ind; [reflexivity|].
  simpl map. rewrite !tree_ids_cons, IHr. 
  rewrite normalizeNode_eq.
  destruct n as [i nm [| |cs] e h p]; simpl in *; try reflexivity.
  now rewrite IHk.
Qed.

Lemma tree_ids_remove_absent tree r :
  ~ In r (tree_ids tree) ->
  tree_ids (removeNodeFromTree tree r) = tree_ids tree.
Proof.
  intros H. rewrite (removeNodeFromTree_absent _ _ H). apply tree_ids_normalize.
Qed.

(** ** The removal cascade *)

Lemma NoDup_app_apart (A : Type) (l1 l2 : list A) a :
  NoDup (l1 ++ l2) -> In a l1 -> ~ In a l2.
Proof.
  induction l1 as [|x l1 IH]; simpl; intros Hnd H1 H2; [exact H1|].
  inversion Hnd as [|? ? Hx Hl]; subst.
  destruct H1 as [->|H1].
  - apply Hx, in_or_app. now right.
  - exact (IH Hl H1 H2).
Qed.

Lemma NoDup_tree_ids_cons n rest :
  NoDup (tree_ids (n :: rest)) ->
  ~ In (id n) (tree_ids (childrenArray (children n)))
  /\ ~ In (id n) (tree_ids rest)
  /\ NoDup (tree_ids (childrenArray (children n)))
  /\ NoDup (tree_ids rest)
  /\ (forall i, In i (tree_ids (childrenArray (children n))) ->
                ~ In i (tree_ids rest)).
Proof.
  rewrite tree_ids_cons. intros H. inversion H as [|? ? Hn Hnd]; subst.
  rewrite in_app_iff in Hn.
  repeat split; try tauto.
  - now apply NoDup_app_remove_r in Hnd.
  - now apply NoDup_app_remove_l in Hnd.
  - intros i Hi Hi'. 
    exact (NoDup_app_apart _ _ _ i Hnd Hi Hi').
Qed.

Lemma in_all_nodes_ids X tree :
  In X (all_nodes tree) -> In (id X) (tree_ids tree).
Proof. intros H. unfold tree_ids. now apply in_map. Qed.

(** Removing [X] cuts the ids of its subtree out of the preorder list of
    ids and keeps the rest in place. *)
Lemma removeNodeFromTree_cut tree X :
  NoDup (tree_ids tree) ->
  In X (all_nodes tree) ->
  exists l1 l2,
    tree_ids tree = l1 ++ map id (subtree_nodes X) ++ l2
    /\ tree_ids (removeNodeFromTree tree (id X)) = l1 ++ l2.
Proof.
  induction tree as [|n rest IHk IHr] using tree_ind; intros Hnd HX.
  - destruct HX.
  - pose proof (NoDup_tree_ids_cons _ _ Hnd) as (Hnk & Hnr & Hk & Hr & Hdisj).
    rewrite all_nodes_cons in HX. simpl in HX.
    rewrite in_app_iff in HX.
    rewrite removeNodeFromTree_cons.
    destruct HX as [HX | [HX | HX]].
    + subst X. rewrite String.eqb_refl.
      exists [], (tree_ids rest). split.
      * rewrite tree_ids_cons. simpl. rewrite subtree_nodes_eq. simpl.
        unfold tree_ids, descendants. reflexivity.
      * simpl. now apply tree_ids_remove_absent.
    + assert (Hne : id n <> id X).
      { intros E. apply Hnk. rewrite E. now apply in_all_nodes_ids. }
      apply String.eqb_neq in Hne. rewrite Hne.
      destruct (IHk Hk HX) as (l1 & l2 & E1 & E2).
      assert (HXr : ~ In (id X) (tree_ids rest)).
      { apply Hdisj. now apply in_all_nodes_ids. }
      exists (id n :: l1), (l2 ++ tree_ids rest). split.
      * rewrite tree_ids_cons, E1. simpl. now rewrite <- !app_assoc.
      * rewrite tree_ids_cons, (tree_ids_remove_absent _ _ HXr).
        rewrite removeNode_eq.
        destruct n as [i nm [| |cs] e h p]; simpl in *; try contradiction.
        rewrite E2. now rewrite <- app_assoc.
    + assert (Hne : id n <> id X).
      { intros E. apply Hnr. rewrite E. now apply in_all_nodes_ids. }
      apply String.eqb_neq in Hne. rewrite Hne.
      destruct (IHr Hr HX) as (l1 & l2 & E1 & E2).
      assert (HXk : ~ In (id X) (tree_ids (childrenArray (children n)))).
      { intros Hin. apply (Hdisj _ Hin). now apply in_all_nodes_ids. }
      exists (id n :: tree_ids (childrenArray (children n)) ++ l1), l2. split.
      * rewrite tree_ids_cons, E1. simpl. now rewrite <- !app_assoc.
      * rewrite tree_ids_cons, E2. rewrite removeNode_eq.
        destruct n as [i nm [| |cs] e h p]; simpl in *;
          try now rewrite <- ?app_assoc.
        rewrite (tree_ids_remove_absent _ _ HXk). now rewrite <- app_assoc.
Qed.

Lemma NoDup_map_injective (A B : Type) (f : A -> B) (l : list A) x y :
  NoDup (map f l) -> In x l -> In y l -> f x = f y -> x = y.
Proof.
  induction l as [|a l IH]; simpl; intros Hnd Hx Hy E; [destruct Hx|].
  inversion Hnd as [|? ? Ha Hl]; subst.
  destruct Hx as [Hx|Hx], Hy as [Hy|Hy]; subst.
  - reflexivity.
  - exfalso. apply Ha. rewrite E. now apply in_map.
  - exfalso. apply Ha. rewrite <- E. now apply in_map.
  - now apply IH.
Qed.

Lemma subtree_in_all_nodes (tree : TreeData) X :
  In X (all_nodes tree) -> incl (subtree_nodes X) (all_nodes tree).
Proof.
  induction tree as [|n rest IHk IHr] using tree_ind; intros HX.
  - destruct HX.
  - rewrite all_nodes_cons in *. simpl in HX. rewrite in_app_iff in HX.
    destruct HX as [HX | [HX | HX]].
    + subst X. rewrite subtree_nodes_eq. intros y Hy. simpl in *.
      rewrite in_app_iff. tauto.
    + intros y Hy. right. apply in_or_app. left.
      exact (IHk HX y Hy).
    + intros y Hy. right. apply in_or_app. right. exact (IHr HX y Hy).
Qed.

(** ** Updates *)

Lemma updateNodeInTree_absent (tree : TreeData) nodeId updater :
  ~ In nodeId (tree_ids tree) ->
  updateNodeInTree tree nodeId updater = tree.
Proof.
  induction tree as [|n rest IHk IHr] using tree_ind; intros H; [reflexivity|].
  apply not_in_tree_ids_cons in H. destruct H as (Hn & Hk & Hrest).
  unfold updateNodeInTree in *. simpl. rewrite (IHr Hrest). f_equal.
  rewrite updateNode_eq. apply String.eqb_neq in Hn. rewrite Hn.
  destruct n as [i nm [| |cs] e h p]; simpl in *; try reflexivity.
  unfold updateNodeInTree. now rewrite (IHk Hk).
Qed.

(** With unique ids the node carrying the target id is replaced, where it
    stands, by what the updater makes of it. *)
Lemma updateNodeInTree_target (tree : TreeData) updater X :
  NoDup (tree_ids tree) ->
  In X (all_nodes tree) ->
  In (updater X) (all_nodes (updateNodeInTree tree (id X) updater)).
Proof.
  induction tree as [|n rest IHk IHr] using tree_ind; intros Hnd HX.
  - destruct HX.
  - pose proof (NoDup_tree_ids_cons _ _ Hnd) as (Hnk & Hnr & Hk & Hr & Hdisj).
    rewrite all_nodes_cons in HX. simpl in HX. rewrite in_app_iff in HX.
    unfold updateNodeInTree in *. simpl map.
    rewrite all_nodes_cons. rewrite updateNode_eq.
    destruct HX as [HX | [HX | HX]].
    + subst X. rewrite String.eqb_refl. now left.
    + assert (Hne : id n <> id X).
      { intros E. apply Hnk. rewrite E. now apply in_all_nodes_ids. }
      apply String.eqb_neq in Hne. rewrite Hne.
      destruct n as [i nm [| |cs] e h p]; simpl in *; try contradiction.
      right. apply in_or_app. left. exact (IHk Hk HX).
    + right. apply in_or_app. right. exact (IHr Hr HX).
Qed.

(** ** Lookup *)

Lemma findDescend_eq s n :
  findDescend s n
  = match children n with
    | Loaded cs =>
        if truthy_flag (isExpanded n)
        then findLoop (findDescend s) s (Some n) cs cs 0
        else None
    | _ => None
    end.
Proof. destruct n as [i nm [| |cs] e h p]; reflexivity. Qed.

Lemma findLoop_cons descend s par sib n rest i :
  findLoop descend s par sib (n :: rest) i
  = if id n =? s then Some (mkLoc n par i sib)
    else match descend n with
         | Some found => Some found
         | None => findLoop descend s par sib rest (S i)
         end.
Proof. reflexivity. Qed.

Lemma shown_nodes_eq n :
  shown_nodes n
  = n :: match children n with
         | Loaded cs => if truthy_flag (isExpanded n) then shown cs else []
         | _ => []
         end.
Proof. destruct n as [i nm [| |cs] e h p]; reflexivity. Qed.

Lemma shown_cons n rest : shown (n :: rest) = shown_nodes n ++ shown rest.
Proof. reflexivity. Qed.

Lemma findLoop_isSome (tree : TreeData) s :
  forall par sib i,
    isSome (findLoop (findDescend s) s par sib tree i) = true
    <-> In s (map id (shown tree)).
Proof.
  induction tree as [|n rest IHk IHr] using tree_ind; intros par sib i.
  - simpl. split; [discriminate | tauto].
  - rewrite findLoop_cons, shown_cons, map_app, in_app_iff, shown_nodes_eq.
    simpl map. simpl In.
    destruct (id n =? s) eqn:E.
    + apply String.eqb_eq in E. simpl. tauto.
    + apply String.eqb_neq in E. rewrite findDescend_eq.
      destruct n as [i0 nm [| |cs] e h p]; simpl in *;
        try (rewrite IHr; tauto).
      destruct (truthy_flag e).
      * specialize (IHk (Some (mkNode i0 nm (Loaded cs) e h p)) cs 0).
        destruct (findLoop (findDescend s) s _ cs cs 0).
        -- simpl in *. tauto.
        -- rewrite IHr. simpl in IHk. 
           assert (~ In s (map id (shown cs))) by (rewrite <- IHk; discriminate).
           tauto.
      * rewrite IHr. simpl. tauto.
Qed.

Lemma shown_subtree (tree : TreeData) p :
  In p (shown tree) -> incl (shown_nodes p) (shown tree).
Proof.
  induction tree as [|n rest IHk IHr] using tree_ind; intros Hp.
  - destruct Hp.
  - rewrite shown_cons in *. rewrite in_app_iff in Hp.
    destruct Hp as [Hp | Hp].
    + rewrite shown_nodes_eq in Hp. destruct Hp as [Hp | Hp].
      * subst p. intros y Hy. apply in_or_app. now left.
      * intros y Hy. apply in_or_app. left.
        rewrite shown_nodes_eq. right.
        destruct n as [i nm [| |cs] e h q]; simpl in *; try contradiction.
        destruct (truthy_flag e); [|contradiction].
        exact (IHk Hp y Hy).
    + intros y Hy. apply in_or_app. right. exact (IHr Hp y Hy).
Qed.

Lemma in_shown_root (tree : TreeData) n : In n tree -> In n (shown tree).
Proof.
  induction tree as [|m rest IH]; [intros []|].
  intros [->|H]; rewrite shown_cons; apply in_or_app.
  - left. rewrite shown_nodes_eq. now left.
  - right. now apply IH.
Qed.

Lemma Exposed_shown tree n : Exposed tree n -> In n (shown tree).
Proof.
  induction 1 as [n H | p cs n Hp IH Hc He Hn].
  - now apply in_shown_root.
  - apply (shown_subtree _ _ IH). rewrite shown_nodes_eq, Hc, He.
    right. cbn [truthy_flag]. now apply in_shown_root.
Qed.

Lemma truthy_flag_true e : truthy_flag e = true -> e = Some true.
Proof. destruct e as [[|]|]; simpl; congruence. Qed.

Lemma shown_Exposed (top tree : TreeData) :
  (forall n, In n tree -> Exposed top n) ->
  forall n, In n (shown tree) -> Exposed top n.
Proof.
  induction tree as [|m rest IHk IHr] using tree_ind; intros Hroots n Hn.
  - destruct Hn.
  - rewrite shown_cons, in_app_iff in Hn. destruct Hn as [Hn | Hn].
    + rewrite shown_nodes_eq in Hn. destruct Hn as [Hn | Hn].
      * subst n. apply Hroots. now left.
      * assert (Hm : Exposed top m) by (apply Hroots; now left).
        destruct m as [i nm [| |cs] e h q]; simpl in *; try contradiction.
        destruct (truthy_flag e) eqn:He; [|contradiction].
        apply truthy_flag_true in He.
        apply IHk; [|exact Hn].
        intros c Hc.
        exact (@exposed_child top (mkNode i nm (Loaded cs) e h q) cs c
                             Hm eq_refl He Hc).
    + apply IHr; [|exact Hn]. intros c Hc. apply Hroots. now right.
Qed.

Lemma Exposed_iff_shown tree n : Exposed tree n <-> In n (shown tree).
Proof.
  split; [apply Exposed_shown|].
  apply shown_Exposed. intros m Hm. now apply exposed_root.
Qed.

(** What a location returned by the loop holds: either the node was met in
    the scanned array itself, or below an expanded node, with that node as
    parent and its children as siblings. *)
Lemma findLoop_location (tree : TreeData) s :
  forall par sib i loc,
    findLoop (findDescend s) s par sib tree i = Some loc ->
    id (node loc) = s
    /\ ((parent loc = par /\ siblings loc = sib /\ i <= index loc
         /\ nth_error tree (index loc - i) = Some (node loc))
        \/ (exists p, parent loc = Some p
                      /\ children p = Loaded (siblings loc)
                      /\ nth_error (siblings loc) (index loc) = Some (node loc))).
Proof.
  induction tree as [|n rest IHk IHr] using tree_ind; intros par sib i loc.
  - discriminate.
  - rewrite findLoop_cons. destruct (id n =? s) eqn:E.
    + intros H. inversion H; subst loc; simpl.
      apply String.eqb_eq in E. split; [exact E|]. left.
      rewrite Nat.sub_diag. auto.
    + rewrite findDescend_eq.
      assert (Hrest : findLoop (findDescend s) s par sib rest (S i) = Some loc ->
                id (node loc) = s
    /\ ((parent loc = par /\ siblings loc = sib /\ i <= index loc
         /\ nth_error (n :: rest) (index loc - i) = Some (node loc))
        \/ (exists p, parent loc = Some p
                      /\ children p = Loaded (siblings loc)
                      /\ nth_error (siblings loc) (index loc) = Some (node loc)))).
      { intros H. destruct (IHr _ _ _ _ H) as (Hid & [(Hp & Hs & Hi & Hn) | Hd]).
        - split; [exact Hid|]. left. repeat split; auto; try lia.
          replace (index loc - i) with (S (index loc - S i)) by lia.
          exact Hn.
        - split; [exact Hid|]. now right. }
      destruct n as [i0 nm [| |cs] e h p]; simpl in *; try exact Hrest.
      destruct (truthy_flag e); [|exact Hrest].
      destruct (findLoop (findDescend s) s _ cs cs 0) as [found|] eqn:F;
        [|exact Hrest].
      intros H. inversion H; subst found.
      destruct (IHk _ _ _ _ F) as (Hid & [(Hp & Hs & Hi & Hn) | Hd]).
      * split; [exact Hid|]. right.
        exists (mkNode i0 nm (Loaded cs) e h p). simpl.
        rewrite Hs. rewrite Nat.sub_0_r in Hn. auto.
      * split; [exact Hid|]. now right.
Qed.

(** ** Sharing in [updateNodeInTree] *)

Module IdentityFacts.
Import Identity.

Lemma objs_ind (P : list Obj -> Prop) :
  P [] ->
  (forall n rest, P (kidsArray (okids n)) -> P rest -> P (n :: rest)) ->
  forall elems, P elems.
Proof.
  intros P_nil P_cons.
  assert (below : forall n, P (kidsArray (okids n))).
  { fix below 1. intros [a i nm [| |ka cs] e h p]; simpl; try exact P_nil.
    induction cs as [|c cs IH]; [exact P_nil|].
    apply P_cons; [apply below | exact IH]. }
  induction elems as [|n rest IH]; [exact P_nil|].
  apply P_cons; [apply below | exact IH].
Qed.

Lemma mapM_cons (A B : Type) (f : A -> Alloc B) x rest s :
  mapM f (x :: rest) s
  = (fst (f x s) :: fst (mapM f rest (snd (f x s))),
     snd (mapM f rest (snd (f x s)))).
Proof.
  simpl. unfold bind, ret. destruct (f x s) as [y s1]. simpl.
  destruct (mapM f rest s1) as [ys s2]. reflexivity.
Qed.

Lemma updateObj_eq nodeId updater n s :
  updateNode nodeId updater n s
  = if oid n =? nodeId then updater n s
    else match okids n with
         | KLoaded _ cs =>
             let r := mapM (updateNode nodeId updater) cs (S (S s)) in
             (mkObj s (oid n) (oname n) (KLoaded (S s) (fst r))
                    (oexpanded n) (ohasChildren n) (oparentId n), snd r)
         | _ => (n, s)
         end.
Proof.
  destruct n as [a i nm [| |ka cs] e h p]; simpl;
    destruct (i =? nodeId); try reflexivity.
  unfold bind, fresh, ret.
  destruct (mapM (updateNode nodeId updater) cs (S (S s))); reflexivity.
Qed.

Lemma ids_eq n : ids n = oid n :: flat_map ids (kidsArray (okids n)).
Proof. destruct n as [a i nm [| |ka cs] e h p]; reflexivity. Qed.

(** Below a node that does not hold the target, the walk allocates but
    changes no value. *)
Lemma mapM_off_path nodeId updater (elems : list Obj) :
  forall s,
    ~ In nodeId (flat_map ids elems) ->
    map erase (fst (mapM (updateNode nodeId updater) elems s))
    = map erase elems
    /\ s <= snd (mapM (updateNode nodeId updater) elems s).
Proof.
  induction elems as [|n rest IHk IHr] using objs_ind; intros s Hno.
  - simpl. split; [reflexivity | lia].
  - simpl in Hno. rewrite in_app_iff, ids_eq in Hno. simpl in Hno.
    assert (Hn : oid n <> nodeId) by tauto.
    assert (Hk : ~ In nodeId (flat_map ids (kidsArray (okids n)))) by tauto.
    assert (Hr : ~ In nodeId (flat_map ids rest)) by tauto.
    rewrite mapM_cons. simpl fst. simpl snd.
    rewrite updateObj_eq. apply String.eqb_neq in Hn. rewrite Hn.
    destruct n as [a i nm [| |ka cs] e h p]; simpl in *.
    + destruct (IHr s Hr) as (E & L). rewrite E. split; [reflexivity|lia].
    + destruct (IHr s Hr) as (E & L). rewrite E. split; [reflexivity|lia].
    + destruct (IHk (S (S s)) Hk) as (Ek & Lk).
      destruct (IHr (snd (mapM (updateNode nodeId updater) cs (S (S s)))) Hr)
        as (E & L).
      rewrite E, Ek. split; [reflexivity|lia].
Qed.

Lemma updateObj_off_path nodeId updater n s :
  ~ In nodeId (ids n) ->
  erase (fst (updateNode nodeId updater n s)) = erase n
  /\ (loaded n = false -> fst (updateNode nodeId updater n s) = n)
  /\ (loaded n = true -> self (fst (updateNode nodeId updater n s)) = s).
Proof.
  intros Hno. rewrite ids_eq in Hno. simpl in Hno.
  assert (Hn : oid n <> nodeId) by tauto.
  assert (Hk : ~ In nodeId (flat_map ids (kidsArray (okids n)))) by tauto.
  rewrite updateObj_eq. apply String.eqb_neq in Hn. rewrite Hn.
  destruct n as [a i nm [| |ka cs] e h p]; unfold loaded; simpl in *;
    try (repeat split; congruence).
  destruct (mapM_off_path nodeId updater cs (S (S s)) Hk) as (E & _).
  rewrite E. repeat split; congruence.
Qed.

(** The walk never gives an address back when the updater does not. *)
Lemma mapM_monotone nodeId updater (elems : list Obj) :
  monotone updater ->
  forall s, s <= snd (mapM (updateNode nodeId updater) elems s).
Proof.
  intros Hm.
  induction elems as [|n rest IHk IHr] using objs_ind; intros s.
  - simpl. lia.
  - rewrite mapM_cons. simpl snd.
    etransitivity; [|apply IHr].
    rewrite updateObj_eq. destruct (oid n =? nodeId); [apply Hm|].
    destruct n as [a i nm [| |ka cs] e h p]; simpl in *; try lia.
    specialize (IHk (S (S s))). lia.
Qed.

Lemma updateObj_monotone nodeId updater n s :
  monotone updater -> s <= snd (updateNode nodeId updater n s).
Proof.
  intros Hm. 
  pose proof (mapM_monotone nodeId updater [n] Hm s) as H.
  rewrite mapM_cons in H. simpl in H. exact H.
Qed.

(** The element at index [i] of the result of [.map] is the callback's
    result on the element at index [i], run at some later allocation
    state. *)
Lemma mapM_nth nodeId updater :
  monotone updater ->
  forall (elems : list Obj) i n s,
    nth_error elems i = Some n ->
    exists si,
      s <= si
      /\ nth_error (fst (mapM (updateNode nodeId updater) elems s)) i
         = Some (fst (updateNode nodeId updater n si)).
Proof.
  intros Hm. induction elems as [|x rest IH]; intros i n s Hi.
  - destruct i; discriminate.
  - rewrite mapM_cons. simpl fst. destruct i as [|i]; simpl in *.
    + inversion Hi; subst. exists s. split; [lia | reflexivity].
    + destruct (IH i n (snd (updateNode nodeId updater x s)) Hi)
        as (si & Hle & E).
      exists si. split; [|exact E].
      pose proof (updateObj_monotone nodeId updater x s Hm). lia.
Qed.

Lemma OffPath_nonempty nodeId elems p n :
  OffPath nodeId elems p n -> p <> [].
Proof. destruct 1; discriminate. Qed.

Lemma off_path_walk nodeId updater :
  monotone updater ->
  forall elems p n,
    OffPath nodeId elems p n ->
    forall s,
    exists n',
      obj_at p (fst (mapM (updateNode nodeId updater) elems s)) = Some n'
      /\ erase n' = erase n
      /\ (loaded n = false -> n' = n)
      /\ (loaded n = true -> s <= self n').
Proof.
  intros Hm elems p n H.
  induction H as [elems i n Hi Hno | elems i a arr cs q n Hi Ha Hk Hq IH];
    intros s.
  - destruct (mapM_nth nodeId updater Hm elems i _ s Hi) as (si & Hle & E).
    exists (fst (updateNode nodeId updater n si)).
    destruct (updateObj_off_path nodeId updater n si Hno) as (He & Hu & Hl).
    simpl. rewrite E. repeat split; auto.
    intros L. rewrite (Hl L). exact Hle.
  - destruct (mapM_nth nodeId updater Hm elems i _ s Hi) as (si & Hle & E).
    destruct (IH (S (S si))) as (n' & Hobj & He & Hu & Hl).
    exists n'. repeat split; auto.
    + simpl. rewrite E. rewrite updateObj_eq.
      apply String.eqb_neq in Ha. rewrite Ha, Hk. simpl.
      destruct q as [|j q]; [now apply OffPath_nonempty in Hq|].
      exact Hobj.
    + intros L. specialize (Hl L). lia.
Qed.

Lemma mapM_length nodeId updater (elems : list Obj) s :
  List.length (fst (mapM (updateNode nodeId updater) elems s))
  = List.length elems.
Proof.
  revert s. induction elems as [|x rest IH]; intros s; [reflexivity|].
  rewrite mapM_cons. simpl. now rewrite IH.
Qed.

Lemma Reached_nonempty nodeId elems p n :
  Reached nodeId elems p n -> p <> [].
Proof. destruct 1; discriminate. Qed.

(** At the position of a node the walk comes to, the result holds what the
    callback returns on that node, run at a later allocation state. *)
Lemma reached_walk nodeId updater :
  monotone updater ->
  forall elems p n,
    Reached nodeId elems p n ->
    forall s,
    exists si,
      s <= si
      /\ obj_at p (fst (mapM (updateNode nodeId updater) elems s))
         = Some (fst (updateNode nodeId updater n si)).
Proof.
  intros Hm elems p n H.
  induction H as [elems i n Hi | elems i a arr cs q n Hi Ha Hk Hq IH];
    intros s.
  - destruct (mapM_nth nodeId updater Hm elems i _ s Hi) as (si & Hle & E).
    exists si. split; [exact Hle|]. simpl. now rewrite E.
  - destruct (mapM_nth nodeId updater Hm elems i _ s Hi) as (si & Hle & E).
    destruct (IH (S (S si))) as (sj & Hlj & Hobj).
    exists sj. split; [lia|].
    simpl. rewrite E. rewrite updateObj_eq.
    apply String.eqb_neq in Ha. rewrite Ha, Hk. simpl.
    destruct q as [|j q]; [now apply Reached_nonempty in Hq|].
    exact Hobj.
Qed.

Lemma OffPath_Reached nodeId elems p n :
  OffPath nodeId elems p n -> Reached nodeId elems p n.
Proof.
  induction 1 as [elems i n Hi Hno | elems i a arr cs q n Hi Ha Hk Hq IH].
  - now apply reached_here.
  - eapply reached_below; eassumption.
Qed.

End IdentityFacts.

(** ** Descendant search and deep copy *)

Lemma hasDescendant_eq d n :
  hasDescendant d n
  = if id n =? d then true
    else findDescendant d (childrenArray (children n)).
Proof. destruct n as [i nm [| |cs] e h p]; reflexivity. Qed.

Lemma findDescendant_iff (tree : TreeData) d :
  findDescendant d tree = true <-> In d (tree_ids tree).
Proof.
  induction tree as [|n rest IHk IHr] using tree_ind.
  - simpl. split; [discriminate | tauto].
  - rewrite tree_ids_cons. simpl In. rewrite in_app_iff.
    unfold findDescendant in *. simpl. rewrite hasDescendant_eq.
    destruct (id n =? d) eqn:E.
    + apply String.eqb_eq in E. tauto.
    + apply String.eqb_neq in E. unfold findDescendant.
      destruct (anyLoop (hasDescendant d) (childrenArray (children n))).
      * tauto.
      * rewrite IHr. 
        assert (~ In d (tree_ids (childrenArray (children n))))
          by (rewrite <- IHk; discriminate).
        tauto.
Qed.

Lemma deepCopyOf_self n : deepCopyOf (id n) n = Some n.
Proof.
  destruct n as [i nm c e h p]. simpl. now rewrite String.eqb_refl.
Qed.

(** The node of a returned location is a node of the tree. *)
Lemma findLoop_in (tree : TreeData) s :
  forall par sib i loc,
    findLoop (findDescend s) s par sib tree i = Some loc ->
    In (node loc) (all_nodes tree).
Proof.
  induction tree as [|n rest IHk IHr] using tree_ind; intros par sib i loc.
  - discriminate.
  - rewrite findLoop_cons, all_nodes_cons. destruct (id n =? s).
    + intros H. inversion H; subst loc. now left.
    + rewrite findDescend_eq. intros H. right. apply in_or_app.
      destruct n as [i0 nm [| |cs] e h p]; simpl in *;
        try (right; exact (IHr _ _ _ _ H)).
      destruct (truthy_flag e); [|right; exact (IHr _ _ _ _ H)].
      destruct (findLoop (findDescend s) s _ cs cs 0) as [found|] eqn:F.
      * inversion H; subst found. left. exact (IHk _ _ _ _ F).
      * right. exact (IHr _ _ _ _ H).
Qed.

Lemma Exposed_in_all_nodes (tree : TreeData) n :
  Exposed tree n -> In n (all_nodes tree).
Proof.
  induction 1 as [n H | p cs n Hp IH Hc He Hn].
  - induction tree as [|m rest IHt]; [destruct H|].
    rewrite all_nodes_cons. destruct H as [->|H]; [now left|].
    right. apply in_or_app. right. now apply IHt.
  - apply (subtree_in_all_nodes _ _ IH). rewrite subtree_nodes_eq.
    right. unfold descendants. rewrite Hc. simpl.
    clear - Hn. induction cs as [|m rest IHt]; [destruct Hn|].
    rewrite all_nodes_cons. destruct Hn as [->|H]; [now left|].
    right. apply in_or_app. right. now apply IHt.
Qed.

Lemma truthy_Some s : s <> "" -> truthy (Some s) = true.
Proof. intros H. simpl. apply String.eqb_neq in H. now rewrite H. Qed.

(** Where the lookup reaches the dragged node, [isAncestor] sees every
    descendant of it. *)
Lemma isAncestor_exposed tree A D :
  NoDup (tree_ids tree) ->
  Exposed tree A ->
  In D (descendants A) ->
  id A <> "" ->
  isAncestor (id A) (id D) tree = true.
Proof.
  intros Hnd HA HD HidA.
  unfold isAncestor, findNodeAndLocation, findNodeAndLocation_from.
  rewrite (truthy_Some _ HidA).
  assert (Hs : isSome (findLoop (findDescend (id A)) (id A) None [] tree 0)
               = true).
  { apply findLoop_isSome. apply in_map. now apply Exposed_iff_shown. }
  destruct (findLoop (findDescend (id A)) (id A) None [] tree 0) as [loc|] eqn:F;
    [|discriminate].
  assert (Hloc : node loc = A).
  { apply (NoDup_map_injective _ _ id (all_nodes tree)); auto.
    - exact (findLoop_in _ _ _ _ _ _ F).
    - now apply Exposed_in_all_nodes.
    - exact (proj1 (findLoop_location _ _ _ _ _ _ F)). }
  rewrite Hloc. unfold descendants in HD.
  destruct (children A) as [| |cs]; simpl in HD; try contradiction.
  apply findDescendant_iff. now apply in_all_nodes_ids.
Qed.

(** The cycle guard of [handleDrop] where it works: a dragged node the
    lookup reaches is never dropped onto one of its descendants. *)
Lemma handleDrop_rejects_exposed_cycle tree A D dragged pos :
  NoDup (tree_ids tree) ->
  Exposed tree A ->
  In D (descendants A) ->
  id A <> "" -> id D <> "" ->
  drag_id dragged = id A ->
  handleDrop (mkState tree (Some dragged)) (Some (id D)) pos
  = mkState tree None.
Proof.
  intros Hnd HA HD HidA HidD Hd.
  unfold handleDrop. simpl. rewrite Hd.
  destruct (id A =? id D); [reflexivity|].
  f_equal. unfold dropUpdater. rewrite Hd.
  destruct (findNodeDeepCopy tree (id A)); [|reflexivity].
  rewrite (truthy_Some _ HidD), (isAncestor_exposed _ _ _ Hnd HA HD HidA).
  reflexivity.
Qed.

Lemma with_parentId_same n : with_parentId n (parentId n) = n.
Proof. now destruct n. Qed.

Lemma NoDup_middle_apart (A : Type) (l1 m l2 : list A) a :
  NoDup (l1 ++ m ++ l2) -> In a m -> ~ In a (l1 ++ l2).
Proof.
  intros Hnd Hm Hin. apply in_app_or in Hin. destruct Hin as [H1 | H2].
  - apply (NoDup_app_apart _ _ _ a Hnd H1). apply in_or_app. now left.
  - apply NoDup_app_remove_l in Hnd.
    exact (NoDup_app_apart _ _ _ a Hnd Hm H2).
Qed.

(** Locations are consistent below the roots: the siblings are the loaded
    children of the parent and hold the node at the index. For a root the
    index is right in the tree searched, and the siblings are empty. *)
Lemma findNodeAndLocation_location tree nodeId loc :
  findNodeAndLocation tree nodeId = Some loc ->
  match parent loc with
  | Some p => children p = Loaded (siblings loc)
              /\ nth_error (siblings loc) (index loc) = Some (node loc)
  | None => siblings loc = []
            /\ nth_error tree (index loc) = Some (node loc)
  end.
Proof.
  unfold findNodeAndLocation, findNodeAndLocation_from.
  destruct nodeId as [s|]; [|discriminate].
  destruct (truthy (Some s)); [|discriminate].
  intros H. destruct (findLoop_location _ _ _ _ _ _ H)
    as (_ & [(Hp & Hs & _ & Hn) | (p & Hp & Hc & Hn)]).
  - rewrite Hp. rewrite Nat.sub_0_r in Hn. auto.
  - rewrite Hp. auto.
Qed.

(** * The properties of the specification *)

(** C1. The claim asks that a drop of [A] onto one of its descendants [D]
    leaves the tree alone also when [A] lies under a collapsed ancestor.
    In [ [R[A[D]]] ] with [R] collapsed, [isAncestor] does not reach [A], the
    guard lets the move through, and the removal of [A] takes [D] with it:
    position [child] gives back [R] without children, positions [above] and
    [below] give back [A] alone as the whole tree. The drag cell is cleared
    every time. *)
Theorem drop_on_descendant_under_collapsed_ancestor :
  let dragged := mkDragItem "node-101" (Some "node-100") in
  let st := mkState ex_hidden (Some dragged) in
  NoDup (tree_ids ex_hidden)
  /\ In ex_D (descendants ex_hiddenA)
  /\ In ex_hiddenA (all_nodes ex_hidden)
  /\ isAncestor "node-101" "node-102" ex_hidden = false
  /\ handleDrop st (Some "node-102") child
     = mkState [mkNode "node-100" "R" (Loaded []) (Some false) (Some false)
                       None] None
  /\ handleDrop st (Some "node-102") above
     = mkState [with_parentId ex_hiddenA None] None
  /\ handleDrop st (Some "node-102") below
     = mkState [with_parentId ex_hiddenA None] None.
Proof.
  cbv zeta. repeat split; try reflexivity.
  - vm_compute. repeat constructor; simpl; intuition discriminate.
  - vm_compute. now left.
  - vm_compute. right. now left.
Qed.

(** C2. The claim asks that a drop onto an id the tree does not hold
    changes nothing. With the roots [[A; B]], [A] dragged and the target
    ["node-999"]: position [child] gives back the tree without [A],
    positions [above] and [below] give back [A] alone, [B] being lost. *)
Theorem drop_on_missing_target :
  let dragged := mkDragItem "node-100" None in
  let st := mkState ex_roots (Some dragged) in
  ~ In "node-999" (tree_ids ex_roots)
  /\ In "node-100" (tree_ids ex_roots)
  /\ handleDrop st (Some "node-999") child = mkState [ex_R2] None
  /\ handleDrop st (Some "node-999") above = mkState [ex_R1] None
  /\ handleDrop st (Some "node-999") below = mkState [ex_R1] None.
Proof.
  cbv zeta. repeat split; try reflexivity.
  - vm_compute. intuition discriminate.
  - vm_compute. now left.
Qed.

(** C3, as stated, fails: renaming the root [A] of [ [A, B[C]] ] leaves [B]
    off the path, and the [B] of the result is a new object. *)
Lemma update_locality_fails :
  ~ Identity.update_locality Identity.heap_tree "node-100"
      (Identity.rename "A2") 5.
Proof.
  intros H.
  destruct (H [1] Identity.heap_B) as (n' & Hat & Hself).
  - apply Identity.off_here; [reflexivity|].
    simpl. intuition discriminate.
  - vm_compute in Hat. inversion Hat; subst n'. discriminate.
Qed.

(** C3, amended. [updateNodeInTree(tree, id, f)] returns a new root array,
    and at the position of every node [n] the walk comes to (no proper
    ancestor carries the id) the result holds a node [n'] such that:
    - when [n] carries the id, [n'] is what [f] returns on [n]; the walk
      builds nothing for it and visits nothing below it, so whether [n'] is
      a new object and whether it keeps the children array is up to [f];
    - when [n] has another id and no loaded children array (absent, or
      unloaded), [n'] is the identical object;
    - when [n] has another id and a loaded children array, on the path to
      the target or off it, [n'] is a new object holding a new children
      array of the same length, the other fields being those of [n];
      both addresses lie above the allocation pointer [s] the call starts
      from, so they are none of the objects and arrays that existed before;
    - when the subtree of [n] does not hold the id (it lies off the path),
      [n'] is equal in value to [n].
    The updater may allocate, and does not free. *)
Theorem update_locality_amended
    (tree : Identity.Arr) (nodeId : string)
    (updater : Identity.Obj -> Identity.Alloc Identity.Obj)
    (s : Identity.addr) (p : list nat) (n : Identity.Obj) :
  Identity.monotone updater ->
  Identity.Reached nodeId (Identity.arr_elems tree) p n ->
  let result := fst (Identity.updateNodeInTree tree nodeId updater s) in
  Identity.arr_addr result = s
  /\ exists n',
      Identity.obj_at p (Identity.arr_elems result) = Some n'
      /\ (Identity.oid n = nodeId ->
          exists si, s < si /\ n' = fst (updater n si))
      /\ (Identity.oid n <> nodeId -> Identity.loaded n = false -> n' = n)
      /\ (Identity.oid n <> nodeId ->
          forall arr cs,
            Identity.okids n = Identity.KLoaded arr cs ->
            exists arr' cs',
              Identity.okids n' = Identity.KLoaded arr' cs'
              /\ List.length cs' = List.length cs
              /\ s < Identity.self n' /\ s < arr'
              /\ Identity.self n' <> arr'
              /\ (Identity.self n < s ->
                  Identity.self n' <> Identity.self n)
              /\ (arr < s -> arr' <> arr)
              /\ Identity.oid n' = Identity.oid n
              /\ Identity.oname n' = Identity.oname n
              /\ Identity.oexpanded n' = Identity.oexpanded n
              /\ Identity.ohasChildren n' = Identity.ohasChildren n
              /\ Identity.oparentId n' = Identity.oparentId n)
      /\ (~ In nodeId (Identity.ids n) ->
          Identity.erase n' = Identity.erase n).
Proof.
  intros Hm Hr result.
  destruct (IdentityFacts.reached_walk nodeId updater Hm _ _ _ Hr (S s))
    as (si & Hle & Hat).
  assert (Eres : result
                 = Identity.mkArr s
                     (fst (Identity.mapM (Identity.updateNode nodeId updater)
                             (Identity.arr_elems tree) (S s)))).
  { unfold result, Identity.updateNodeInTree, Identity.bind, Identity.fresh,
      Identity.ret.
    destruct (Identity.mapM (Identity.updateNode nodeId updater)
                (Identity.arr_elems tree) (S s)) as [elems s'].
    reflexivity. }
  rewrite Eres. simpl Identity.arr_addr. simpl Identity.arr_elems.
  split; [reflexivity|].
  exists (fst (Identity.updateNode nodeId updater n si)).
  split; [exact Hat|].
  split; [|split; [|split]].
  - intros Hid. exists si. split; [lia|].
    rewrite IdentityFacts.updateObj_eq.
    apply String.eqb_eq in Hid. now rewrite Hid.
  - intros Hid Hl. rewrite IdentityFacts.updateObj_eq.
    apply String.eqb_neq in Hid. rewrite Hid.
    unfold Identity.loaded in Hl.
    destruct (Identity.okids n); [reflexivity | reflexivity | discriminate].
  - intros Hid arr cs Hk. rewrite IdentityFacts.updateObj_eq.
    apply String.eqb_neq in Hid. rewrite Hid, Hk. cbv zeta.
    exists (S si),
      (fst (Identity.mapM (Identity.updateNode nodeId updater) cs
              (S (S si)))).
    simpl. rewrite IdentityFacts.mapM_length.
    repeat split; lia.
  - intros Hno.
    exact (proj1 (IdentityFacts.updateObj_off_path nodeId updater n si Hno)).
Qed.

Lemma update_locality_amended_witness :
  exists n' arr' cs',
    Identity.obj_at [1]
      (Identity.arr_elems
         (fst (Identity.updateNodeInTree Identity.heap_tree "node-102"
                 (Identity.rename "C2") 5)))
    = Some n'
    /\ Identity.okids n' = Identity.KLoaded arr' cs'
    /\ List.length cs' = 1
    /\ Identity.self n' <> Identity.self Identity.heap_B
    /\ arr' <> 3.
Proof.
  destruct (update_locality_amended Identity.heap_tree "node-102"
              (Identity.rename "C2") 5 [1] Identity.heap_B)
    as (_ & n' & Hat & _ & _ & Hnew & _).
  - intros n s. simpl. lia.
  - apply Identity.reached_here. reflexivity.
  - destruct (Hnew ltac:(discriminate) 3 [Identity.heap_C] eq_refl)
      as (arr' & cs' & Hk & Hlen & _ & _ & _ & Hs & Ha & _).
    exists n', arr', cs'.
    split; [exact Hat|]. split; [exact Hk|]. split; [exact Hlen|].
    split; [apply Hs; simpl; lia | apply Ha; lia].
Defined.

(** C4, as stated, fails: removing an id the tree does not hold rewrites the
    flag of a parent whose [hasChildren] disagrees with its loaded
    children. *)
Lemma removeNodeFromTree_absent_changes_flag :
  ~ In "node-999" (tree_ids ex_stale)
  /\ removeNodeFromTree ex_stale "node-999" <> ex_stale.
Proof.
  split.
  - vm_compute. intuition discriminate.
  - vm_compute. discriminate.
Qed.

(** C4, amended. For every tree and every id the tree does not hold,
    [removeNodeFromTree] returns the input with [hasChildren] recomputed, as
    (the array is not empty), on every node that has a loaded children
    array, and nothing else changed; when the flags agree with the arrays
    already, the result is equal to the input. *)
Theorem removeNodeFromTree_absent_id (tree : TreeData) (r : string) :
  ~ In r (tree_ids tree) ->
  removeNodeFromTree tree r = map normalizeNode tree
  /\ (flags_consistent tree -> removeNodeFromTree tree r = tree).
Proof.
  intros H. split; [now apply removeNodeFromTree_absent|].
  intros Hf. rewrite (removeNodeFromTree_absent _ _ H).
  now apply normalize_consistent.
Qed.

Lemma removeNodeFromTree_absent_id_witness :
  removeNodeFromTree ex_family "node-999" = map normalizeNode ex_family
  /\ (flags_consistent ex_family ->
      removeNodeFromTree ex_family "node-999" = ex_family).
Proof.
  apply (removeNodeFromTree_absent_id ex_family "node-999").
  vm_compute. intuition discriminate.
Defined.

(** C5. Removing a node [X] of a tree with unique ids removes [X] and every
    descendant of [X] (no node of the result carries one of their ids), the
    node count of the result is the node count of the input minus
    (1 + the number of descendants of [X]), and every node outside the
    subtree of [X] is still there. *)
Theorem removal_cascade (tree : TreeData) (X : ITreeNode) :
  NoDup (tree_ids tree) ->
  In X (all_nodes tree) ->
  let result := removeNodeFromTree tree (id X) in
  (forall Y, In Y (X :: descendants X) -> ~ In (id Y) (tree_ids result))
  /\ 1 + List.length (descendants X) <= List.length (all_nodes tree)
  /\ List.length (all_nodes result)
     = List.length (all_nodes tree) - (1 + List.length (descendants X))
  /\ (forall Y, In Y (all_nodes tree) -> ~ In Y (X :: descendants X) ->
                In (id Y) (tree_ids result)).
Proof.
  intros Hnd HX result. subst result.
  destruct (removeNodeFromTree_cut tree X Hnd HX) as (l1 & l2 & E1 & E2).
  rewrite <- subtree_nodes_eq.
  assert (Hlen : List.length (all_nodes tree)
                 = List.length l1 + (1 + List.length (descendants X))
                   + List.length l2).
  { transitivity (List.length (tree_ids tree)).
    - unfold tree_ids. now rewrite length_map.
    - rewrite E1, !length_app, length_map, subtree_nodes_eq. simpl. lia. }
  assert (Hlen' : List.length (all_nodes (removeNodeFromTree tree (id X)))
                  = List.length l1 + List.length l2).
  { transitivity (List.length (tree_ids (removeNodeFromTree tree (id X)))).
    - unfold tree_ids. now rewrite length_map.
    - now rewrite E2, length_app. }
  repeat split.
  - intros Y HY. rewrite E2. rewrite E1 in Hnd.
    apply (NoDup_middle_apart _ _ _ _ _ Hnd). now apply in_map.
  - lia.
  - lia.
  - intros Y HY HnY. rewrite E2.
    pose proof (in_all_nodes_ids _ _ HY) as Hid. rewrite E1 in Hid.
    rewrite !in_app_iff in Hid. rewrite in_app_iff.
    destruct Hid as [H | [H | H]]; [now left | | now right].
    exfalso. apply HnY. apply in_map_iff in H. destruct H as (Z & EZ & HZ).
    assert (Z = Y); [|now subst].
    apply (NoDup_map_injective _ _ id (all_nodes tree)); auto.
    exact (subtree_in_all_nodes _ _ HX _ HZ).
Qed.

Lemma removal_cascade_witness :
  NoDup (tree_ids ex_hidden)
  /\ In ex_hiddenA (all_nodes ex_hidden)
  /\ List.length (all_nodes (removeNodeFromTree ex_hidden "node-101"))
     = 3 - (1 + 1).
Proof.
  assert (Hnd : NoDup (tree_ids ex_hidden))
    by (vm_compute; repeat constructor; simpl; intuition discriminate).
  assert (HX : In ex_hiddenA (all_nodes ex_hidden))
    by (vm_compute; right; now left).
  split; [exact Hnd|]. split; [exact HX|].
  exact (proj1 (proj2 (proj2 (removal_cascade ex_hidden ex_hiddenA Hnd HX)))).
Defined.

(** C7, as stated, fails for the empty string: it is not [null], the root
    carrying it is reachable, and the lookup returns nothing, [!nodeId]
    being true of [""] as of [null]. *)
Lemma findNodeAndLocation_empty_id :
  (exists n, Exposed ex_unnamed n /\ id n = "")
  /\ findNodeAndLocation ex_unnamed (Some "") = None.
Proof.
  split; [|reflexivity].
  exists (newLeaf "" "A" None). split; [|reflexivity].
  apply exposed_root. now left.
Qed.

(** C7, amended. [findNodeAndLocation] returns no location for the target
    [null] and for the empty string. For any other id it returns a location
    exactly when a node with that id is reachable from a root through a
    chain of ancestors each of which is expanded and has loaded children;
    the location returned is that of a node with the id. Children of a
    node that is not expanded are not searched, loaded or not. *)
Theorem findNodeAndLocation_exposed (tree : TreeData) :
  findNodeAndLocation tree None = None
  /\ findNodeAndLocation tree (Some "") = None
  /\ forall s, s <> "" ->
       (isSome (findNodeAndLocation tree (Some s)) = true
        <-> exists n, Exposed tree n /\ id n = s)
       /\ (forall loc, findNodeAndLocation tree (Some s) = Some loc ->
                       id (node loc) = s).
Proof.
  split; [reflexivity|]. split; [reflexivity|].
  intros s Hs. unfold findNodeAndLocation, findNodeAndLocation_from.
  rewrite (truthy_Some _ Hs). split.
  - rewrite findLoop_isSome, in_map_iff. split.
    + intros (n & E & Hn). exists n. split; [|exact E].
      now apply Exposed_iff_shown.
    + intros (n & Hn & E). exists n. split; [exact E|].
      now apply Exposed_iff_shown.
  - intros loc H. exact (proj1 (findLoop_location _ _ _ _ _ _ H)).
Qed.

Lemma findNodeAndLocation_exposed_witness :
  (isSome (findNodeAndLocation ex_hidden (Some "node-102")) = true
   <-> exists n, Exposed ex_hidden n /\ id n = "node-102")
  /\ findNodeAndLocation ex_hidden (Some "node-102") = None.
Proof.
  split; [|reflexivity].
  apply (proj2 (proj2 (findNodeAndLocation_exposed ex_hidden)) "node-102").
  discriminate.
Defined.

(** C8. In the tree whose single root [A] is expanded and holds the loaded
    children [[B; C]], dragging [B] and dropping it on [C] with position
    [above] gives back the same tree: [B] is spliced in at the index [C]
    has once [B] is removed, so the children of [A] are [[B; C]] again. The
    tree is one of the data model: ids unique and not empty, [B] pointing
    to [A] as its parent, flags agreeing with the loaded arrays. *)
Theorem drop_above_next_sibling (A B C : ITreeNode) (dragged : DragItem) :
  children A = Loaded [B; C] ->
  isExpanded A = Some true ->
  hasChildren A = Some true ->
  parentId B = Some (id A) ->
  NoDup (tree_ids [A]) ->
  id A <> "" -> id C <> "" ->
  flags_consistent [C] ->
  drag_id dragged = id B ->
  handleDrop (mkState [A] (Some dragged)) (Some (id C)) above
  = mkState [A] None.
Proof.
  intros HcA HeA HhA HpB Hnd HidA HidC HfC Hd.
  destruct A as [ia na ca ea ha pa]. simpl in *. subst ca ea ha.
  (* what uniqueness of ids gives *)
  pose proof (NoDup_tree_ids_cons _ _ Hnd) as (HA & _ & Hkids & _ & _).
  simpl in HA, Hkids.
  pose proof (NoDup_tree_ids_cons _ _ Hkids) as (_ & HBC & HkB & HndC & HdBC).
  rewrite tree_ids_cons in HA. simpl in HA. rewrite in_app_iff in HA.
  rewrite tree_ids_cons in HA, HBC. simpl in HA, HBC.
  rewrite tree_ids_cons in HdBC.
  assert (HAB : ia <> id B) by (intros E; apply HA; left; now symmetry).
  assert (HAC : ia <> id C)
    by (intros E; apply HA; right; right; left; now symmetry).
  assert (HBC' : id B <> id C) by (intros E; apply HBC; left; now symmetry).
  assert (HCinB : ~ In (id C) (tree_ids (childrenArray (children B)))).
  { intros Hin. apply (HdBC _ Hin). now left. }
  assert (HBinC : ~ In (id B) (tree_ids [C])).
  { rewrite tree_ids_cons. exact HBC. }
  apply String.eqb_neq in HAB, HAC, HBC'.
  set (A := mkNode ia na (Loaded [B; C]) (Some true) (Some true) pa).
  set (A' := mkNode ia na (Loaded [C]) (Some true) (Some true) pa).
  (* step 1: the dragged node *)
  assert (Hcopy : findNodeDeepCopy [A] (id B) = Some B).
  { unfold findNodeDeepCopy. simpl. now rewrite HAB, deepCopyOf_self. }
  (* the cycle check *)
  assert (Hanc : isAncestor (id B) (id C) [A] = false).
  { unfold isAncestor, findNodeAndLocation, findNodeAndLocation_from.
    destruct (truthy (Some (id B))); [|reflexivity].
    simpl. rewrite HAB, String.eqb_refl. simpl.
    destruct (children B) as [| |cs] eqn:HcB; try reflexivity.
    simpl in HCinB.
    destruct (findDescendant (id C) cs) eqn:F; [|reflexivity].
    apply findDescendant_iff in F. contradiction. }
  (* step 2: removal *)
  assert (Hrem : removeNodeFromTree [A] (id B) = [A']).
  { unfold A. rewrite removeNodeFromTree_cons. simpl id. rewrite HAB.
    rewrite removeNode_eq. cbn [children id name isExpanded parentId].
    rewrite (removeNodeFromTree_cons B), String.eqb_refl.
    rewrite (removeNodeFromTree_absent _ _ HBinC).
    now rewrite (normalize_consistent _ HfC). }
  (* step 3: the target and its parent after the removal *)
  assert (Hfind : findNodeAndLocation [A'] (Some (id C))
                  = Some (mkLoc C (Some A') 0 [C])).
  { unfold findNodeAndLocation, findNodeAndLocation_from.
    rewrite (truthy_Some _ HidC). simpl. now rewrite HAC, String.eqb_refl. }
  unfold handleDrop. cbn [draggedItem treeData strict_eq].
  rewrite Hd, HBC'. f_equal.
  unfold dropUpdater. rewrite Hd, Hcopy, Hanc, andb_false_r, Hrem.
  unfold dropAsSibling. rewrite (truthy_Some _ HidC), Hfind.
  cbn [parent index option_map]. unfold or_null.
  change (id A') with ia. rewrite (truthy_Some _ HidA).
  cbv iota. rewrite (truthy_Some _ HidA).
  unfold splice, updateNodeInTree. simpl. rewrite String.eqb_refl.
  unfold install, A. simpl.
  rewrite <- HpB, with_parentId_same. reflexivity.
Qed.

Lemma drop_above_next_sibling_witness :
  handleDrop (mkState ex_family (Some (mkDragItem "node-101" (Some "node-100"))))
             (Some "node-102") above
  = mkState ex_family None.
Proof.
  apply (drop_above_next_sibling ex_A ex_B ex_C
           (mkDragItem "node-101" (Some "node-100")));
    try reflexivity; try discriminate.
  - vm_compute. repeat constructor; simpl; intuition discriminate.
  - vm_compute. repeat constructor; simpl; intros cs H; inversion H; reflexivity.
Defined.

(** C9. In the tree returned by [removeNodeFromTree], for an id the tree
    holds or not, every node whose children is a loaded array has
    [hasChildren] equal to (the array is not empty): all nodes with loaded
    children are recomputed, not only the ancestors of the removed node. *)
Theorem removeNodeFromTree_normalizes_flags
    (tree : TreeData) (r : string) (n : ITreeNode) (cs : list ITreeNode) :
  In n (all_nodes (removeNodeFromTree tree r)) ->
  children n = Loaded cs ->
  hasChildren n = Some (negb (Nat.eqb (List.length cs) 0)).
Proof.
  intros Hn Hc.
  pose proof (removeNodeFromTree_flags tree r) as Hf.
  unfold flags_consistent in Hf. rewrite Forall_forall in Hf.
  rewrite (Hf n Hn cs Hc). f_equal. now destruct cs.
Qed.

Lemma removeNodeFromTree_normalizes_flags_witness :
  hasChildren (mkNode "node-100" "A"
                      (Loaded [newLeaf "node-101" "B" (Some "node-100")])
                      (Some true) (Some true) None)
  = Some (negb (Nat.eqb (List.length [newLeaf "node-101" "B" (Some "node-100")])
                        0)).
Proof.
  apply (removeNodeFromTree_normalizes_flags ex_stale "node-999").
  - vm_compute. now left.
  - reflexivity.
Defined.

(** C10. The claim asks that [siblings[index]] be the found node, the
    siblings of a root being the root sequence. For a root the code returns
    the default [siblings = []] of the signature: in [ [A[B, C]] ] the
    location of [A] has index 0 and no siblings, while the location of [C],
    found by the recursive call, has the children of [A] as siblings. *)
Theorem findNodeAndLocation_root_siblings :
  findNodeAndLocation ex_family (Some "node-100")
  = Some (mkLoc ex_A None 0 [])
  /\ nth_error (@nil ITreeNode) 0 <> Some ex_A
  /\ nth_error ex_family 0 = Some ex_A
  /\ findNodeAndLocation ex_family (Some "node-102")
     = Some (mkLoc ex_C (Some ex_A) 1 [ex_B; ex_C]).
Proof.
  repeat split. discriminate.
Qed.

(** * Further properties of the code *)

(** ** Lists of nodes, ids and links *)

Lemma all_nodes_app (t1 t2 : TreeData) :
  all_nodes (t1 ++ t2) = all_nodes t1 ++ all_nodes t2.
Proof. apply flat_map_app. Qed.

Lemma tree_ids_app (t1 t2 : TreeData) :
  tree_ids (t1 ++ t2) = tree_ids t1 ++ tree_ids t2.
Proof. unfold tree_ids. now rewrite all_nodes_app, map_app. Qed.

Lemma tree_ids_single n :
  tree_ids [n] = id n :: tree_ids (childrenArray (children n)).
Proof. rewrite tree_ids_cons. simpl. now rewrite app_nil_r. Qed.

Lemma flags_consistent_app (t1 t2 : TreeData) :
  flags_consistent (t1 ++ t2) <-> flags_consistent t1 /\ flags_consistent t2.
Proof. unfold flags_consistent. rewrite all_nodes_app. apply Forall_app. Qed.

Lemma flags_consistent_in (tree : TreeData) X :
  flags_consistent tree -> In X (all_nodes tree) ->
  flag_ok X /\ flags_consistent (childrenArray (children X)).
Proof.
  intros Hf HX. unfold flags_consistent in *. rewrite Forall_forall in Hf.
  split; [now apply Hf|].
  apply Forall_forall. intros y Hy. apply Hf.
  apply (subtree_in_all_nodes _ _ HX). rewrite subtree_nodes_eq. now right.
Qed.

Lemma links_of_eq p n :
  links_of p n = (p, n) :: links (Some (id n)) (childrenArray (children n)).
Proof. destruct n as [i nm [| |cs] e h q]; reflexivity. Qed.

Lemma links_cons p n rest :
  links p (n :: rest)
  = (p, n) :: links (Some (id n)) (childrenArray (children n)) ++ links p rest.
Proof. unfold links at 1. simpl. now rewrite links_of_eq. Qed.

Lemma links_app p (t1 t2 : TreeData) :
  links p (t1 ++ t2) = links p t1 ++ links p t2.
Proof. apply flat_map_app. Qed.

Lemma parents_consistent_cons p n rest :
  parents_consistent p (n :: rest)
  <-> parentId n = p
      /\ parents_consistent (Some (id n)) (childrenArray (children n))
      /\ parents_consistent p rest.
Proof.
  unfold parents_consistent. rewrite links_cons. split.
  - intros H. inversion H as [|? ? Hn Hr]; subst.
    apply Forall_app in Hr. simpl in Hn. tauto.
  - intros (Hn & Hk & Hr). constructor; [exact Hn|].
    apply Forall_app. split; assumption.
Qed.

Lemma parents_consistent_app p (t1 t2 : TreeData) :
  parents_consistent p (t1 ++ t2)
  <-> parents_consistent p t1 /\ parents_consistent p t2.
Proof. unfold parents_consistent. rewrite links_app. apply Forall_app. Qed.

Lemma parents_consistent_nil p : parents_consistent p [].
Proof. constructor. Qed.

Lemma flags_consistent_nil : flags_consistent [].
Proof. constructor. Qed.

(** The children of any node of a consistent tree are consistent under its
    id. *)
Lemma parents_consistent_in (tree : TreeData) :
  forall p X,
    parents_consistent p tree -> In X (all_nodes tree) ->
    parents_consistent (Some (id X)) (childrenArray (children X)).
Proof.
  induction tree as [|n rest IHk IHr] using tree_ind; intros p X Hp HX.
  - destruct HX.
  - apply parents_consistent_cons in Hp. destruct Hp as (Hn & Hk & Hr).
    rewrite all_nodes_cons in HX. simpl in HX. rewrite in_app_iff in HX.
    destruct HX as [HX | [HX | HX]].
    + now subst X.
    + exact (IHk _ _ Hk HX).
    + exact (IHr _ _ Hr HX).
Qed.

(** ** [setParentIds] *)

Lemma setParentId_eq p n :
  setParentId p n
  = mkNode (id n) (name n)
           match children n with
           | Loaded cs => Loaded (setParentIds cs (Some (id n)))
           | c => c
           end
           (isExpanded n) (hasChildren n) p.
Proof. destruct n as [i nm [| |cs] e h q]; reflexivity. Qed.

Lemma setParentIds_cons n rest p :
  setParentIds (n :: rest) p = setParentId p n :: setParentIds rest p.
Proof. reflexivity. Qed.

Lemma setParentIds_consistent (tree : TreeData) :
  forall p, parents_consistent p (setParentIds tree p).
Proof.
  induction tree as [|n rest IHk IHr] using tree_ind; intros p.
  - constructor.
  - rewrite setParentIds_cons. apply parents_consistent_cons.
    rewrite setParentId_eq.
    destruct n as [i nm [| |cs] e h q]; simpl in *;
      repeat split; auto using parents_consistent_nil.
Qed.

Lemma setParentIds_fixed (tree : TreeData) :
  forall p, parents_consistent p tree -> setParentIds tree p = tree.
Proof.
  induction tree as [|n rest IHk IHr] using tree_ind; intros p Hp;
    [reflexivity|].
  apply parents_consistent_cons in Hp. destruct Hp as (Hn & Hk & Hr).
  rewrite setParentIds_cons, (IHr _ Hr). f_equal.
  rewrite setParentId_eq.
  destruct n as [i nm [| |cs] e h q]; simpl in *; subst q; try reflexivity.
  now rewrite (IHk _ Hk).
Qed.

Lemma setParentIds_ids (tree : TreeData) :
  forall p, tree_ids (setParentIds tree p) = tree_ids tree.
Proof.
  induction tree as [|n rest IHk IHr] using tree_ind; intros p; [reflexivity|].
  rewrite setParentIds_cons, !tree_ids_cons, IHr.
  rewrite setParentId_eq.
  destruct n as [i nm [| |cs] e h q]; simpl in *; try reflexivity.
  now rewrite IHk.
Qed.

Lemma setParentIds_flags (tree : TreeData) :
  forall p, flags_consistent tree -> flags_consistent (setParentIds tree p).
Proof.
  induction tree as [|n rest IHk IHr] using tree_ind; intros p Hf.
  - constructor.
  - apply flags_consistent_cons in Hf. destruct Hf as (Hn & Hk & Hr).
    rewrite setParentIds_cons. apply flags_consistent_cons.
    rewrite setParentId_eq.
    destruct n as [i nm [| |cs] e h q]; simpl in *.
    + split; [intros cs H; discriminate|]. split; [constructor | auto].
    + split; [intros cs H; discriminate|]. split; [constructor | auto].
    + split; [|split; auto].
      intros cs' H. simpl in H. inversion H; subst cs'.
      simpl. unfold setParentIds. rewrite length_map. exact (Hn cs eq_refl).
Qed.

Lemma setParentIds_again (tree : TreeData) :
  forall p q, setParentIds (setParentIds tree p) q = setParentIds tree q.
Proof.
  induction tree as [|n rest IHk IHr] using tree_ind; intros p q;
    [reflexivity|].
  rewrite !setParentIds_cons, IHr. f_equal.
  rewrite !setParentId_eq.
  destruct n as [i nm [| |cs] e h r]; simpl in *; try reflexivity.
  now rewrite IHk.
Qed.

(** ** [generateId] *)

Lemma numberToString_injective a b :
  numberToString a = numberToString b -> a = b.
Proof.
  unfold numberToString. intros H.
  apply (f_equal NilEmpty.uint_of_string) in H.
  rewrite !NilEmpty.usu in H. inversion H as [E].
  apply (f_equal N.of_uint) in E.
  now rewrite !DecimalN.Unsigned.of_to in E.
Qed.

Lemma generateId_injective a b :
  fst (generateId a) = fst (generateId b) -> a = b.
Proof.
  unfold generateId. simpl. intros H. inversion H.
  now apply numberToString_injective.
Qed.

Lemma generateId_truthy k : truthy (Some (fst (generateId k))) = true.
Proof. reflexivity. Qed.

(** ** [updateNodeInTree] in general *)

Lemma in_all_nodes_head n rest : In n (all_nodes (n :: rest)).
Proof. rewrite all_nodes_cons. now left. Qed.

Lemma in_all_nodes_kids n rest m :
  In m (all_nodes (childrenArray (children n))) -> In m (all_nodes (n :: rest)).
Proof. intros H. rewrite all_nodes_cons. right. apply in_or_app. now left. Qed.

Lemma in_all_nodes_rest n rest m :
  In m (all_nodes rest) -> In m (all_nodes (n :: rest)).
Proof. intros H. rewrite all_nodes_cons. right. apply in_or_app. now right. Qed.

Lemma updateNodeInTree_cons n rest i f :
  updateNodeInTree (n :: rest) i f
  = updateNode i f n :: updateNodeInTree rest i f.
Proof. reflexivity. Qed.

(** Only what the updater does to the nodes of the tree that carry the id
    matters. *)
Lemma updateNodeInTree_ext (tree : TreeData) i f g :
  (forall n, In n (all_nodes tree) -> id n = i -> f n = g n) ->
  updateNodeInTree tree i f = updateNodeInTree tree i g.
Proof.
  induction tree as [|n rest IHk IHr] using tree_ind; intros H; [reflexivity|].
  rewrite !updateNodeInTree_cons, !updateNode_eq.
  rewrite IHr by (intros m Hm; apply H; now apply in_all_nodes_rest).
  assert (Hk := IHk (fun m Hm => H m (in_all_nodes_kids n rest m Hm))).
  f_equal. destruct (id n =? i) eqn:E.
  - apply String.eqb_eq in E. apply H; [apply in_all_nodes_head | exact E].
  - destruct n as [j nm [| |cs] e h q]; simpl in *; try reflexivity.
    now rewrite Hk.
Qed.

Lemma updateNodeInTree_identity (tree : TreeData) i :
  updateNodeInTree tree i (fun n => n) = tree.
Proof.
  induction tree as [|n rest IHk IHr] using tree_ind; [reflexivity|].
  rewrite updateNodeInTree_cons, updateNode_eq, IHr. f_equal.
  destruct (id n =? i); [reflexivity|].
  destruct n as [j nm [| |cs] e h q]; simpl in *; try reflexivity.
  now rewrite IHk.
Qed.

Lemma updateNodeInTree_fixed (tree : TreeData) i f :
  (forall n, In n (all_nodes tree) -> id n = i -> f n = n) ->
  updateNodeInTree tree i f = tree.
Proof.
  intros H. rewrite (updateNodeInTree_ext tree i f (fun n => n) H).
  apply updateNodeInTree_identity.
Qed.

(** Two updates of the same id in a row are one update by the composed
    updater, when the first keeps the id. *)
Lemma updateNodeInTree_compose (tree : TreeData) i f g :
  (forall n, id n = i -> id (f n) = i) ->
  updateNodeInTree (updateNodeInTree tree i f) i g
  = updateNodeInTree tree i (fun n => g (f n)).
Proof.
  intros Hf.
  induction tree as [|n rest IHk IHr] using tree_ind; [reflexivity|].
  rewrite !updateNodeInTree_cons, IHr. f_equal.
  rewrite (updateNode_eq i f n), (updateNode_eq i (fun n => g (f n)) n).
  destruct (id n =? i) eqn:E.
  - rewrite updateNode_eq.
    apply String.eqb_eq in E. rewrite (Hf n E), String.eqb_refl. reflexivity.
  - destruct n as [j nm [| |cs] e h q]; simpl in *; rewrite E;
      try reflexivity.
    f_equal. f_equal. exact IHk.
Qed.

(** An updater that keeps the ids of the subtree it is given keeps the ids
    of the tree. *)
Lemma updateNodeInTree_ids (tree : TreeData) i f :
  (forall n, In n (all_nodes tree) -> id n = i ->
             tree_ids [f n] = tree_ids [n]) ->
  tree_ids (updateNodeInTree tree i f) = tree_ids tree.
Proof.
  induction tree as [|n rest IHk IHr] using tree_ind; intros H; [reflexivity|].
  rewrite updateNodeInTree_cons.
  change (updateNode i f n :: updateNodeInTree rest i f)
    with ([updateNode i f n] ++ updateNodeInTree rest i f).
  change (n :: rest) with ([n] ++ rest).
  rewrite !tree_ids_app.
  rewrite IHr by (intros m Hm; apply H; now apply in_all_nodes_rest).
  assert (Hk := IHk (fun m Hm => H m (in_all_nodes_kids n rest m Hm))).
  f_equal. rewrite updateNode_eq. destruct (id n =? i) eqn:E.
  - apply String.eqb_eq in E. apply H; [apply in_all_nodes_head | exact E].
  - destruct n as [j nm [| |cs] e h q]; simpl in *; try reflexivity.
    rewrite !tree_ids_single. simpl. now rewrite Hk.
Qed.

(** With unique ids, an update rewrites the ids of the subtree of the one
    node that carries the id, in place. *)
Lemma updateNodeInTree_splice_ids (tree : TreeData) f P :
  NoDup (tree_ids tree) ->
  In P (all_nodes tree) ->
  exists l1 l2,
    tree_ids tree = l1 ++ tree_ids [P] ++ l2
    /\ tree_ids (updateNodeInTree tree (id P) f) = l1 ++ tree_ids [f P] ++ l2.
Proof.
  induction tree as [|n rest IHk IHr] using tree_ind; intros Hnd HP.
  - destruct HP.
  - pose proof (NoDup_tree_ids_cons _ _ Hnd) as (Hnk & Hnr & Hk & Hr & Hdisj).
    rewrite all_nodes_cons in HP. simpl in HP. rewrite in_app_iff in HP.
    rewrite updateNodeInTree_cons.
    change (updateNode (id P) f n :: updateNodeInTree rest (id P) f)
      with ([updateNode (id P) f n] ++ updateNodeInTree rest (id P) f).
    rewrite (tree_ids_app [_]), updateNode_eq.
    destruct HP as [HP | [HP | HP]].
    + subst P. rewrite String.eqb_refl.
      rewrite (updateNodeInTree_absent rest (id n) f Hnr).
      exists [], (tree_ids rest). split; [|reflexivity].
      simpl. change (n :: rest) with ([n] ++ rest). apply tree_ids_app.
    + assert (Hne : id n <> id P).
      { intros E. apply Hnk. rewrite E. now apply in_all_nodes_ids. }
      apply String.eqb_neq in Hne. rewrite Hne.
      destruct (IHk Hk HP) as (l1 & l2 & E1 & E2).
      assert (HPr : ~ In (id P) (tree_ids rest)).
      { apply Hdisj. now apply in_all_nodes_ids. }
      rewrite (updateNodeInTree_absent rest (id P) f HPr).
      exists (id n :: l1), (l2 ++ tree_ids rest). split.
      * rewrite tree_ids_cons, E1. simpl. now rewrite <- !app_assoc.
      * destruct n as [j nm [| |cs] e h q];
          try (simpl in HP; contradiction).
        cbn [children childrenArray id name isExpanded hasChildren parentId]
          in *.
        rewrite tree_ids_single.
        cbn [children childrenArray id]. rewrite E2. simpl.
        now rewrite <- !app_assoc.
    + assert (Hne : id n <> id P).
      { intros E. apply Hnr. rewrite E. now apply in_all_nodes_ids. }
      apply String.eqb_neq in Hne. rewrite Hne.
      destruct (IHr Hr HP) as (l1 & l2 & E1 & E2).
      assert (HPk : ~ In (id P) (tree_ids (childrenArray (children n)))).
      { intros Hin. apply (Hdisj _ Hin). now apply in_all_nodes_ids. }
      exists (id n :: tree_ids (childrenArray (children n)) ++ l1), l2. split.
      * rewrite tree_ids_cons, E1. simpl. now rewrite <- !app_assoc.
      * rewrite E2, tree_ids_single.
        destruct n as [j nm [| |cs] e h q];
          cbn [children childrenArray id name isExpanded hasChildren parentId]
            in *;
          try (simpl; now rewrite <- ?app_assoc).
        rewrite (updateNodeInTree_absent cs (id P) f HPk). simpl.
        now rewrite <- !app_assoc.
Qed.

Lemma updateNodeInTree_flags (tree : TreeData) i f :
  flags_consistent tree ->
  (forall n, In n (all_nodes tree) -> id n = i -> flags_consistent [f n]) ->
  flags_consistent (updateNodeInTree tree i f).
Proof.
  induction tree as [|n rest IHk IHr] using tree_ind; intros Hf H.
  - constructor.
  - apply flags_consistent_cons in Hf. destruct Hf as (Hn & Hk & Hr).
    rewrite updateNodeInTree_cons.
    change (updateNode i f n :: updateNodeInTree rest i f)
      with ([updateNode i f n] ++ updateNodeInTree rest i f).
    apply flags_consistent_app. split.
    2: { apply IHr; [exact Hr|].
         intros m Hm. apply H. now apply in_all_nodes_rest. }
    assert (Hk' := IHk Hk (fun m Hm => H m (in_all_nodes_kids n rest m Hm))).
    rewrite updateNode_eq. destruct (id n =? i) eqn:E.
    + apply String.eqb_eq in E. apply H; [apply in_all_nodes_head | exact E].
    + apply flags_consistent_cons.
      destruct n as [j nm [| |cs] e h q]; simpl in *.
      * split; [exact Hn|]. split; constructor.
      * split; [exact Hn|]. split; constructor.
      * split.
        -- intros cs' Hc. simpl in Hc. inversion Hc; subst cs'. simpl.
           unfold updateNodeInTree. rewrite length_map. exact (Hn cs eq_refl).
        -- split; [exact Hk' | constructor].
Qed.

Lemma updateNodeInTree_parents (tree : TreeData) i f :
  forall p,
    parents_consistent p tree ->
    (forall n, In n (all_nodes tree) -> id n = i ->
               parents_consistent (parentId n) [f n]) ->
    parents_consistent p (updateNodeInTree tree i f).
Proof.
  induction tree as [|n rest IHk IHr] using tree_ind; intros p Hp H.
  - constructor.
  - apply parents_consistent_cons in Hp. destruct Hp as (Hn & Hk & Hr).
    rewrite updateNodeInTree_cons.
    change (updateNode i f n :: updateNodeInTree rest i f)
      with ([updateNode i f n] ++ updateNodeInTree rest i f).
    apply parents_consistent_app. split.
    2: { apply IHr; [exact Hr|].
         intros m Hm. apply H. now apply in_all_nodes_rest. }
    assert (Hk' := IHk _ Hk (fun m Hm => H m (in_all_nodes_kids n rest m Hm))).
    rewrite updateNode_eq. destruct (id n =? i) eqn:E.
    + apply String.eqb_eq in E. rewrite <- Hn.
      apply H; [apply in_all_nodes_head | exact E].
    + apply parents_consistent_cons.
      destruct n as [j nm [| |cs] e h q]; simpl in *.
      * split; [exact Hn|]. split; constructor.
      * split; [exact Hn|]. split; constructor.
      * split; [exact Hn|]. split; [exact Hk' | constructor].
Qed.

(** ** [removeNodeFromTree] in general *)

Lemma removeNodeFromTree_gone (tree : TreeData) r :
  ~ In r (tree_ids (removeNodeFromTree tree r)).
Proof.
  induction tree as [|n rest IHk IHr] using tree_ind; [intros []|].
  rewrite removeNodeFromTree_cons. destruct (id n =? r) eqn:E; [exact IHr|].
  apply String.eqb_neq in E.
  rewrite tree_ids_cons, removeNode_eq. simpl. rewrite in_app_iff.
  destruct n as [j nm [| |cs] e h q]; simpl in *; tauto.
Qed.

Lemma removeNodeFromTree_ids_incl (tree : TreeData) r :
  incl (tree_ids (removeNodeFromTree tree r)) (tree_ids tree).
Proof.
  induction tree as [|n rest IHk IHr] using tree_ind; [intros x []|].
  rewrite removeNodeFromTree_cons, (tree_ids_cons n rest).
  destruct (id n =? r).
  - intros x Hx. right. apply in_or_app. right. now apply IHr.
  - rewrite tree_ids_cons, removeNode_eq. intros x Hx. simpl in Hx.
    rewrite in_app_iff in Hx. simpl. rewrite in_app_iff.
    destruct n as [j nm [| |cs] e h q]; simpl in *;
      destruct Hx as [Hx | [Hx | Hx]]; auto.
Qed.

Lemma removeNodeFromTree_NoDup (tree : TreeData) r :
  NoDup (tree_ids tree) -> NoDup (tree_ids (removeNodeFromTree tree r)).
Proof.
  induction tree as [|n rest IHk IHr] using tree_ind; intros Hnd.
  - constructor.
  - pose proof (NoDup_tree_ids_cons _ _ Hnd) as (Hnk & Hnr & Hk & Hr & Hdisj).
    rewrite removeNodeFromTree_cons. destruct (id n =? r); [now apply IHr|].
    rewrite tree_ids_cons, removeNode_eq.
    assert (Hrest := removeNodeFromTree_ids_incl rest r).
    destruct n as [j nm [| |cs] e h q]; simpl in *.
    + constructor; [|now apply IHr]. intros Hin. apply Hnr. now apply Hrest.
    + constructor; [|now apply IHr]. intros Hin. apply Hnr. now apply Hrest.
    + assert (Hcs := removeNodeFromTree_ids_incl cs r).
      constructor.
      * rewrite in_app_iff. intros [Hin | Hin]; [apply Hnk | apply Hnr]; auto.
      * apply NoDup_app; auto.
        intros x Hx Hx'. apply (Hdisj x); auto.
Qed.

Lemma removeNodeFromTree_parents (tree : TreeData) r :
  forall p, parents_consistent p tree ->
            parents_consistent p (removeNodeFromTree tree r).
Proof.
  induction tree as [|n rest IHk IHr] using tree_ind; intros p Hp.
  - constructor.
  - apply parents_consistent_cons in Hp. destruct Hp as (Hn & Hk & Hr).
    rewrite removeNodeFromTree_cons. destruct (id n =? r); [now apply IHr|].
    apply parents_consistent_cons. rewrite removeNode_eq.
    destruct n as [j nm [| |cs] e h q]; simpl in *; auto.
Qed.

(** ** [findNodeDeepCopy] *)

Lemma deepCopyOf_eq i n :
  deepCopyOf i n
  = if id n =? i then Some n
    else findNodeDeepCopy (childrenArray (children n)) i.
Proof. destruct n as [j nm [| |cs] e h q]; reflexivity. Qed.

Lemma findNodeDeepCopy_cons n rest i :
  findNodeDeepCopy (n :: rest) i
  = match deepCopyOf i n with
    | Some found => Some found
    | None => findNodeDeepCopy rest i
    end.
Proof. reflexivity. Qed.

Lemma findNodeDeepCopy_Some (tree : TreeData) i X :
  findNodeDeepCopy tree i = Some X -> In X (all_nodes tree) /\ id X = i.
Proof.
  induction tree as [|n rest IHk IHr] using tree_ind; [discriminate|].
  rewrite findNodeDeepCopy_cons, deepCopyOf_eq, all_nodes_cons.
  destruct (id n =? i) eqn:E.
  - intros H. inversion H; subst X. apply String.eqb_eq in E.
    split; [now left | exact E].
  - destruct (findNodeDeepCopy (childrenArray (children n)) i) eqn:F.
    + intros H. inversion H; subst i0. destruct (IHk eq_refl) as (Hin & Hid).
      split; [|exact Hid]. right. apply in_or_app. now left.
    + intros H. destruct (IHr H) as (Hin & Hid).
      split; [|exact Hid]. right. apply in_or_app. now right.
Qed.

Lemma findNodeDeepCopy_None (tree : TreeData) i :
  findNodeDeepCopy tree i = None <-> ~ In i (tree_ids tree).
Proof.
  induction tree as [|n rest IHk IHr] using tree_ind.
  - simpl. split; [intros _ [] | reflexivity].
  - rewrite findNodeDeepCopy_cons, deepCopyOf_eq, tree_ids_cons.
    simpl In. rewrite in_app_iff.
    destruct (id n =? i) eqn:E.
    + apply String.eqb_eq in E. split; [discriminate | tauto].
    + apply String.eqb_neq in E.
      destruct (findNodeDeepCopy (childrenArray (children n)) i) eqn:F.
      * split; [discriminate|]. intros H. exfalso.
        assert (Hin : In i (tree_ids (childrenArray (children n)))).
        { destruct (findNodeDeepCopy_Some _ _ _ F) as (Hin & Hid).
          rewrite <- Hid. now apply in_all_nodes_ids. }
        tauto.
      * rewrite IHr. destruct IHk as [IHk _]. specialize (IHk eq_refl). tauto.
Qed.

(** ** The parent of a returned location *)

Lemma findLoop_parent (tree : TreeData) s :
  forall par sib i loc,
    findLoop (findDescend s) s par sib tree i = Some loc ->
    parent loc = par
    \/ exists p, parent loc = Some p /\ In p (all_nodes tree)
                 /\ truthy_flag (isExpanded p) = true.
Proof.
  induction tree as [|n rest IHk IHr] using tree_ind; intros par sib i loc.
  - discriminate.
  - rewrite findLoop_cons, all_nodes_cons. destruct (id n =? s).
    + intros H. inversion H; subst loc. now left.
    + rewrite findDescend_eq.
      assert (Hrest : findLoop (findDescend s) s par sib rest (S i) = Some loc ->
                parent loc = par
                \/ exists p, parent loc = Some p
                     /\ In p (n :: descendants n ++ all_nodes rest)
                     /\ truthy_flag (isExpanded p) = true).
      { intros H. destruct (IHr _ _ _ _ H) as [Hp | (p & Hp & Hin & He)];
          [now left|].
        right. exists p. split; [exact Hp|]. split; [|exact He].
        right. apply in_or_app. now right. }
      destruct n as [j nm [| |cs] e h q]; simpl in *; try exact Hrest.
      destruct (truthy_flag e) eqn:He; [|exact Hrest].
      destruct (findLoop (findDescend s) s _ cs cs 0) as [found|] eqn:F;
        [|exact Hrest].
      intros H. inversion H; subst found. right.
      destruct (IHk _ _ _ _ F) as [Hp | (p & Hp & Hin & Hep)].
      * exists (mkNode j nm (Loaded cs) e h q). split; [exact Hp|].
        split; [now left | exact He].
      * exists p. split; [exact Hp|]. split; [|exact Hep].
        right. apply in_or_app. now left.
Qed.

(** ** Properties of the initial data and of the id supply *)

(** X1. [setParentIds(nodes, p)] makes every tree parent-consistent: the
    nodes of the sequence get [parentId = p] and every node below gets the
    id of the node that holds it. The ids, their order and the flags stay
    as they are. *)
Theorem setParentIds_establishes_parents (tree : TreeData) (p : option string) :
  parents_consistent p (setParentIds tree p)
  /\ tree_ids (setParentIds tree p) = tree_ids tree
  /\ List.length (setParentIds tree p) = List.length tree
  /\ (flags_consistent tree -> flags_consistent (setParentIds tree p)).
Proof.
  split; [apply setParentIds_consistent|].
  split; [apply setParentIds_ids|].
  split; [apply length_map | apply setParentIds_flags].
Qed.

Lemma setParentIds_establishes_parents_witness :
  parents_consistent None (setParentIds (fst rawInitialTreeData) None)
  /\ flags_consistent (setParentIds (fst rawInitialTreeData) None).
Proof.
  destruct (setParentIds_establishes_parents (fst rawInitialTreeData) None)
    as (Hp & _ & _ & Hf).
  split; [exact Hp|]. apply Hf.
  vm_compute. repeat constructor; simpl; intros cs H; inversion H; reflexivity.
Defined.

(** X2. [setParentIds] changes nothing but [parentId]: a tree that is
    parent-consistent under [p] is returned as it is, and a second pass
    overwrites the first, so that the function is idempotent. *)
Theorem setParentIds_idempotent (tree : TreeData) (p q : option string) :
  (parents_consistent p tree -> setParentIds tree p = tree)
  /\ setParentIds (setParentIds tree q) p = setParentIds tree p.
Proof.
  split; [apply setParentIds_fixed | apply setParentIds_again].
Qed.

Lemma setParentIds_idempotent_witness :
  setParentIds ex_family None = ex_family.
Proof.
  apply (proj1 (setParentIds_idempotent ex_family None None)).
  vm_compute. repeat constructor.
Defined.

(** X3. [generateId] hands out a different id at every value of the
    counter, never the empty string (so every generated id passes the
    truthiness tests of [findNodeAndLocation] and [handleDrop]), and moves
    the counter up by one as long as it is below [2^53]; at [2^53] the
    counter stays, and the same id comes again. *)
Theorem generateId_fresh (a b : N) :
  (fst (generateId a) = fst (generateId b) -> a = b)
  /\ truthy (Some (fst (generateId a))) = true
  /\ ((a < 2 ^ 53)%N -> snd (generateId a) = (a + 1)%N)
  /\ generateId (snd (generateId (2 ^ 53))) = generateId (2 ^ 53).
Proof.
  split; [apply generateId_injective|]. split; [reflexivity|].
  split; [|reflexivity].
  intros H. unfold generateId, increment. cbn [snd].
  apply N.ltb_lt in H. now rewrite H.
Qed.

Lemma generateId_fresh_witness :
  snd (generateId 100) = 101%N /\ fst (generateId 100) = "node-100".
Proof.
  split; [|reflexivity].
  apply (proj1 (proj2 (proj2 (generateId_fresh 100 100)))).
  reflexivity.
Defined.

(** ** Properties of removal *)

(** X4. After [removeNodeFromTree(tree, r)] no node carries [r], at any
    depth and whatever the expansion state, in every tree (also one with
    the id at several places). Removal brings no id in, keeps ids unique
    and keeps the tree parent-consistent. *)
Theorem removeNodeFromTree_clears_id (tree : TreeData) (r : string) :
  ~ In r (tree_ids (removeNodeFromTree tree r))
  /\ incl (tree_ids (removeNodeFromTree tree r)) (tree_ids tree)
  /\ (NoDup (tree_ids tree) -> NoDup (tree_ids (removeNodeFromTree tree r)))
  /\ (forall p, parents_consistent p tree ->
                parents_consistent p (removeNodeFromTree tree r)).
Proof.
  split; [apply removeNodeFromTree_gone|].
  split; [apply removeNodeFromTree_ids_incl|].
  split; [apply removeNodeFromTree_NoDup|].
  intros p. apply removeNodeFromTree_parents.
Qed.

Lemma removeNodeFromTree_clears_id_witness :
  NoDup (tree_ids (removeNodeFromTree ex_hidden "node-101"))
  /\ parents_consistent None (removeNodeFromTree ex_hidden "node-101").
Proof.
  destruct (removeNodeFromTree_clears_id ex_hidden "node-101")
    as (_ & _ & Hnd & Hp).
  split.
  - apply Hnd. vm_compute. repeat constructor; simpl; intuition discriminate.
  - apply Hp. vm_compute. repeat constructor.
Defined.

(** X5. Removing the same id twice is removing it once. *)
Theorem removeNodeFromTree_idempotent (tree : TreeData) (r : string) :
  removeNodeFromTree (removeNodeFromTree tree r) r = removeNodeFromTree tree r.
Proof.
  rewrite (removeNodeFromTree_absent _ _ (removeNodeFromTree_gone tree r)).
  apply normalize_consistent, removeNodeFromTree_flags.
Qed.

(** ** Properties of renaming and of expanding *)

(** X6. [handleEditNodeName] keeps the ids and their order, leaves a tree
    that does not hold the id as it is, and the last of two renamings of a
    node wins. *)
Theorem handleEditNodeName_effect (tree : TreeData) (i a b : string) :
  tree_ids (handleEditNodeName tree i a) = tree_ids tree
  /\ (~ In i (tree_ids tree) -> handleEditNodeName tree i a = tree)
  /\ handleEditNodeName (handleEditNodeName tree i a) i b
     = handleEditNodeName tree i b.
Proof.
  unfold handleEditNodeName. split; [|split].
  - apply updateNodeInTree_ids. intros n _ _. now rewrite !tree_ids_single.
  - apply updateNodeInTree_absent.
  - rewrite updateNodeInTree_compose by (intros n H; exact H).
    apply updateNodeInTree_ext. reflexivity.
Qed.

Lemma handleEditNodeName_effect_witness :
  handleEditNodeName ex_family "node-999" "Z" = ex_family.
Proof.
  apply (proj1 (proj2 (handleEditNodeName_effect ex_family "node-999"
                         "Z" "Z"))).
  vm_compute. intuition discriminate.
Defined.

(** X7. Renaming changes the name of the node with the id and nothing
    else: in a tree with unique ids, the node is replaced by itself under
    the new name, and renaming it back to its old name gives back the tree
    of the start. *)
Theorem handleEditNodeName_round_trip
    (tree : TreeData) (P : ITreeNode) (newName : string) :
  NoDup (tree_ids tree) ->
  In P (all_nodes tree) ->
  In (with_name newName P)
     (all_nodes (handleEditNodeName tree (id P) newName))
  /\ handleEditNodeName (handleEditNodeName tree (id P) newName) (id P)
                        (name P)
     = tree.
Proof.
  intros Hnd HP. unfold handleEditNodeName. split.
  - exact (updateNodeInTree_target tree (with_name newName) P Hnd HP).
  - rewrite updateNodeInTree_compose by (intros n H; exact H).
    apply updateNodeInTree_fixed. intros n Hn Hid.
    assert (n = P) by
      (apply (NoDup_map_injective _ _ id (all_nodes tree)); auto).
    subst n. now destruct P.
Qed.

Lemma handleEditNodeName_round_trip_witness :
  handleEditNodeName (handleEditNodeName ex_family "node-101" "Z")
                     "node-101" "B"
  = ex_family.
Proof.
  refine (proj2 (handleEditNodeName_round_trip ex_family ex_B "Z" _ _)).
  - vm_compute. repeat constructor; simpl; intuition discriminate.
  - vm_compute. right. now left.
Defined.

(** X8. Expanding and collapsing is a round trip: in a tree with unique
    ids, toggling a node whose [isExpanded] is the boolean [b], and
    toggling it again from [!b], gives back the tree of the start. *)
Theorem toggleExpand_round_trip (tree : TreeData) (P : ITreeNode) (b : bool) :
  NoDup (tree_ids tree) ->
  In P (all_nodes tree) ->
  isExpanded P = Some b ->
  toggleExpand (toggleExpand tree (id P) b) (id P) (negb b) = tree.
Proof.
  intros Hnd HP Hb. unfold toggleExpand.
  rewrite updateNodeInTree_compose by (intros n H; exact H).
  apply updateNodeInTree_fixed. intros n Hn Hid.
  assert (n = P) by
    (apply (NoDup_map_injective _ _ id (all_nodes tree)); auto).
  subst n. destruct P; simpl in *. subst. unfold flipExpanded. simpl.
  now rewrite negb_involutive.
Qed.

Lemma toggleExpand_round_trip_witness :
  toggleExpand (toggleExpand ex_family "node-100" true) "node-100" false
  = ex_family.
Proof.
  apply (toggleExpand_round_trip ex_family ex_A true).
  - vm_compute. repeat constructor; simpl; intuition discriminate.
  - vm_compute. now left.
  - reflexivity.
Defined.

(** ** Properties of the lazy load *)

(** X9. The two steps of [handleToggleExpand] on a collapsed node [P] whose
    children are not loaded, in a tree with unique ids. The toggle of [P] is
    on screen, as a chevron right, exactly when [hasChildren] (as [TreeNode]
    computes it) is true. The loader is called; after the first step [P]
    stands expanded and loading, and its toggle is the spinner when
    [hasChildren] is true, while no toggle and no spinner is rendered when
    it is false. After the second step [P] holds the children the loader
    gave and is still expanded, it is no longer loading, and the toggle is
    shown, as a chevron down, exactly when children came. *)
Theorem lazy_load_protocol
    (tree : TreeData) (P : ITreeNode) (loaded : list ITreeNode) :
  NoDup (tree_ids tree) ->
  In P (all_nodes tree) ->
  children P = Unloaded ->
  viewIsExpanded P = false ->
  let opened := toggleExpand tree (id P) (viewIsExpanded P) in
  let P1 := flipExpanded false P in
  let P2 := installChildren loaded P1 in
  startsLoad (viewIsExpanded P) (children P) = true
  /\ expandToggle P = (if viewHasChildren P then Some ChevronRight else None)
  /\ In P1 (all_nodes opened)
  /\ isLoadingChildren P1 = true
  /\ expandToggle P1 = (if viewHasChildren P then Some Spinner else None)
  /\ In P2 (all_nodes (finishLoad opened (id P) loaded))
  /\ children P2 = Loaded loaded
  /\ viewIsExpanded P2 = true
  /\ isLoadingChildren P2 = false
  /\ viewHasChildren P2 = (0 <? List.length loaded)%nat
  /\ expandToggle P2
     = (if (0 <? List.length loaded)%nat then Some ChevronDown else None).
Proof.
  intros Hnd HP Hc He. cbv zeta.
  assert (H1 : In (flipExpanded false P)
                  (all_nodes (toggleExpand tree (id P) false)))
    by exact (updateNodeInTree_target tree (flipExpanded false) P Hnd HP).
  assert (Hnd1 : NoDup (tree_ids (toggleExpand tree (id P) false))).
  { unfold toggleExpand. rewrite updateNodeInTree_ids; [exact Hnd|].
    intros n _ _. now rewrite !tree_ids_single. }
  assert (Hh : viewHasChildren (flipExpanded false P) = viewHasChildren P)
    by reflexivity.
  assert (Hl : isLoadingChildren (flipExpanded false P) = true)
    by (unfold isLoadingChildren; simpl; now rewrite Hc).
  split; [rewrite He, Hc; reflexivity|].
  split.
  { unfold expandToggle, isLoadingChildren. now rewrite He. }
  rewrite He.
  split; [exact H1|]. split; [exact Hl|].
  split.
  { unfold expandToggle. now rewrite Hh, Hl. }
  split.
  { exact (updateNodeInTree_target _ (installChildren loaded)
             (flipExpanded false P) Hnd1 H1). }
  split; [reflexivity|]. split; [reflexivity|]. split; [reflexivity|].
  split; [reflexivity|].
  unfold expandToggle, viewHasChildren, isLoadingChildren, viewIsExpanded.
  simpl. now destruct (0 <? List.length loaded)%nat.
Qed.

Lemma lazy_load_protocol_witness :
  let A := mkNode "node-100" "Root A (Lazy Children)" Unloaded (Some false)
                  (Some true) None in
  let Y := newLeaf "node-105" "Y" (Some "node-100") in
  expandToggle (flipExpanded false A) = Some Spinner
  /\ In (installChildren [Y] (flipExpanded false A))
        (all_nodes
           (finishLoad (toggleExpand createInitialTree "node-100" false)
              "node-100" [Y]))
  /\ expandToggle (installChildren [Y] (flipExpanded false A))
     = Some ChevronDown.
Proof.
  intros A Y.
  destruct (lazy_load_protocol createInitialTree A [Y])
    as (_ & _ & _ & _ & Hs & Hin & _ & _ & _ & _ & Hd).
  - vm_compute. repeat constructor; simpl; intuition discriminate.
  - vm_compute. now left.
  - reflexivity.
  - reflexivity.
  - split; [exact Hs|]. split; [exact Hin | exact Hd].
Defined.

(** X10. A load that resolves after its node was removed changes
    nothing. *)
Theorem finishLoad_after_removal
    (tree : TreeData) (nodeId : string) (loaded : list ITreeNode) :
  finishLoad (removeNodeFromTree tree nodeId) nodeId loaded
  = removeNodeFromTree tree nodeId.
Proof.
  apply updateNodeInTree_absent, removeNodeFromTree_gone.
Qed.

(** X11. A load is not cancelled: collapsing (or expanding) the node while
    the loader runs gives the same tree as doing it after the children are
    in, and of two loads of the same node the one that resolves last
    replaces the children of the other. *)
Theorem finishLoad_not_cancelled
    (tree : TreeData) (nodeId : string) (b : bool)
    (loaded loaded' : list ITreeNode) :
  finishLoad (toggleExpand tree nodeId b) nodeId loaded
  = toggleExpand (finishLoad tree nodeId loaded) nodeId b
  /\ finishLoad (finishLoad tree nodeId loaded) nodeId loaded'
     = finishLoad tree nodeId loaded'.
Proof.
  unfold finishLoad, toggleExpand.
  rewrite !updateNodeInTree_compose by (intros n H; exact H).
  split; apply updateNodeInTree_ext; reflexivity.
Qed.

(** ** Properties of the lookups *)

(** X12. [findNodeDeepCopy] searches the whole tree, collapsed or not: it
    returns nothing exactly when no node carries the id, and otherwise a
    node of the tree with the id. Where [findNodeAndLocation] finds a
    node, in a tree with unique ids, [findNodeDeepCopy] finds the same. *)
Theorem findNodeDeepCopy_spec (tree : TreeData) (i : string) :
  (findNodeDeepCopy tree i = None <-> ~ In i (tree_ids tree))
  /\ (forall X, findNodeDeepCopy tree i = Some X ->
                In X (all_nodes tree) /\ id X = i)
  /\ (forall loc, NoDup (tree_ids tree) ->
                  findNodeAndLocation tree (Some i) = Some loc ->
                  findNodeDeepCopy tree i = Some (node loc)).
Proof.
  split; [apply findNodeDeepCopy_None|].
  split; [apply findNodeDeepCopy_Some|].
  intros loc Hnd H.
  unfold findNodeAndLocation, findNodeAndLocation_from in H.
  destruct (truthy (Some i)); [|discriminate].
  pose proof (findLoop_in _ _ _ _ _ _ H) as Hin.
  pose proof (proj1 (findLoop_location _ _ _ _ _ _ H)) as Hid.
  destruct (findNodeDeepCopy tree i) as [X|] eqn:F.
  - destruct (findNodeDeepCopy_Some _ _ _ F) as (HX & HidX).
    f_equal. apply (NoDup_map_injective _ _ id (all_nodes tree)); auto.
    congruence.
  - exfalso. apply (proj1 (findNodeDeepCopy_None tree i) F).
    rewrite <- Hid. now apply in_all_nodes_ids.
Qed.

Lemma findNodeDeepCopy_spec_witness :
  findNodeDeepCopy ex_hidden "node-102" = Some ex_D
  /\ findNodeAndLocation ex_hidden (Some "node-102") = None
  /\ findNodeDeepCopy ex_family "node-102" = Some ex_C.
Proof.
  split; [reflexivity|]. split; [reflexivity|].
  refine (proj2 (proj2 (findNodeDeepCopy_spec ex_family "node-102"))
            (mkLoc ex_C (Some ex_A) 1 [ex_B; ex_C]) _ _).
  - vm_compute. repeat constructor; simpl; intuition discriminate.
  - reflexivity.
Defined.

Lemma findNodeAndLocation_found
    (tree : TreeData) (nodeId : option string) (loc : NodeLocation) :
  findNodeAndLocation tree nodeId = Some loc ->
  Some (id (node loc)) = nodeId
  /\ In (node loc) (all_nodes tree)
  /\ match parent loc with
     | Some p =>
         In p (all_nodes tree)
         /\ viewIsExpanded p = true
         /\ children p = Loaded (siblings loc)
         /\ nth_error (siblings loc) (index loc) = Some (node loc)
     | None =>
         siblings loc = []
         /\ nth_error tree (index loc) = Some (node loc)
     end.
Proof.
  unfold findNodeAndLocation, findNodeAndLocation_from.
  destruct nodeId as [s|]; [|discriminate].
  destruct (truthy (Some s)); [|discriminate].
  intros H.
  destruct (findLoop_location _ _ _ _ _ _ H) as (Hid & Hloc).
  split; [now rewrite Hid|]. split; [exact (findLoop_in _ _ _ _ _ _ H)|].
  destruct (findLoop_parent _ _ _ _ _ _ H) as [Hp | (p & Hp & Hin & He)].
  - rewrite Hp. destruct Hloc as [(_ & Hs & _ & Hn) | (q & Hq & _)].
    + rewrite Nat.sub_0_r in Hn. auto.
    + congruence.
  - rewrite Hp. destruct Hloc as [(Hq & _) | (q & Hq & Hc & Hn)].
    + congruence.
    + assert (q = p) by congruence. subst q. auto.
Qed.

(** X13. What [findNodeAndLocation] returns, in full: the node is a node of
    the tree and carries the id; when a parent is returned, it is an
    expanded node of the tree, the siblings are its children and hold the
    node at the index; when none is returned, the node stands at the index
    in the tree searched, and the siblings are empty. *)
Theorem findNodeAndLocation_result
    (tree : TreeData) (nodeId : option string) (loc : NodeLocation) :
  findNodeAndLocation tree nodeId = Some loc ->
  Some (id (node loc)) = nodeId
  /\ In (node loc) (all_nodes tree)
  /\ match parent loc with
     | Some p =>
         In p (all_nodes tree)
         /\ viewIsExpanded p = true
         /\ children p = Loaded (siblings loc)
         /\ nth_error (siblings loc) (index loc) = Some (node loc)
     | None =>
         siblings loc = []
         /\ nth_error tree (index loc) = Some (node loc)
     end.
Proof. exact (findNodeAndLocation_found tree nodeId loc). Qed.

Lemma findNodeAndLocation_result_witness :
  In ex_A (all_nodes ex_family)
  /\ children ex_A = Loaded [ex_B; ex_C]
  /\ nth_error [ex_B; ex_C] 1 = Some ex_C.
Proof.
  destruct (findNodeAndLocation_result ex_family (Some "node-102")
              (mkLoc ex_C (Some ex_A) 1 [ex_B; ex_C]) eq_refl)
    as (_ & _ & Hin & _ & Hc & Hn).
  exact (conj Hin (conj Hc Hn)).
Defined.

(** X14. [isAncestor(a, d, nodes)] in a tree with unique ids: when a node
    with the id [a] (not empty) is reachable through expanded ancestors, the
    answer is whether [d] is the id of one of its descendants, through
    loaded children, collapsed or not; when no such node is reachable,
    because the id is absent or under a collapsed node, the answer is
    [false]. *)
Theorem isAncestor_spec (tree : TreeData) (a d : string) :
  (forall A,
     NoDup (tree_ids tree) -> Exposed tree A -> id A = a -> a <> "" ->
     (isAncestor a d tree = true <-> In d (map id (descendants A))))
  /\ ((forall A, Exposed tree A -> id A <> a) -> isAncestor a d tree = false).
Proof.
  split.
  - intros A Hnd HA Hid Ha. subst a. split.
    + unfold isAncestor, findNodeAndLocation, findNodeAndLocation_from.
      rewrite (truthy_Some _ Ha).
      destruct (findLoop (findDescend (id A)) (id A) None [] tree 0)
        as [loc|] eqn:F; [|discriminate].
      assert (Hloc : node loc = A).
      { apply (NoDup_map_injective _ _ id (all_nodes tree)); auto.
        - exact (findLoop_in _ _ _ _ _ _ F).
        - now apply Exposed_in_all_nodes.
        - exact (proj1 (findLoop_location _ _ _ _ _ _ F)). }
      rewrite Hloc. unfold descendants.
      destruct (children A) as [| |cs]; try discriminate.
      intros H. now apply findDescendant_iff in H.
    + intros Hd. apply in_map_iff in Hd. destruct Hd as (D & Hid & HD).
      rewrite <- Hid. now apply isAncestor_exposed.
  - intros Hno. unfold isAncestor, findNodeAndLocation, findNodeAndLocation_from.
    destruct (truthy (Some a)); [|reflexivity].
    destruct (findLoop (findDescend a) a None [] tree 0) as [loc|] eqn:F;
      [|reflexivity].
    exfalso.
    assert (Hs : In a (map id (shown tree))).
    { apply (findLoop_isSome tree a None [] 0). now rewrite F. }
    apply in_map_iff in Hs. destruct Hs as (A & Hid & HA).
    apply (Hno A); [now apply Exposed_iff_shown | exact Hid].
Qed.

Lemma isAncestor_spec_witness :
  (isAncestor "node-100" "node-102" ex_family = true
   <-> In "node-102" (map id (descendants ex_A)))
  /\ isAncestor "node-101" "node-102" ex_hidden = false.
Proof.
  split.
  - apply (proj1 (isAncestor_spec ex_family "node-100" "node-102") ex_A).
    + vm_compute. repeat constructor; simpl; intuition discriminate.
    + apply exposed_root. now left.
    + reflexivity.
    + discriminate.
  - apply (proj2 (isAncestor_spec ex_hidden "node-101" "node-102")).
    intros A HA. apply Exposed_iff_shown in HA. vm_compute in HA.
    destruct HA as [<-|[]]. discriminate.
Defined.

(** ** Drops that move nothing *)

(** X15. [handleDrop] leaves the tree as it is and clears the drag cell
    when nothing is dragged, when the target is the dragged node itself,
    and when the dragged id is no longer in the tree. *)
Theorem handleDrop_nothing_to_move
    (st : TreeViewState) (targetNodeId : option string) (pos : DropPosition) :
  (draggedItem st = None
   \/ exists d, draggedItem st = Some d
                /\ (Some (drag_id d) = targetNodeId
                    \/ ~ In (drag_id d) (tree_ids (treeData st)))) ->
  handleDrop st targetNodeId pos = mkState (treeData st) None.
Proof.
  unfold handleDrop. intros [H | (d & H & [Hself | Hgone])]; rewrite H.
  - reflexivity.
  - rewrite <- Hself. simpl. now rewrite String.eqb_refl.
  - destruct (strict_eq (drag_id d) targetNodeId); [reflexivity|].
    f_equal. unfold dropUpdater.
    now rewrite (proj2 (findNodeDeepCopy_None _ _) Hgone).
Qed.

Lemma handleDrop_nothing_to_move_witness :
  handleDrop (mkState ex_family (Some (mkDragItem "node-999" None)))
             (Some "node-102") child
  = mkState ex_family None.
Proof.
  apply (handleDrop_nothing_to_move
           (mkState ex_family (Some (mkDragItem "node-999" None)))).
  right. exists (mkDragItem "node-999" None). split; [reflexivity|].
  right. vm_compute. intuition discriminate.
Defined.

(** X16. The cycle guard of [handleDrop] where the lookup reaches the
    dragged node: in a tree with unique ids, a node [A] reachable through
    expanded ancestors is never moved by a drop onto one of its
    descendants [D], at any position and however deep or collapsed [D]
    lies; the tree stays as it is and the drag cell is cleared. *)
Theorem handleDrop_cycle_rejected
    (tree : TreeData) (A D : ITreeNode) (dragged : DragItem)
    (pos : DropPosition) :
  NoDup (tree_ids tree) ->
  Exposed tree A ->
  In D (descendants A) ->
  id A <> "" -> id D <> "" ->
  drag_id dragged = id A ->
  isAncestor (id A) (id D) tree = true
  /\ handleDrop (mkState tree (Some dragged)) (Some (id D)) pos
     = mkState tree None.
Proof.
  intros Hnd HA HD HidA HidD Hd. split.
  - exact (isAncestor_exposed tree A D Hnd HA HD HidA).
  - exact (handleDrop_rejects_exposed_cycle tree A D dragged pos
             Hnd HA HD HidA HidD Hd).
Qed.

Lemma handleDrop_cycle_rejected_witness :
  handleDrop (mkState ex_family (Some (mkDragItem "node-100" None)))
             (Some "node-102") child
  = mkState ex_family None.
Proof.
  refine (proj2 (handleDrop_cycle_rejected ex_family ex_A ex_C
                   (mkDragItem "node-100" None) child _ _ _ _ _ _)).
  - vm_compute. repeat constructor; simpl; intuition discriminate.
  - apply exposed_root. now left.
  - vm_compute. right. now left.
  - discriminate.
  - discriminate.
  - reflexivity.
Defined.

(** ** The outcomes of a drop *)

Lemma splice_as_app (A : Type) (k : nat) (x : A) (l : list A) :
  splice k x l = firstn k l ++ [x] ++ skipn k l.
Proof. reflexivity. Qed.

Lemma splice_nil (A : Type) (k : nat) (x : A) : splice k x [] = [x].
Proof. unfold splice. now rewrite firstn_nil, skipn_nil. Qed.

Lemma tree_ids_with_parentId X p : tree_ids [with_parentId X p] = tree_ids [X].
Proof. now rewrite !tree_ids_single. Qed.

Lemma tree_ids_splice k X (l : TreeData) :
  Permutation (tree_ids (splice k X l)) (tree_ids [X] ++ tree_ids l).
Proof.
  rewrite splice_as_app, !tree_ids_app.
  rewrite <- (firstn_skipn k l) at 3. rewrite tree_ids_app.
  rewrite !app_assoc. apply Permutation_app_tail, Permutation_app_comm.
Qed.

Lemma flags_consistent_splice k X (l : TreeData) :
  flags_consistent [X] -> flags_consistent l ->
  flags_consistent (splice k X l).
Proof.
  intros HX Hl. rewrite <- (firstn_skipn k l) in Hl.
  apply flags_consistent_app in Hl. destruct Hl as (H1 & H2).
  rewrite splice_as_app. apply flags_consistent_app. split; [exact H1|].
  apply flags_consistent_app. split; assumption.
Qed.

Lemma parents_consistent_splice p k X (l : TreeData) :
  parents_consistent p [X] -> parents_consistent p l ->
  parents_consistent p (splice k X l).
Proof.
  intros HX Hl. rewrite <- (firstn_skipn k l) in Hl.
  apply parents_consistent_app in Hl. destruct Hl as (H1 & H2).
  rewrite splice_as_app. apply parents_consistent_app. split; [exact H1|].
  apply parents_consistent_app. split; assumption.
Qed.

Lemma length_splice (A : Type) k (x : A) l :
  List.length (splice k x l) = S (List.length l).
Proof.
  rewrite splice_as_app, !length_app. simpl.
  rewrite <- (firstn_skipn k l) at 3. rewrite length_app. lia.
Qed.

Lemma flags_consistent_single n :
  flags_consistent [n]
  <-> flag_ok n /\ flags_consistent (childrenArray (children n)).
Proof.
  rewrite flags_consistent_cons. split; [tauto|].
  intros (H1 & H2). split; [exact H1|]. split; [exact H2 | constructor].
Qed.

Lemma parents_consistent_single p n :
  parents_consistent p [n]
  <-> parentId n = p
      /\ parents_consistent (Some (id n)) (childrenArray (children n)).
Proof.
  rewrite parents_consistent_cons. split; [tauto|].
  intros (H1 & H2). split; [exact H1|]. split; [exact H2 | constructor].
Qed.

Lemma flags_consistent_reparent X p :
  flags_consistent [X] -> flags_consistent [with_parentId X p].
Proof. rewrite !flags_consistent_single. destruct X; simpl. tauto. Qed.

Lemma parents_consistent_reparent X p q :
  parents_consistent q [X] -> parents_consistent p [with_parentId X p].
Proof. rewrite !parents_consistent_single. destruct X; simpl. tauto. Qed.

(** What the [else] branch of the state updater returns: the dragged node,
    reparented, spliced into the roots or into the children of the parent
    of the target, or on its own when the target is not found. *)
Lemma dropAsSibling_cases (t' : TreeData) X target pos :
  let r := dropAsSibling t' X target pos in
  (exists k, r = splice k (with_parentId X None) t')
  \/ (exists P k,
        In P (all_nodes t') /\ id P <> ""
        /\ r = updateNodeInTree t' (id P)
                 (install (splice k (with_parentId X (Some (id P)))
                                  (childrenArray (children P)))))
  \/ (r = [with_parentId X None]
      /\ truthy target = true
      /\ findNodeAndLocation t' target = None).
Proof.
  cbv zeta. unfold dropAsSibling.
  destruct (truthy target) eqn:Ht.
  2: { left. now exists (List.length t'). }
  destruct (findNodeAndLocation t' target) as [loc|] eqn:F.
  2: { right. right. rewrite splice_nil. auto. }
  destruct (findNodeAndLocation_found _ _ _ F) as (_ & _ & Hp).
  destruct (parent loc) as [p|] eqn:Ep.
  - simpl option_map. unfold or_null.
    destruct (truthy (Some (id p))) eqn:Tp.
    + right. left. destruct Hp as (Hin & _).
      exists p. eexists. split; [exact Hin|]. split.
      * simpl in Tp. intros E. rewrite E in Tp. discriminate.
      * cbv beta iota zeta. rewrite Tp. reflexivity.
    + left. eexists. reflexivity.
  - simpl. left. eexists. reflexivity.
Qed.

(** The outcomes of the state updater of [handleDrop]. *)
Lemma dropUpdater_cases (t : TreeData) dragged target pos :
  let r := dropUpdater dragged target pos t in
  r = t
  \/ exists X, In X (all_nodes t) /\ id X = drag_id dragged
     /\ let t' := removeNodeFromTree t (id X) in
        (r = t' /\ truthy target = true
         /\ findNodeAndLocation t' target = None)
        \/ (exists T, In T (all_nodes t')
                     /\ r = updateNodeInTree t' (id T) (adopt X))
        \/ (exists k, r = splice k (with_parentId X None) t')
        \/ (exists P k,
              In P (all_nodes t') /\ id P <> ""
              /\ r = updateNodeInTree t' (id P)
                       (install (splice k (with_parentId X (Some (id P)))
                                        (childrenArray (children P)))))
        \/ (r = [with_parentId X None] /\ truthy target = true
            /\ findNodeAndLocation t' target = None).
Proof.
  cbv zeta. unfold dropUpdater.
  destruct (findNodeDeepCopy t (drag_id dragged)) as [X|] eqn:F;
    [|now left].
  destruct (findNodeDeepCopy_Some _ _ _ F) as (HX & Hid).
  destruct (truthy target && _); [now left|].
  right. exists X. split; [exact HX|]. split; [exact Hid|].
  rewrite <- Hid.
  assert (Hsib := dropAsSibling_cases (removeNodeFromTree t (id X)) X
                    target pos).
  cbv zeta in Hsib.
  assert (Hsib' :
    (exists k, dropAsSibling (removeNodeFromTree t (id X)) X target pos
               = splice k (with_parentId X None)
                   (removeNodeFromTree t (id X)))
    \/ (exists P k,
          In P (all_nodes (removeNodeFromTree t (id X))) /\ id P <> ""
          /\ dropAsSibling (removeNodeFromTree t (id X)) X target pos
             = updateNodeInTree (removeNodeFromTree t (id X)) (id P)
                 (install (splice k (with_parentId X (Some (id P)))
                                  (childrenArray (children P)))))
    \/ (dropAsSibling (removeNodeFromTree t (id X)) X target pos
        = [with_parentId X None]
        /\ truthy target = true
        /\ findNodeAndLocation (removeNodeFromTree t (id X)) target = None))
    by exact Hsib.
  clear Hsib.
  destruct pos; try (right; right; exact Hsib').
  destruct target as [tid|]; [|right; right; exact Hsib'].
  destruct (truthy (Some tid)) eqn:Ht; [|right; right; exact Hsib'].
  destruct (findNodeAndLocation (removeNodeFromTree t (id X)) (Some tid))
    as [loc|] eqn:L.
  - right. left. exists (node loc).
    destruct (findNodeAndLocation_found _ _ _ L) as (Hlid & Hin & _).
    split; [exact Hin|]. inversion Hlid. reflexivity.
  - left. auto.
Qed.

(** ** What the updaters of a move keep *)

Lemma adopt_flags X n :
  flags_consistent [X] ->
  flags_consistent (childrenArray (children n)) ->
  flags_consistent [adopt X n].
Proof.
  intros HX Hn. apply flags_consistent_single. split.
  - intros cs H. simpl in H. inversion H; subst cs. simpl.
    rewrite length_app. simpl.
    now replace (List.length (childrenArray (children n)) + 1) with
      (S (List.length (childrenArray (children n)))) by lia.
  - simpl. apply flags_consistent_app. split; [exact Hn|].
    now apply flags_consistent_reparent.
Qed.

Lemma install_flags k X (l : TreeData) n :
  flags_consistent [X] -> flags_consistent l ->
  flags_consistent [install (splice k X l) n].
Proof.
  intros HX Hl. apply flags_consistent_single. split.
  - intros cs H. simpl in H. inversion H; subst cs. simpl.
    now rewrite length_splice.
  - simpl. now apply flags_consistent_splice.
Qed.

Lemma adopt_parents X n q :
  parents_consistent q [X] ->
  parents_consistent (Some (id n)) (childrenArray (children n)) ->
  parents_consistent (parentId n) [adopt X n].
Proof.
  intros HX Hn. apply parents_consistent_single. split; [reflexivity|].
  simpl. apply parents_consistent_app. split; [exact Hn|].
  exact (parents_consistent_reparent X (Some (id n)) q HX).
Qed.

Lemma install_parents k X (l : TreeData) n q :
  parents_consistent q [X] ->
  parents_consistent (Some (id n)) l ->
  parents_consistent (parentId n)
    [install (splice k (with_parentId X (Some (id n))) l) n].
Proof.
  intros HX Hl. apply parents_consistent_single. split; [reflexivity|].
  simpl. apply parents_consistent_splice; [|exact Hl].
  exact (parents_consistent_reparent X (Some (id n)) q HX).
Qed.

Lemma flags_consistent_node (tree : TreeData) X :
  flags_consistent tree -> In X (all_nodes tree) -> flags_consistent [X].
Proof.
  intros Hf HX. apply flags_consistent_single.
  now apply (flags_consistent_in tree).
Qed.

Lemma parents_consistent_node (tree : TreeData) p X :
  parents_consistent p tree -> In X (all_nodes tree) ->
  parents_consistent (parentId X) [X].
Proof.
  intros Hp HX. apply parents_consistent_single. split; [reflexivity|].
  exact (parents_consistent_in tree p X Hp HX).
Qed.

(** A move keeps the flags consistent. *)
Lemma dropUpdater_flags (t : TreeData) dragged target pos :
  flags_consistent t -> flags_consistent (dropUpdater dragged target pos t).
Proof.
  intros Hf.
  destruct (dropUpdater_cases t dragged target pos)
    as [E | (X & HX & _ & [(E & _) | [(T & HT & E) | [(k & E)
         | [(P & k & HP & _ & E) | (E & _)]]]])];
    rewrite E; clear E.
  - exact Hf.
  - apply removeNodeFromTree_flags.
  - apply updateNodeInTree_flags; [apply removeNodeFromTree_flags|].
    intros n Hn _. apply adopt_flags.
    + exact (flags_consistent_node t X Hf HX).
    + exact (proj2 (flags_consistent_in _ n
                      (removeNodeFromTree_flags t (id X)) Hn)).
  - apply flags_consistent_splice; [|apply removeNodeFromTree_flags].
    apply flags_consistent_reparent.
    exact (flags_consistent_node t X Hf HX).
  - apply updateNodeInTree_flags; [apply removeNodeFromTree_flags|].
    intros n Hn _. apply install_flags.
    + apply flags_consistent_reparent.
      exact (flags_consistent_node t X Hf HX).
    + exact (proj2 (flags_consistent_in _ P
                      (removeNodeFromTree_flags t (id X)) HP)).
  - apply flags_consistent_reparent.
    exact (flags_consistent_node t X Hf HX).
Qed.

(** A move keeps the tree parent-consistent. *)
Lemma dropUpdater_parents (t : TreeData) dragged target pos :
  parents_consistent None t ->
  parents_consistent None (dropUpdater dragged target pos t).
Proof.
  intros Hp.
  assert (Hrem : forall r, parents_consistent None (removeNodeFromTree t r))
    by (intros r; now apply removeNodeFromTree_parents).
  destruct (dropUpdater_cases t dragged target pos)
    as [E | (X & HX & _ & [(E & _) | [(T & HT & E) | [(k & E)
         | [(P & k & HP & _ & E) | (E & _)]]]])];
    rewrite E; clear E.
  - exact Hp.
  - apply Hrem.
  - apply updateNodeInTree_parents; [apply Hrem|].
    intros n Hn _. apply (adopt_parents X n (parentId X)).
    + exact (parents_consistent_node t None X Hp HX).
    + exact (parents_consistent_in _ None n (Hrem _) Hn).
  - apply parents_consistent_splice; [|apply Hrem].
    exact (parents_consistent_reparent X None (parentId X)
             (parents_consistent_node t None X Hp HX)).
  - apply updateNodeInTree_parents; [apply Hrem|].
    intros n Hn Hid. rewrite <- Hid.
    apply (install_parents k X _ n (parentId X)).
    + exact (parents_consistent_node t None X Hp HX).
    + rewrite Hid. exact (parents_consistent_in _ None P (Hrem _) HP).
  - exact (parents_consistent_reparent X None (parentId X)
             (parents_consistent_node t None X Hp HX)).
Qed.

(** ** The ids through a move *)

Lemma Permutation_pull_front (A : Type) (m1 x a m2 : list A) :
  Permutation (m1 ++ (x ++ a) ++ m2) (x ++ m1 ++ a ++ m2).
Proof.
  rewrite <- app_assoc. apply Permutation_app_swap_app.
Qed.

Lemma Permutation_pull_back (A : Type) (m1 x a m2 : list A) :
  Permutation (m1 ++ (a ++ x) ++ m2) (x ++ m1 ++ a ++ m2).
Proof.
  etransitivity; [|apply Permutation_pull_front].
  apply Permutation_app_head, Permutation_app_tail, Permutation_app_comm.
Qed.

Lemma tree_ids_subtree X : tree_ids [X] = map id (subtree_nodes X).
Proof. unfold tree_ids, all_nodes. simpl. now rewrite app_nil_r. Qed.

Lemma removal_permutation (t : TreeData) X :
  NoDup (tree_ids t) -> In X (all_nodes t) ->
  Permutation (tree_ids t)
              (tree_ids [X] ++ tree_ids (removeNodeFromTree t (id X))).
Proof.
  intros Hnd HX.
  destruct (removeNodeFromTree_cut t X Hnd HX) as (l1 & l2 & E1 & E2).
  rewrite E1, E2, tree_ids_subtree.
  apply Permutation_app_swap_app.
Qed.

Lemma adopt_permutation (t' : TreeData) X T :
  NoDup (tree_ids t') -> In T (all_nodes t') ->
  Permutation (tree_ids (updateNodeInTree t' (id T) (adopt X)))
              (tree_ids [X] ++ tree_ids t').
Proof.
  intros Hnd HT.
  destruct (updateNodeInTree_splice_ids t' (adopt X) T Hnd HT)
    as (m1 & m2 & E1 & E2).
  rewrite E2, E1.
  assert (Ea : tree_ids [adopt X T] = tree_ids [T] ++ tree_ids [X]).
  { rewrite (tree_ids_single (adopt X T)), (tree_ids_single T). simpl.
    now rewrite tree_ids_app, tree_ids_with_parentId. }
  rewrite Ea. apply Permutation_pull_back.
Qed.

Lemma install_permutation (t' : TreeData) X P k p :
  NoDup (tree_ids t') -> In P (all_nodes t') ->
  Permutation
    (tree_ids (updateNodeInTree t' (id P)
                 (install (splice k (with_parentId X p)
                                  (childrenArray (children P))))))
    (tree_ids [X] ++ tree_ids t').
Proof.
  intros Hnd HP.
  destruct (updateNodeInTree_splice_ids t'
              (install (splice k (with_parentId X p)
                               (childrenArray (children P)))) P Hnd HP)
    as (m1 & m2 & E1 & E2).
  rewrite E2, E1.
  assert (Ea : Permutation
                 (tree_ids [install (splice k (with_parentId X p)
                                            (childrenArray (children P))) P])
                 (tree_ids [X] ++ tree_ids [P])).
  { rewrite (tree_ids_single (install _ P)), (tree_ids_single P). simpl.
    etransitivity; [apply perm_skip, tree_ids_splice|].
    rewrite tree_ids_with_parentId.
    apply (Permutation_middle (tree_ids [X]) _ (id P)). }
  etransitivity;
    [apply Permutation_app_head, Permutation_app_tail, Ea|].
  apply Permutation_pull_front.
Qed.

(** The ids after a move: those of the start, in another order, in all the
    outcomes but the two in which the target is not found. *)
Lemma dropUpdater_ids (t : TreeData) dragged target pos :
  NoDup (tree_ids t) ->
  let r := dropUpdater dragged target pos t in
  Permutation (tree_ids r) (tree_ids t)
  \/ (exists X, In X (all_nodes t) /\ id X = drag_id dragged
                /\ truthy target = true
                /\ findNodeAndLocation (removeNodeFromTree t (id X)) target
                   = None
                /\ (r = removeNodeFromTree t (id X)
                    \/ r = [with_parentId X None])).
Proof.
  intros Hnd. cbv zeta.
  destruct (dropUpdater_cases t dragged target pos)
    as [E | (X & HX & Hid & [(E & Ht & Hf) | [(T & HT & E) | [(k & E)
         | [(P & k & HP & _ & E) | (E & Ht & Hf)]]]])].
  - left. now rewrite E.
  - right. exists X. auto 10.
  - left. rewrite E.
    etransitivity; [apply adopt_permutation; auto|].
    + now apply removeNodeFromTree_NoDup.
    + apply Permutation_sym. now apply removal_permutation.
  - left. rewrite E.
    etransitivity; [apply tree_ids_splice|].
    rewrite tree_ids_with_parentId.
    apply Permutation_sym. now apply removal_permutation.
  - left. rewrite E.
    etransitivity; [apply install_permutation; auto|].
    + now apply removeNodeFromTree_NoDup.
    + apply Permutation_sym. now apply removal_permutation.
  - right. exists X. auto 10.
Qed.

Lemma dropUpdater_NoDup (t : TreeData) dragged target pos :
  NoDup (tree_ids t) ->
  NoDup (tree_ids (dropUpdater dragged target pos t))
  /\ incl (tree_ids (dropUpdater dragged target pos t)) (tree_ids t).
Proof.
  intros Hnd.
  destruct (dropUpdater_ids t dragged target pos Hnd)
    as [Hperm | (X & HX & _ & _ & _ & [E | E])].
  - split.
    + exact (Permutation_NoDup (Permutation_sym Hperm) Hnd).
    + intros x Hx. exact (Permutation_in x Hperm Hx).
  - rewrite E. split.
    + now apply removeNodeFromTree_NoDup.
    + apply removeNodeFromTree_ids_incl.
  - rewrite E, tree_ids_with_parentId.
    pose proof (removal_permutation t X Hnd HX) as Hperm.
    pose proof (Permutation_NoDup Hperm Hnd) as Hnd'.
    split.
    + now apply NoDup_app_remove_r in Hnd'.
    + intros x Hx. apply (Permutation_in x (Permutation_sym Hperm)).
      apply in_or_app. now left.
Qed.

(** ** What stays shown when a node is removed *)

Lemma shown_in_tree_ids (tree : TreeData) s :
  In s (map id (shown tree)) -> In s (tree_ids tree).
Proof.
  intros H. apply in_map_iff in H. destruct H as (n & E & Hn).
  rewrite <- E. apply in_all_nodes_ids, Exposed_in_all_nodes.
  now apply Exposed_iff_shown.
Qed.

Lemma shown_nodes_in_tree_ids n s :
  In s (map id (shown_nodes n)) -> In s (tree_ids [n]).
Proof.
  intros H. apply shown_in_tree_ids. unfold shown. simpl.
  now rewrite app_nil_r.
Qed.

(** In a tree with unique ids, a shown node that is still in the tree after
    a removal is still shown. *)
Lemma shown_after_removal (tree : TreeData) r s :
  NoDup (tree_ids tree) ->
  In s (map id (shown tree)) ->
  In s (tree_ids (removeNodeFromTree tree r)) ->
  In s (map id (shown (removeNodeFromTree tree r))).
Proof.
  induction tree as [|n rest IHk IHr] using tree_ind; intros Hnd Hs Hin.
  - destruct Hs.
  - pose proof (NoDup_tree_ids_cons _ _ Hnd) as (Hnk & Hnr & Hk & Hr & Hdisj).
    rewrite shown_cons, map_app, in_app_iff in Hs.
    rewrite removeNodeFromTree_cons in *.
    assert (Hn_rest : In s (tree_ids [n]) -> In s (tree_ids rest) -> False).
    { rewrite tree_ids_single. intros [E | H1] H2.
      - subst s. contradiction.
      - exact (Hdisj s H1 H2). }
    destruct (id n =? r) eqn:E.
    + apply IHr; auto.
      destruct Hs as [Hs | Hs]; [|exact Hs]. exfalso.
      apply Hn_rest; [now apply shown_nodes_in_tree_ids|].
      now apply (removeNodeFromTree_ids_incl rest r).
    + rewrite shown_cons, map_app, in_app_iff.
      rewrite tree_ids_cons in Hin. simpl in Hin. rewrite in_app_iff in Hin.
      rewrite shown_nodes_eq, removeNode_eq.
      rewrite shown_nodes_eq in Hs.
      destruct Hin as [Hin | [Hin | Hin]].
      * left. destruct n as [j nm [| |cs] e h q]; simpl in *; now left.
      * left.
        destruct n as [j nm [| |cs] e h q]; simpl in *; try contradiction.
        assert (Hcs : In s (tree_ids cs))
          by now apply (removeNodeFromTree_ids_incl cs r).
        destruct Hs as [[Hs | Hs] | Hs].
        -- subst s. contradiction.
        -- right. destruct (truthy_flag e); [|destruct Hs].
           now apply IHk.
        -- exfalso. apply (Hdisj s Hcs). now apply shown_in_tree_ids.
      * right. apply IHr; auto.
        destruct Hs as [Hs | Hs]; [|exact Hs]. exfalso.
        apply Hn_rest.
        -- apply shown_nodes_in_tree_ids. now rewrite shown_nodes_eq.
        -- now apply (removeNodeFromTree_ids_incl rest r).
Qed.

Lemma kept_after_removal (tree : TreeData) X T :
  NoDup (tree_ids tree) ->
  In X (all_nodes tree) ->
  In T (all_nodes tree) ->
  ~ In T (subtree_nodes X) ->
  In (id T) (tree_ids (removeNodeFromTree tree (id X))).
Proof.
  intros Hnd HX HT Hout.
  destruct (removeNodeFromTree_cut tree X Hnd HX) as (l1 & l2 & E1 & E2).
  rewrite E2. pose proof (in_all_nodes_ids _ _ HT) as Hid.
  rewrite E1, !in_app_iff in Hid. rewrite in_app_iff.
  destruct Hid as [H | [H | H]]; [now left | | now right].
  exfalso. apply Hout. apply in_map_iff in H. destruct H as (Z & EZ & HZ).
  assert (Z = T); [|now subst].
  apply (NoDup_map_injective _ _ id (all_nodes tree)); auto.
  exact (subtree_in_all_nodes _ _ HX _ HZ).
Qed.

(** A shown target outside the dragged subtree is found after the
    removal. *)
Lemma target_found_after_removal (tree : TreeData) X T :
  NoDup (tree_ids tree) ->
  In X (all_nodes tree) ->
  Exposed tree T ->
  id T <> "" ->
  ~ In T (subtree_nodes X) ->
  findNodeAndLocation (removeNodeFromTree tree (id X)) (Some (id T)) <> None.
Proof.
  intros Hnd HX HT HidT Hout.
  assert (HTin : In T (all_nodes tree)) by now apply Exposed_in_all_nodes.
  assert (Hkept : In (id T) (tree_ids (removeNodeFromTree tree (id X)))).
  { now apply kept_after_removal. }
  assert (Hs : In (id T) (map id (shown (removeNodeFromTree tree (id X))))).
  { apply shown_after_removal; auto.
    apply in_map. now apply Exposed_iff_shown. }
  unfold findNodeAndLocation, findNodeAndLocation_from.
  rewrite (truthy_Some _ HidT).
  apply (findLoop_isSome _ (id T) None [] 0) in Hs.
  destruct (findLoop _ _ _ _ _ _); [discriminate | discriminate].
Qed.

Lemma handleDrop_tree (st : TreeViewState) target pos :
  treeData (handleDrop st target pos) = treeData st
  \/ exists dragged,
       draggedItem st = Some dragged
       /\ treeData (handleDrop st target pos)
          = dropUpdater dragged target pos (treeData st).
Proof.
  unfold handleDrop. destruct (draggedItem st) as [d|]; [|now left].
  destruct (strict_eq (drag_id d) target); [now left|].
  right. exists d. auto.
Qed.

(** ** Properties of [handleDrop] *)

(** X17. [handleDrop] keeps the flags consistent: if every node with a
    loaded children array has [hasChildren] equal to (the array is not
    empty) before the drop, so it is after, for every dragged item, target
    and position, the drop being carried out, rejected or lost. *)
Theorem handleDrop_keeps_flags
    (st : TreeViewState) (targetNodeId : option string) (pos : DropPosition) :
  flags_consistent (treeData st) ->
  flags_consistent (treeData (handleDrop st targetNodeId pos)).
Proof.
  intros Hf.
  destruct (handleDrop_tree st targetNodeId pos) as [E | (d & _ & E)];
    rewrite E; [exact Hf | now apply dropUpdater_flags].
Qed.

Lemma handleDrop_keeps_flags_witness :
  flags_consistent
    (treeData (handleDrop
                 (mkState ex_family (Some (mkDragItem "node-102" None)))
                 (Some "node-101") child)).
Proof.
  apply (handleDrop_keeps_flags
           (mkState ex_family (Some (mkDragItem "node-102" None)))).
  vm_compute. repeat constructor; simpl; intros cs H; inversion H; reflexivity.
Defined.

(** X18. [handleDrop] keeps the tree parent-consistent: if every node names
    in [parentId] the node that holds it (the roots naming [null]) before
    the drop, so it is after, for every dragged item, target and
    position. *)
Theorem handleDrop_keeps_parents
    (st : TreeViewState) (targetNodeId : option string) (pos : DropPosition) :
  parents_consistent None (treeData st) ->
  parents_consistent None (treeData (handleDrop st targetNodeId pos)).
Proof.
  intros Hp.
  destruct (handleDrop_tree st targetNodeId pos) as [E | (d & _ & E)];
    rewrite E; [exact Hp | now apply dropUpdater_parents].
Qed.

Lemma handleDrop_keeps_parents_witness :
  parents_consistent None
    (treeData (handleDrop
                 (mkState ex_family (Some (mkDragItem "node-102" None)))
                 (Some "node-101") child)).
Proof.
  apply (handleDrop_keeps_parents
           (mkState ex_family (Some (mkDragItem "node-102" None)))).
  vm_compute. repeat constructor.
Defined.

(** X19. [handleDrop] never makes an id appear twice and never brings an id
    in: from a tree with unique ids it returns a tree with unique ids, all
    of them ids of the tree of the start, for every dragged item, target
    and position. *)
Theorem handleDrop_keeps_ids_unique
    (st : TreeViewState) (targetNodeId : option string) (pos : DropPosition) :
  NoDup (tree_ids (treeData st)) ->
  NoDup (tree_ids (treeData (handleDrop st targetNodeId pos)))
  /\ incl (tree_ids (treeData (handleDrop st targetNodeId pos)))
          (tree_ids (treeData st)).
Proof.
  intros Hnd.
  destruct (handleDrop_tree st targetNodeId pos) as [E | (d & _ & E)];
    rewrite E.
  - split; [exact Hnd | apply incl_refl].
  - now apply dropUpdater_NoDup.
Qed.

Lemma handleDrop_keeps_ids_unique_witness :
  NoDup (tree_ids
           (treeData (handleDrop
                        (mkState ex_roots (Some (mkDragItem "node-100" None)))
                        (Some "node-999") above))).
Proof.
  apply (handleDrop_keeps_ids_unique
           (mkState ex_roots (Some (mkDragItem "node-100" None)))).
  vm_compute. repeat constructor; simpl; intuition discriminate.
Defined.

(** X20. A move loses no node and doubles none: in a tree with unique ids,
    dropping the dragged node [X] on the root zone, or at any position on a
    target [T] that is reachable through expanded ancestors, has a
    non-empty id and lies outside the subtree of [X], returns a tree with
    the same ids as before, in another order, hence with as many nodes. *)
Theorem handleDrop_conserves_nodes
    (tree : TreeData) (X : ITreeNode) (dragged : DragItem)
    (targetNodeId : option string) (pos : DropPosition) :
  NoDup (tree_ids tree) ->
  In X (all_nodes tree) ->
  drag_id dragged = id X ->
  (targetNodeId = None
   \/ exists T, targetNodeId = Some (id T) /\ Exposed tree T /\ id T <> ""
                /\ ~ In T (subtree_nodes X)) ->
  let result := treeData (handleDrop (mkState tree (Some dragged))
                                     targetNodeId pos) in
  Permutation (tree_ids result) (tree_ids tree)
  /\ List.length (all_nodes result) = List.length (all_nodes tree).
Proof.
  intros Hnd HX Hd Htarget. cbv zeta.
  assert (Hperm : Permutation
            (tree_ids (treeData (handleDrop (mkState tree (Some dragged))
                                            targetNodeId pos)))
            (tree_ids tree)).
  { destruct (handleDrop_tree (mkState tree (Some dragged)) targetNodeId pos)
      as [E | (d & Ed & E)]; rewrite E; [reflexivity|].
    simpl in Ed. inversion Ed; subst d. simpl.
    destruct (dropUpdater_ids tree dragged targetNodeId pos Hnd)
      as [Hperm | (X' & HX' & Hid & Ht & Hf & _)]; [exact Hperm|].
    exfalso.
    assert (X' = X).
    { apply (NoDup_map_injective _ _ id (all_nodes tree)); auto.
      congruence. }
    subst X'.
    destruct Htarget as [-> | (T & -> & HT & HidT & Hout)];
      [discriminate|].
    exact (target_found_after_removal tree X T Hnd HX HT HidT Hout Hf). }
  split; [exact Hperm|].
  apply Permutation_length in Hperm. unfold tree_ids in Hperm.
  now rewrite !length_map in Hperm.
Qed.

Lemma handleDrop_conserves_nodes_witness :
  Permutation
    (tree_ids (treeData (handleDrop
                           (mkState ex_family
                                    (Some (mkDragItem "node-102" None)))
                           (Some "node-101") child)))
    (tree_ids ex_family).
Proof.
  refine (proj1 (handleDrop_conserves_nodes ex_family ex_C
                   (mkDragItem "node-102" None) (Some "node-101") child
                   _ _ _ _)).
  - vm_compute. repeat constructor; simpl; intuition discriminate.
  - vm_compute. right. right. now left.
  - reflexivity.
  - right. exists ex_B. split; [reflexivity|]. split.
    + apply (@exposed_child ex_family ex_A [ex_B; ex_C]);
        [apply exposed_root; now left | reflexivity | reflexivity | now left].
    + split; [discriminate|]. vm_compute. intros [H | []]. discriminate.
Defined.

(** ** The id supply over several calls *)

Lemma increment_below c : (c < 2 ^ 53)%N -> increment c = (c + 1)%N.
Proof. intros H. unfold increment. apply N.ltb_lt in H. now rewrite H. Qed.

Lemma increment_ge c : (c <= increment c)%N.
Proof. unfold increment. destruct (c <? 2 ^ 53)%N; lia. Qed.

Lemma increment_lt_inv c :
  (increment c < 2 ^ 53)%N -> (c < 2 ^ 53)%N /\ increment c = (c + 1)%N.
Proof.
  unfold increment. destruct (c <? 2 ^ 53)%N eqn:E.
  - apply N.ltb_lt in E. auto.
  - apply N.ltb_ge in E. lia.
Qed.

Lemma issued_mono c c' i : (c <= c')%N -> issued c i -> issued c' i.
Proof. intros Hle (k & Hk & E). exists k. split; [lia | exact E]. Qed.

Lemma issued_not_later c i k :
  issued c i -> (c <= k)%N -> i <> fst (generateId k).
Proof.
  intros (j & Hj & E) Hk Heq. rewrite E in Heq.
  apply generateId_injective in Heq. lia.
Qed.

Lemma issued_truthy c i : issued c i -> truthy (Some i) = true.
Proof. intros (k & _ & E). rewrite E. apply generateId_truthy. Qed.

Lemma newChildren_cons nodeId i d rest c :
  newChildren nodeId i (d :: rest) c
  = (mkNode (fst (generateId c))
            ("Lazy Child " ++ nodeId ++ "-"
             ++ numberToString (N.of_nat (i + 1)))%string
            (if d then Unloaded else Loaded [])
            (Some false) (Some d) (Some nodeId)
     :: fst (newChildren nodeId (S i) rest (increment c)),
     snd (newChildren nodeId (S i) rest (increment c))).
Proof.
  simpl. destruct (newChildren nodeId (S i) rest (increment c)). reflexivity.
Qed.

Lemma newChildren_counter draws :
  forall nodeId i c,
    (c <= snd (newChildren nodeId i draws c))%N
    /\ ((snd (newChildren nodeId i draws c) < 2 ^ 53)%N ->
        (c + N.of_nat (List.length draws) < 2 ^ 53)%N).
Proof.
  induction draws as [|d rest IH]; intros nodeId i c.
  - simpl. split; lia.
  - rewrite newChildren_cons. cbn [snd List.length].
    destruct (IH nodeId (S i) (increment c)) as (Hle & Hlt).
    pose proof (increment_ge c) as Hge. split; [lia|].
    intros Hlim. specialize (Hlt Hlim).
    assert (Hc : (increment c < 2 ^ 53)%N) by lia.
    apply increment_lt_inv in Hc. destruct Hc as (_ & Hc).
    rewrite Nat2N.inj_succ. lia.
Qed.

(** The children of one load, as long as the counter stays below [2^53]:
    their ids are the next ids of the supply, in order. *)
Lemma newChildren_ids draws :
  forall nodeId i c,
    (c + N.of_nat (List.length draws) <= 2 ^ 53)%N ->
    snd (newChildren nodeId i draws c) = (c + N.of_nat (List.length draws))%N
    /\ tree_ids (fst (newChildren nodeId i draws c))
       = map (fun j => fst (generateId (c + N.of_nat j)))
             (seq 0 (List.length draws)).
Proof.
  induction draws as [|d rest IH]; intros nodeId i c Hc.
  - simpl. split; [lia | reflexivity].
  - rewrite newChildren_cons. cbn [fst snd List.length] in *.
    rewrite Nat2N.inj_succ in *.
    assert (Hi : increment c = (c + 1)%N) by (apply increment_below; lia).
    destruct (IH nodeId (S i) (increment c)) as (Hs & Hids); [lia|].
    split; [lia|].
    rewrite tree_ids_cons, Hids. cbn [id seq map].
    rewrite N.add_0_r. f_equal.
    replace (tree_ids (childrenArray (children _))) with (@nil string)
      by (destruct d; reflexivity).
    simpl app. rewrite <- seq_shift, map_map.
    apply map_ext. intros j. rewrite Hi, Nat2N.inj_succ.
    now replace (c + 1 + N.of_nat j)%N with (c + N.succ (N.of_nat j))%N
      by lia.
Qed.

Lemma newChildren_shape draws :
  forall nodeId i c,
    flags_consistent (fst (newChildren nodeId i draws c))
    /\ parents_consistent (Some nodeId) (fst (newChildren nodeId i draws c))
    /\ List.length (fst (newChildren nodeId i draws c)) = List.length draws.
Proof.
  induction draws as [|d rest IH]; intros nodeId i c.
  - simpl. repeat split; constructor.
  - rewrite newChildren_cons. cbn [fst].
    destruct (IH nodeId (S i) (increment c)) as (Hf & Hp & Hl).
    split; [|split].
    + apply flags_consistent_cons. split; [|split; [|exact Hf]].
      * intros cs H. simpl in H. destruct d; [discriminate|].
        inversion H; subst cs. reflexivity.
      * destruct d; constructor.
    + apply parents_consistent_cons. split; [reflexivity|].
      split; [|exact Hp]. destruct d; constructor.
    + simpl. now rewrite Hl.
Qed.

Lemma NoDup_generated c n :
  NoDup (map (fun j => fst (generateId (c + N.of_nat j))) (seq 0 n)).
Proof.
  apply Finite.Injective_map_NoDup_in; [|apply seq_NoDup].
  intros a b _ _ H. apply generateId_injective in H. lia.
Qed.

(** ** Properties of the loader and of [handleAddNode] *)

(** X21. The children [simulateApiCall] resolves with, for any outcome of
    its random draws, as long as the counter stays within [2^53]: one child
    per draw, carrying the next ids of the supply in order, hence ids
    different from one another; every child names the loaded node as its
    parent, and its [hasChildren] agrees with its children (the lazy
    marker with [true], the empty array with [false]). *)
Theorem newChildren_well_formed
    (nodeId : string) (draws : list bool) (c : N) :
  (c + N.of_nat (List.length draws) <= 2 ^ 53)%N ->
  let loaded := fst (newChildren nodeId 0 draws c) in
  snd (newChildren nodeId 0 draws c) = (c + N.of_nat (List.length draws))%N
  /\ map id loaded
     = map (fun j => fst (generateId (c + N.of_nat j)))
           (seq 0 (List.length draws))
  /\ NoDup (tree_ids loaded)
  /\ parents_consistent (Some nodeId) loaded
  /\ flags_consistent loaded
  /\ Forall (fun n => children n
                      = if viewHasChildren n then Unloaded else Loaded [])
            loaded.
Proof.
  intros Hc. cbv zeta.
  destruct (newChildren_ids draws nodeId 0 c Hc) as (Hs & Hids).
  destruct (newChildren_shape draws nodeId 0 c) as (Hf & Hp & Hl).
  assert (Hflat : forall ds i k,
            tree_ids (fst (newChildren nodeId i ds k))
            = map id (fst (newChildren nodeId i ds k))
            /\ Forall (fun n => children n
                                = if viewHasChildren n then Unloaded
                                  else Loaded [])
                      (fst (newChildren nodeId i ds k))).
  { induction ds as [|d rest IH]; intros i k; [split; [reflexivity|constructor]|].
    rewrite newChildren_cons. cbn [fst].
    destruct (IH (S i) (increment k)) as (E & F).
    split.
    - rewrite tree_ids_cons. cbn [id map]. rewrite E.
      destruct d; reflexivity.
    - constructor; [destruct d; reflexivity | exact F]. }
  destruct (Hflat draws 0%nat c) as (Eflat & Hview).
  split; [exact Hs|]. split; [now rewrite <- Eflat|].
  split; [rewrite Hids; apply NoDup_generated|].
  split; [exact Hp|]. split; [exact Hf | exact Hview].
Qed.

Lemma newChildren_well_formed_witness :
  map id (fst (newChildren "node-100" 0 [true; false] 105))
  = ["node-105"; "node-106"].
Proof.
  refine (proj1 (proj2 (newChildren_well_formed "node-100" [true; false]
                          105 _))).
  vm_compute. discriminate.
Defined.

Lemma adopt_leaf_flags newId nm p n :
  flags_consistent (childrenArray (children n)) ->
  flags_consistent
    [adopt (mkNode newId nm (Loaded []) (Some false) (Some false) p) n].
Proof.
  intros Hn. apply adopt_flags; [|exact Hn].
  apply flags_consistent_single. split; [|constructor].
  intros cs H. simpl in H. inversion H; subst cs. reflexivity.
Qed.

Lemma handleAddNode_valid
    (tree : TreeData) (c : N) (parentId nodeName : option string) :
  let tree' := fst (handleAddNode tree c parentId nodeName) in
  (flags_consistent tree -> flags_consistent tree')
  /\ (parents_consistent None tree -> parents_consistent None tree')
  /\ (NoDup (tree_ids tree) -> ~ In (fst (generateId c)) (tree_ids tree) ->
      NoDup (tree_ids tree')
      /\ incl (tree_ids tree') (fst (generateId c) :: tree_ids tree))
  /\ (truthy nodeName = false ->
      handleAddNode tree c parentId nodeName = (tree, c)).
Proof.
  cbv zeta. unfold handleAddNode.
  destruct nodeName as [nm|].
  2: { repeat split; auto using incl_tl, incl_refl. }
  destruct (truthy (Some nm)) eqn:Ht.
  2: { repeat split; auto using incl_tl, incl_refl. }
  cbn [generateId fst].
  set (newId := ("node-" ++ numberToString c)%string).
  set (leaf := mkNode newId nm (Loaded []) (Some false) (Some false) parentId).
  assert (Hleaf : tree_ids [leaf] = [newId]) by reflexivity.
  split; [|split; [|split; [|discriminate]]].
  - intros Hf. destruct parentId as [p|]; simpl.
    + apply updateNodeInTree_flags; [exact Hf|].
      intros n Hn _. apply adopt_leaf_flags.
      exact (proj2 (flags_consistent_in _ n Hf Hn)).
    + apply flags_consistent_app. split; [exact Hf|].
      apply flags_consistent_single. split; [|constructor].
      intros cs H. simpl in H. inversion H; subst cs. reflexivity.
  - intros Hp. destruct parentId as [p|]; simpl.
    + apply updateNodeInTree_parents; [exact Hp|].
      intros n Hn _. apply (adopt_parents leaf n (Some p)).
      * apply parents_consistent_single. split; [reflexivity|constructor].
      * exact (parents_consistent_in _ None n Hp Hn).
    + apply parents_consistent_app. split; [exact Hp|].
      apply parents_consistent_single. split; [reflexivity|constructor].
  - intros Hnd Hfresh.
    assert (Hperm : Permutation
              (tree_ids (addNodeToTree tree parentId leaf))
              (newId :: tree_ids tree)
            \/ addNodeToTree tree parentId leaf = tree).
    { destruct parentId as [p|]; simpl.
      - destruct (in_dec string_dec p (tree_ids tree)) as [Hin | Hout].
        + left. apply in_map_iff in Hin. destruct Hin as (P & <- & HP).
          exact (adopt_permutation tree leaf P Hnd HP).
        + right. now apply updateNodeInTree_absent.
      - left. rewrite tree_ids_app, tree_ids_with_parentId, Hleaf.
        apply Permutation_sym, Permutation_cons_append. }
    destruct Hperm as [Hperm | E].
    + split.
      * apply (Permutation_NoDup (Permutation_sym Hperm)).
        now constructor.
      * intros x Hx. exact (Permutation_in x Hperm Hx).
    + rewrite E. split; [exact Hnd | apply incl_tl, incl_refl].
Qed.

(** X22. [handleAddNode] keeps the tree well formed: the flags stay
    consistent and the tree parent-consistent, and when the id the supply
    hands out is not in the tree, ids stay unique and the only new id is
    that one. A cancelled or empty prompt changes neither the tree nor the
    counter. *)
Theorem handleAddNode_keeps_tree_valid
    (tree : TreeData) (c : N) (parentId nodeName : option string) :
  let tree' := fst (handleAddNode tree c parentId nodeName) in
  (flags_consistent tree -> flags_consistent tree')
  /\ (parents_consistent None tree -> parents_consistent None tree')
  /\ (NoDup (tree_ids tree) -> ~ In (fst (generateId c)) (tree_ids tree) ->
      NoDup (tree_ids tree')
      /\ incl (tree_ids tree') (fst (generateId c) :: tree_ids tree))
  /\ (truthy nodeName = false ->
      handleAddNode tree c parentId nodeName = (tree, c)).
Proof. exact (handleAddNode_valid tree c parentId nodeName). Qed.

Lemma handleAddNode_keeps_tree_valid_witness :
  NoDup (tree_ids (fst (handleAddNode createInitialTree 105
                          (Some "node-101") (Some "X")))).
Proof.
  refine (proj1 (proj1 (proj2 (proj2
            (handleAddNode_keeps_tree_valid createInitialTree 105
               (Some "node-101") (Some "X")))) _ _)).
  - vm_compute. repeat constructor; simpl; intuition discriminate.
  - vm_compute. intuition discriminate.
Defined.

(** ** The invariant of the widget *)

(** An updater that touches the name or the expansion flag only. *)
Lemma cosmetic_update (tree : TreeData) i f :
  (forall n, id (f n) = id n /\ children (f n) = children n
             /\ hasChildren (f n) = hasChildren n
             /\ parentId (f n) = parentId n) ->
  (flags_consistent tree -> flags_consistent (updateNodeInTree tree i f))
  /\ (forall p, parents_consistent p tree ->
                parents_consistent p (updateNodeInTree tree i f))
  /\ tree_ids (updateNodeInTree tree i f) = tree_ids tree.
Proof.
  intros Hf. split; [|split].
  - intros H. apply updateNodeInTree_flags; [exact H|].
    intros n Hn _. destruct (Hf n) as (_ & Hc & Hh & _).
    destruct (flags_consistent_in _ n H Hn) as (Hok & Hk).
    apply flags_consistent_single. rewrite Hc. split; [|exact Hk].
    intros cs E. rewrite Hh. apply Hok. now rewrite <- Hc.
  - intros p H. apply updateNodeInTree_parents; [exact H|].
    intros n Hn _. destruct (Hf n) as (Hi & Hc & _ & Hp).
    apply parents_consistent_single. rewrite Hc, Hi. split; [exact Hp|].
    exact (parents_consistent_in _ p n H Hn).
  - apply updateNodeInTree_ids. intros n _ _.
    destruct (Hf n) as (Hi & Hc & _).
    now rewrite !tree_ids_single, Hi, Hc.
Qed.

Lemma Permutation_replace_middle (A : Type) (l1 z l2 : list A) a :
  Permutation (l1 ++ (a :: z) ++ l2) (z ++ l1 ++ a :: l2).
Proof.
  change (a :: z) with ([a] ++ z).
  exact (Permutation_pull_back A l1 z [a] l2).
Qed.

(** Installing fresh children keeps the ids unique. *)
Lemma finishLoad_ids (tree : TreeData) i (L : list ITreeNode) :
  NoDup (tree_ids tree) ->
  NoDup (tree_ids L) ->
  (forall x, In x (tree_ids L) -> ~ In x (tree_ids tree)) ->
  NoDup (tree_ids (finishLoad tree i L))
  /\ incl (tree_ids (finishLoad tree i L)) (tree_ids L ++ tree_ids tree).
Proof.
  intros Hnd HL Hfresh. unfold finishLoad.
  destruct (in_dec string_dec i (tree_ids tree)) as [Hin | Hout].
  2: { rewrite (updateNodeInTree_absent _ _ _ Hout).
       split; [exact Hnd | apply incl_appr, incl_refl]. }
  apply in_map_iff in Hin. destruct Hin as (P & <- & HP).
  destruct (updateNodeInTree_splice_ids tree (installChildren L) P Hnd HP)
    as (l1 & l2 & E1 & E2).
  rewrite E2. rewrite (tree_ids_single (installChildren L P)).
  rewrite (tree_ids_single P) in E1. cbn [id children childrenArray installChildren].
  assert (Hold := Permutation_replace_middle _ l1
                    (tree_ids (childrenArray (children P))) l2 (id P)).
  assert (Hnew := Permutation_replace_middle _ l1 (tree_ids L) l2 (id P)).
  rewrite <- E1 in Hold.
  pose proof (Permutation_NoDup Hold Hnd) as Hnd'.
  apply NoDup_app_remove_l in Hnd'.
  assert (Hsub : incl (l1 ++ id P :: l2) (tree_ids tree)).
  { intros x Hx. apply (Permutation_in x (Permutation_sym Hold)).
    apply in_or_app. now right. }
  split.
  - apply (Permutation_NoDup (Permutation_sym Hnew)).
    apply NoDup_app; auto.
    intros x Hx Hx'. exact (Hfresh x Hx (Hsub x Hx')).
  - intros x Hx. apply (Permutation_in x Hnew) in Hx.
    apply in_app_or in Hx. apply in_or_app.
    destruct Hx as [Hx | Hx]; [now left | right; now apply Hsub].
Qed.

Lemma finishLoad_shape (tree : TreeData) i (L : list ITreeNode) :
  flags_consistent L ->
  parents_consistent (Some i) L ->
  (flags_consistent tree -> flags_consistent (finishLoad tree i L))
  /\ (forall p, parents_consistent p tree ->
                parents_consistent p (finishLoad tree i L)).
Proof.
  intros HfL HpL. unfold finishLoad. split.
  - intros H. apply updateNodeInTree_flags; [exact H|].
    intros n _ _. apply flags_consistent_single. split; [|exact HfL].
    intros cs E. simpl in E. inversion E; subst cs. reflexivity.
  - intros p H. apply updateNodeInTree_parents; [exact H|].
    intros n _ Hid. apply parents_consistent_single.
    split; [reflexivity|]. simpl. now rewrite Hid.
Qed.

Lemma initialApp_well_formed : well_formed initialApp.
Proof.
  unfold well_formed, initialApp, app_tree. cbn [app_view app_nextId treeData].
  split; [|split; [|split]].
  - vm_compute. repeat constructor; simpl; intros cs H; inversion H;
      reflexivity.
  - apply setParentIds_consistent.
  - vm_compute. discriminate.
  - intros _. split.
    + vm_compute. repeat constructor; simpl; intuition discriminate.
    + change (snd rawInitialTreeData) with 105%N.
      repeat constructor.
      * exists 100%N. split; [lia | reflexivity].
      * exists 101%N. split; [lia | reflexivity].
      * exists 102%N. split; [lia | reflexivity].
      * exists 103%N. split; [lia | reflexivity].
      * exists 104%N. split; [lia | reflexivity].
Qed.

Lemma Forall_incl (A : Type) (P : A -> Prop) (l l' : list A) :
  incl l l' -> Forall P l' -> Forall P l.
Proof.
  intros Hi Hf. apply Forall_forall. intros x Hx.
  rewrite Forall_forall in Hf. auto.
Qed.

Lemma step_well_formed s s' : well_formed s -> Step s s' -> well_formed s'.
Proof.
  intros (Hf & Hp & Hc & Hids) Hstep.
  destruct Hstep as [s nodeId cur | s nodeId draws | s parentId nodeName
                    | s nodeId confirmed | s nodeId newName | s item
                    | s target pos];
    unfold well_formed, app_tree in *; cbn [app_view app_nextId treeData] in *.
  - (* toggle *)
    destruct (cosmetic_update (treeData (app_view s)) nodeId (flipExpanded cur))
      as (Hf' & Hp' & Hi'); [intros n; repeat split|].
    unfold toggleExpand. rewrite Hi'. auto.
  - (* load *)
    destruct (newChildren_shape draws nodeId 0 (app_nextId s))
      as (HfL & HpL & _).
    destruct (finishLoad_shape (treeData (app_view s)) nodeId _ HfL HpL)
      as (Hf' & Hp').
    destruct (newChildren_counter draws nodeId 0%nat (app_nextId s))
      as (Hle & Hlt).
    split; [auto|]. split; [auto|]. split; [lia|].
    intros Hlim. specialize (Hlt Hlim).
    destruct Hids as (Hnd & Hiss); [lia|].
    destruct (newChildren_ids draws nodeId 0%nat (app_nextId s))
      as (Hs & HidsL); [lia|].
    assert (HissL : forall x,
              In x (tree_ids (fst (newChildren nodeId 0 draws (app_nextId s))))
              -> issued (snd (newChildren nodeId 0 draws (app_nextId s))) x
                 /\ ~ In x (tree_ids (treeData (app_view s)))).
    { intros x Hx. rewrite HidsL in Hx. apply in_map_iff in Hx.
      destruct Hx as (j & <- & Hj). apply in_seq in Hj. split.
      - exists (app_nextId s + N.of_nat j)%N. split; [lia | reflexivity].
      - intros Hin. rewrite Forall_forall in Hiss.
        apply (issued_not_later _ _ (app_nextId s + N.of_nat j)%N
                 (Hiss _ Hin)); [lia | reflexivity]. }
    destruct (finishLoad_ids (treeData (app_view s)) nodeId
                (fst (newChildren nodeId 0 draws (app_nextId s))) Hnd)
      as (Hnd' & Hincl).
    + rewrite HidsL. apply NoDup_generated.
    + intros x Hx. exact (proj2 (HissL x Hx)).
    + split; [exact Hnd'|].
      apply (Forall_incl _ _ _ _ Hincl). apply Forall_app. split.
      * apply Forall_forall. intros x Hx. exact (proj1 (HissL x Hx)).
      * apply Forall_forall. intros x Hx. rewrite Forall_forall in Hiss.
        exact (issued_mono _ _ _ Hle (Hiss x Hx)).
  - (* add *)
    destruct (handleAddNode_valid (treeData (app_view s)) (app_nextId s)
                parentId nodeName) as (Hf' & Hp' & Hnd' & Hnone).
    cbv zeta in *.
    split; [auto|]. split; [auto|].
    destruct (truthy nodeName) eqn:Ht.
    2: { rewrite (Hnone eq_refl). cbn [fst snd]. auto. }
    assert (Hc' : snd (handleAddNode (treeData (app_view s)) (app_nextId s)
                         parentId nodeName) = increment (app_nextId s)).
    { unfold handleAddNode. destruct nodeName; [|discriminate].
      rewrite Ht. reflexivity. }
    rewrite Hc'. pose proof (increment_ge (app_nextId s)) as Hge.
    split; [lia|]. intros Hlim. apply increment_lt_inv in Hlim.
    destruct Hlim as (Hlt & Hinc). destruct (Hids Hlt) as (Hnd & Hiss).
    assert (Hfresh : ~ In (fst (generateId (app_nextId s)))
                          (tree_ids (treeData (app_view s)))).
    { intros Hin. rewrite Forall_forall in Hiss.
      apply (issued_not_later _ _ (app_nextId s) (Hiss _ Hin));
        [lia | reflexivity]. }
    destruct (Hnd' Hnd Hfresh) as (Hnd2 & Hincl).
    split; [exact Hnd2|].
    apply (Forall_incl _ _ _ _ Hincl). constructor.
    + exists (app_nextId s). split; [lia | reflexivity].
    + apply Forall_forall. intros x Hx. rewrite Forall_forall in Hiss.
      apply (issued_mono (app_nextId s)); [lia | auto].
  - (* remove *)
    unfold handleRemoveNode. destruct confirmed; [|auto].
    split; [apply removeNodeFromTree_flags|].
    split; [now apply removeNodeFromTree_parents|].
    split; [exact Hc|]. intros Hlim. destruct (Hids Hlim) as (Hnd & Hiss).
    split; [now apply removeNodeFromTree_NoDup|].
    exact (Forall_incl _ _ _ _ (removeNodeFromTree_ids_incl _ _) Hiss).
  - (* rename *)
    destruct (cosmetic_update (treeData (app_view s)) nodeId (with_name newName))
      as (Hf' & Hp' & Hi'); [intros n; repeat split|].
    unfold handleEditNodeName. rewrite Hi'. auto.
  - (* drag start *)
    auto.
  - (* drop *)
    destruct (handleDrop_tree (app_view s) target pos) as [E | (d & _ & E)];
      rewrite E; [auto|].
    split; [now apply dropUpdater_flags|].
    split; [now apply dropUpdater_parents|].
    split; [exact Hc|]. intros Hlim. destruct (Hids Hlim) as (Hnd & Hiss).
    destruct (dropUpdater_NoDup _ d target pos Hnd) as (Hnd' & Hincl).
    split; [exact Hnd'|]. exact (Forall_incl _ _ _ _ Hincl Hiss).
Qed.

Lemma reachable_well_formed s : Reachable s -> well_formed s.
Proof.
  induction 1 as [|s s' _ IH Hstep].
  - exact initialApp_well_formed.
  - exact (step_well_formed s s' IH Hstep).
Qed.

(** X23. Every state the widget can reach from the initial tree, by any
    sequence of expansions, load resolutions (whatever the loader draws and
    whenever it resolves), additions, removals, renamings, drags and drops
    (whatever the target and position), has consistent flags and
    consistent parents; and as long as the counter is below [2^53], its
    ids are unique, not empty, and all handed out by [generateId]. *)
Theorem reachable_states_well_formed (s : AppState) :
  Reachable s ->
  flags_consistent (app_tree s)
  /\ parents_consistent None (app_tree s)
  /\ ((app_nextId s < 2 ^ 53)%N ->
      NoDup (tree_ids (app_tree s))
      /\ Forall (fun i => issued (app_nextId s) i /\ truthy (Some i) = true)
                (tree_ids (app_tree s))).
Proof.
  intros H. destruct (reachable_well_formed s H) as (Hf & Hp & _ & Hids).
  split; [exact Hf|]. split; [exact Hp|].
  intros Hlim. destruct (Hids Hlim) as (Hnd & Hiss).
  split; [exact Hnd|]. apply Forall_forall. intros i Hi.
  rewrite Forall_forall in Hiss. split; [auto|].
  exact (issued_truthy _ _ (Hiss i Hi)).
Qed.

Lemma reachable_states_well_formed_witness :
  flags_consistent
    (removeNodeFromTree createInitialTree "node-101")
  /\ parents_consistent None
       (removeNodeFromTree createInitialTree "node-101").
Proof.
  destruct (reachable_states_well_formed
              (mkApp (mkState (handleRemoveNode (app_tree initialApp)
                                 "node-101" true)
                              (draggedItem (app_view initialApp)))
                     (app_nextId initialApp)))
    as (Hf & Hp & _).
  - apply (@reach_step initialApp); [apply reach_init|].
    apply (step_remove initialApp "node-101" true).
  - exact (conj Hf Hp).
Defined.

(** ** Where a move puts the dragged node *)

Lemma findNodeDeepCopy_unique (tree : TreeData) X :
  NoDup (tree_ids tree) -> In X (all_nodes tree) ->
  findNodeDeepCopy tree (id X) = Some X.
Proof.
  intros Hnd HX.
  destruct (findNodeDeepCopy tree (id X)) as [Y|] eqn:F.
  - destruct (findNodeDeepCopy_Some _ _ _ F) as (HY & Hid).
    f_equal. apply (NoDup_map_injective _ _ id (all_nodes tree)); auto.
  - exfalso. apply (proj1 (findNodeDeepCopy_None tree (id X)) F).
    now apply in_all_nodes_ids.
Qed.

Lemma isAncestor_outside (tree : TreeData) X T :
  NoDup (tree_ids tree) ->
  In X (all_nodes tree) -> In T (all_nodes tree) ->
  ~ In T (subtree_nodes X) ->
  isAncestor (id X) (id T) tree = false.
Proof.
  intros Hnd HX HT Hout.
  destruct (isAncestor (id X) (id T) tree) eqn:E; [|reflexivity].
  exfalso. unfold isAncestor in E.
  destruct (findNodeAndLocation tree (Some (id X))) as [loc|] eqn:F;
    [|discriminate].
  destruct (findNodeAndLocation_found _ _ _ F) as (Hid & Hin & _).
  assert (node loc = X).
  { apply (NoDup_map_injective _ _ id (all_nodes tree)); auto.
    now inversion Hid. }
  rewrite H in E.
  destruct (children X) as [| |cs] eqn:Hc; try discriminate.
  apply findDescendant_iff in E. unfold tree_ids in E.
  apply in_map_iff in E. destruct E as (Z & EZ & HZ).
  assert (HZX : In Z (subtree_nodes X)).
  { rewrite subtree_nodes_eq. right. unfold descendants. now rewrite Hc. }
  assert (Z = T).
  { apply (NoDup_map_injective _ _ id (all_nodes tree)); auto.
    exact (subtree_in_all_nodes _ _ HX _ HZX). }
  subst Z. contradiction.
Qed.

Lemma nth_error_splice_before (A : Type) (l : list A) k x y :
  nth_error l k = Some y ->
  exists l1 l2, l = l1 ++ y :: l2
                /\ splice k x l = l1 ++ x :: y :: l2
                /\ splice (k + 1) x l = l1 ++ y :: x :: l2.
Proof.
  intros H. destruct (nth_error_split l k H) as (l1 & l2 & E & Hlen).
  exists l1, l2. subst l k. split; [reflexivity|]. unfold splice. split.
  - rewrite firstn_app, firstn_all, Nat.sub_diag, skipn_app, skipn_all,
      Nat.sub_diag. simpl. now rewrite app_nil_r.
  - replace (List.length l1 + 1) with (List.length l1 + 1 + 0) by lia.
    rewrite firstn_app, skipn_app.
    rewrite firstn_all2, skipn_all2 by lia.
    replace (List.length l1 + 1 + 0 - List.length l1) with 1 by lia.
    simpl. now rewrite <- app_assoc.
Qed.

(** The state updater when the dragged node is in the tree and the target
    outside its subtree: the removal, then the insertion. *)
Lemma dropUpdater_proceeds (tree : TreeData) X T dragged target pos :
  NoDup (tree_ids tree) ->
  In X (all_nodes tree) ->
  drag_id dragged = id X ->
  (target = None
   \/ (target = Some (id T) /\ In T (all_nodes tree)
       /\ ~ In T (subtree_nodes X))) ->
  dropUpdater dragged target pos tree
  = let treeAfterRemoval := removeNodeFromTree tree (id X) in
    match pos, target with
    | child, Some t =>
        if truthy target then
          match findNodeAndLocation treeAfterRemoval target with
          | Some _ => updateNodeInTree treeAfterRemoval t (adopt X)
          | None => treeAfterRemoval
          end
        else dropAsSibling treeAfterRemoval X target pos
    | _, _ => dropAsSibling treeAfterRemoval X target pos
    end.
Proof.
  intros Hnd HX Hd Ht. unfold dropUpdater.
  rewrite Hd, (findNodeDeepCopy_unique tree X Hnd HX).
  destruct Ht as [-> | (-> & HT & Hout)].
  - reflexivity.
  - rewrite (isAncestor_outside tree X T Hnd HX HT Hout), andb_false_r.
    reflexivity.
Qed.

(** X24. Dropping on the root zone (no target) moves the dragged node to
    the end of the roots: in a tree with unique ids the result is the tree
    without the dragged node, followed by the dragged node as it was, with
    [parentId] set to [null]; this at all three positions. *)
Theorem handleDrop_root_zone
    (tree : TreeData) (X : ITreeNode) (dragged : DragItem)
    (pos : DropPosition) :
  NoDup (tree_ids tree) ->
  In X (all_nodes tree) ->
  drag_id dragged = id X ->
  handleDrop (mkState tree (Some dragged)) None pos
  = mkState (removeNodeFromTree tree (id X) ++ [with_parentId X None]) None.
Proof.
  intros Hnd HX Hd. unfold handleDrop. cbn [draggedItem treeData strict_eq].
  f_equal.
  rewrite (dropUpdater_proceeds tree X X dragged None pos Hnd HX Hd)
    by now left.
  cbv zeta.
  assert (E : dropAsSibling (removeNodeFromTree tree (id X)) X None pos
              = removeNodeFromTree tree (id X) ++ [with_parentId X None]).
  { unfold dropAsSibling. cbn [truthy]. unfold splice.
    now rewrite firstn_all, skipn_all. }
  destruct pos; exact E.
Qed.

Lemma handleDrop_root_zone_witness :
  handleDrop (mkState ex_hidden (Some (mkDragItem "node-102" None))) None child
  = mkState (removeNodeFromTree ex_hidden "node-102"
             ++ [with_parentId ex_D None]) None.
Proof.
  apply (handleDrop_root_zone ex_hidden ex_D (mkDragItem "node-102" None)).
  - vm_compute. repeat constructor; simpl; intuition discriminate.
  - vm_compute. right. right. now left.
  - reflexivity.
Defined.



(** X26. Dropping with position [above] or [below] on a target [T] that is
    reachable through expanded ancestors and lies outside the subtree of
    the dragged node [X] (ids unique and not empty) puts [X] right before,
    or right after, [T] among the siblings of [T]: the row of [T] in the
    result is the root sequence when [T] is a root, and otherwise the
    children of a node of the result carrying the id of the parent of [T]
    with [hasChildren] true; [X] has the id of that parent, or [null], as
    [parentId]. *)
Theorem handleDrop_as_sibling
    (tree : TreeData) (X T : ITreeNode) (dragged : DragItem)
    (pos : DropPosition) :
  NoDup (tree_ids tree) ->
  ~ In "" (tree_ids tree) ->
  In X (all_nodes tree) ->
  drag_id dragged = id X ->
  Exposed tree T ->
  ~ In T (subtree_nodes X) ->
  pos <> child ->
  let result := treeData (handleDrop (mkState tree (Some dragged))
                                     (Some (id T)) pos) in
  exists (row : list ITreeNode) (p : option string) l1 l2 T0,
    id T0 = id T
    /\ ((p = None /\ result = row)
        \/ exists P', p = Some (id P') /\ In P' (all_nodes result)
                      /\ children P' = Loaded row
                      /\ hasChildren P' = Some true)
    /\ row = match pos with
             | above => l1 ++ with_parentId X p :: T0 :: l2
             | _ => l1 ++ T0 :: with_parentId X p :: l2
             end.
Proof.
  intros Hnd Hne HX Hd HT Hout Hpos. cbv zeta.
  assert (HTin : In T (all_nodes tree)) by now apply Exposed_in_all_nodes.
  assert (HidT : id T <> "").
  { intros E. apply Hne. rewrite <- E. now apply in_all_nodes_ids. }
  assert (Hxt : id X <> id T).
  { intros E. apply Hout.
    assert (T = X) by
      (apply (NoDup_map_injective _ _ id (all_nodes tree)); auto).
    subst T. rewrite subtree_nodes_eq. now left. }
  pose proof (target_found_after_removal tree X T Hnd HX HT HidT Hout)
    as Hfound.
  set (t' := removeNodeFromTree tree (id X)) in *.
  assert (Hnd' : NoDup (tree_ids t')) by now apply removeNodeFromTree_NoDup.
  destruct (findNodeAndLocation t' (Some (id T))) as [loc|] eqn:F;
    [|contradiction].
  destruct (findNodeAndLocation_found _ _ _ F) as (Hid & Hin & Hloc).
  assert (Hid' : id (node loc) = id T) by now inversion Hid.
  assert (Hres : treeData (handleDrop (mkState tree (Some dragged))
                                      (Some (id T)) pos)
                 = dropAsSibling t' X (Some (id T)) pos).
  { unfold handleDrop. cbn [draggedItem treeData strict_eq].
    rewrite Hd. apply String.eqb_neq in Hxt. rewrite Hxt.
    cbn [treeData].
    rewrite (dropUpdater_proceeds tree X T dragged (Some (id T)) pos
               Hnd HX Hd) by (right; auto).
    cbv zeta. fold t'. destruct pos; try reflexivity. contradiction. }
  rewrite Hres. unfold dropAsSibling. rewrite (truthy_Some _ HidT), F.
  destruct (parent loc) as [P|] eqn:Ep.
  - destruct Hloc as (HP & _ & Hc & Hn).
    assert (HidP : id P <> "").
    { intros E. apply Hne. rewrite <- E.
      apply (removeNodeFromTree_ids_incl tree (id X)).
      now apply in_all_nodes_ids. }
    cbn [option_map]. unfold or_null. rewrite (truthy_Some _ HidP).
    cbv beta iota zeta. rewrite (truthy_Some _ HidP), Hc.
    cbn [childrenArray].
    destruct (nth_error_splice_before _ (siblings loc) (index loc)
                (with_parentId X (Some (id P))) (node loc) Hn)
      as (l1 & l2 & _ & Ea & Eb).
    set (L := splice match pos with
                     | above => index loc
                     | _ => index loc + 1
                     end (with_parentId X (Some (id P))) (siblings loc)).
    exists L, (Some (id P)), l1, l2, (node loc).
    split; [exact Hid'|]. split.
    + right. exists (install L P). split; [reflexivity|]. split.
      * now apply updateNodeInTree_target.
      * split; reflexivity.
    + unfold L. destruct pos; [exact Ea | exact Eb | contradiction].
  - destruct Hloc as (_ & Hn).
    cbn [option_map]. unfold or_null. cbn [truthy]. cbv beta iota zeta.
    destruct (nth_error_splice_before _ t' (index loc)
                (with_parentId X None) (node loc) Hn)
      as (l1 & l2 & _ & Ea & Eb).
    exists (splice match pos with
                   | above => index loc
                   | _ => index loc + 1
                   end (with_parentId X None) t'), None, l1, l2, (node loc).
    split; [exact Hid'|]. split; [left; auto|].
    destruct pos; [exact Ea | exact Eb | contradiction].
Qed.

Lemma handleDrop_as_sibling_witness :
  exists row p l1 l2 T0,
    id T0 = "node-101"
    /\ ((p = None
         /\ treeData (handleDrop
                        (mkState ex_family (Some (mkDragItem "node-102" None)))
                        (Some "node-101") above) = row)
        \/ exists P', p = Some (id P')
             /\ In P' (all_nodes
                         (treeData (handleDrop
                            (mkState ex_family
                                     (Some (mkDragItem "node-102" None)))
                            (Some "node-101") above)))
             /\ children P' = Loaded row
             /\ hasChildren P' = Some true)
    /\ row = l1 ++ with_parentId ex_C p :: T0 :: l2.
Proof.
  apply (handleDrop_as_sibling ex_family ex_C ex_B
           (mkDragItem "node-102" None) above).
  - vm_compute. repeat constructor; simpl; intuition discriminate.
  - vm_compute. intuition discriminate.
  - vm_compute. right. right. now left.
  - reflexivity.
  - apply (@exposed_child ex_family ex_A [ex_B; ex_C]);
      [apply exposed_root; now left | reflexivity | reflexivity | now left].
  - vm_compute. intros [H | []]. discriminate.
  - discriminate.
Defined.

(** ** Rendering *)

Lemma renderNode_eq level asProp n :
  renderNode level asProp n
  = (asProp n, level)
    :: match children n with
       | Loaded cs =>
           if truthy_flag (isExpanded n)
           then flat_map (renderNode (S level)
                            (fun c => with_parentId c (Some (id n)))) cs
           else []
       | _ => []
       end.
Proof. destruct n as [i nm [| |cs] e h q]; reflexivity. Qed.

(** The elements rendered stand one for one for the nodes a lookup can
    meet. *)
Lemma render_shown (tree : TreeData) :
  forall level asProp,
    (forall c, id (asProp c) = id c /\ children (asProp c) = children c) ->
    Forall2 (fun e c => id (fst e) = id c /\ children (fst e) = children c)
            (flat_map (renderNode level asProp) tree) (shown tree).
Proof.
  induction tree as [|n rest IHk IHr] using tree_ind; intros level asProp Has.
  - constructor.
  - rewrite shown_cons. cbn [flat_map]. apply Forall2_app; [|now apply IHr].
    rewrite renderNode_eq, shown_nodes_eq. constructor; [apply Has|].
    destruct n as [i nm [| |cs] e h q]; simpl in *; try constructor.
    destruct (truthy_flag e); [|constructor].
    apply IHk. intros c. now destruct c.
Qed.

Lemma Forall2_in_left (A B : Type) (R : A -> B -> Prop) l l' x :
  Forall2 R l l' -> In x l -> exists y, In y l' /\ R x y.
Proof.
  induction 1 as [|a b l l' Hab _ IH]; intros Hx; [destruct Hx|].
  destruct Hx as [<- | Hx].
  - exists b. split; [now left | exact Hab].
  - destruct (IH Hx) as (y & Hy & Hr). exists y. split; [now right | auto].
Qed.

(** X27. What is on screen and what the handlers can reach agree: the
    elements [TreeView] renders carry, in order, the ids of the nodes
    reachable through expanded ancestors, which are the nodes
    [findNodeAndLocation] can find. So a drag started on a rendered element
    (ids unique and not empty) and dropped on a descendant of its node is
    always rejected, at every position. *)
Theorem rendered_drag_never_cycles
    (tree : TreeData) (elem : ITreeNode) (level : nat) (D : ITreeNode)
    (pos : DropPosition) :
  map (fun e => id (fst e)) (render tree) = map id (shown tree)
  /\ (NoDup (tree_ids tree) -> ~ In "" (tree_ids tree) ->
      In (elem, level) (render tree) ->
      In D (descendants elem) ->
      handleDrop (handleDragStart (mkState tree None)
                    (mkDragItem (id elem) (parentId elem)))
                 (Some (id D)) pos
      = mkState tree None).
Proof.
  pose proof (render_shown tree 0 (fun n => n) (fun c => conj eq_refl eq_refl))
    as Hrs. fold (render tree) in Hrs.
  split.
  - induction Hrs as [|e c l l' (Hi & _) _ IH]; [reflexivity|].
    simpl. now rewrite Hi, IH.
  - intros Hnd Hne Helem HD.
    destruct (Forall2_in_left _ _ _ _ _ _ Hrs Helem) as (A & HA & Hi & Hc).
    simpl in Hi, Hc.
    apply Exposed_iff_shown in HA.
    assert (HAin : In A (all_nodes tree)) by now apply Exposed_in_all_nodes.
    assert (HD' : In D (descendants A)).
    { unfold descendants in *. now rewrite <- Hc. }
    assert (HDin : In D (all_nodes tree)).
    { apply (subtree_in_all_nodes _ _ HAin). rewrite subtree_nodes_eq.
      now right. }
    unfold handleDragStart. cbn [treeData].
    apply (handleDrop_rejects_exposed_cycle tree A D); auto.
    + intros E. apply Hne. rewrite <- E. now apply in_all_nodes_ids.
    + intros E. apply Hne. rewrite <- E. now apply in_all_nodes_ids.
Qed.

Lemma rendered_drag_never_cycles_witness :
  handleDrop (handleDragStart (mkState ex_family None)
                (mkDragItem "node-100" None))
             (Some "node-102") child
  = mkState ex_family None.
Proof.
  refine (proj2 (rendered_drag_never_cycles ex_family ex_A 0 ex_C child)
            _ _ _ _).
  - vm_compute. repeat constructor; simpl; intuition discriminate.
  - vm_compute. intuition discriminate.
  - vm_compute. now left.
  - vm_compute. right. now left.
Defined.

(** C6. [addNodeToTree] with parent id [null] appends the node, its
    [parentId] set to [null], at the end of the root sequence. With the id
    of a node [P] of the tree (ids unique), the tree returned holds a node
    with the id, name and [parentId] of [P] and with [hasChildren] and
    [isExpanded] [true], whose children are: when [P] has a loaded array,
    the elements of that array followed by the new node; when the children
    of [P] are absent or unloaded, the new node alone; the new node having
    [parentId] the id of [P]. Nothing else moves: in the preorder id list
    the ids of the new node come in right after those of the subtree of
    [P]. With an id the tree does not hold, the tree returned is equal to
    the input. *)
Theorem addNodeToTree_spec (tree : TreeData) (newNode : ITreeNode) :
  addNodeToTree tree None newNode = tree ++ [with_parentId newNode None]
  /\ (forall P,
        NoDup (tree_ids tree) ->
        In P (all_nodes tree) ->
        let added := with_parentId newNode (Some (id P)) in
        let result := addNodeToTree tree (Some (id P)) newNode in
        exists P' l1 l2,
          In P' (all_nodes result)
          /\ id P' = id P /\ name P' = name P /\ parentId P' = parentId P
          /\ (forall cs, children P = Loaded cs ->
                         children P' = Loaded (cs ++ [added]))
          /\ (children P = Absent \/ children P = Unloaded ->
              children P' = Loaded [added])
          /\ hasChildren P' = Some true
          /\ isExpanded P' = Some true
          /\ tree_ids tree = l1 ++ tree_ids [P] ++ l2
          /\ tree_ids result
             = l1 ++ (tree_ids [P] ++ tree_ids [newNode]) ++ l2)
  /\ (forall p,
        ~ In p (tree_ids tree) ->
        addNodeToTree tree (Some p) newNode = tree).
Proof.
  split; [reflexivity|]. split.
  - intros P Hnd HP added result.
    destruct (updateNodeInTree_splice_ids tree (adopt newNode) P Hnd HP)
      as (l1 & l2 & E1 & E2).
    exists (adopt newNode P), l1, l2.
    split; [exact (updateNodeInTree_target tree (adopt newNode) P Hnd HP)|].
    do 3 (split; [reflexivity|]).
    split; [intros cs Hc; simpl; now rewrite Hc|].
    split; [intros [Hc|Hc]; simpl; now rewrite Hc|].
    do 2 (split; [reflexivity|]).
    split; [exact E1|].
    unfold result, addNodeToTree. rewrite E2.
    rewrite (tree_ids_single (adopt newNode P)), (tree_ids_single P).
    simpl. now rewrite tree_ids_app, tree_ids_with_parentId.
  - intros p Hp. now apply updateNodeInTree_absent.
Qed.

Lemma addNodeToTree_spec_witness :
  let X := newLeaf "node-105" "X" None in
  (exists P',
     In P' (all_nodes (addNodeToTree ex_family (Some "node-100") X))
     /\ children P'
        = Loaded [ex_B; ex_C; newLeaf "node-105" "X" (Some "node-100")])
  /\ (exists P',
        In P' (all_nodes (addNodeToTree createInitialTree (Some "node-100")
                                        X))
        /\ children P' = Loaded [newLeaf "node-105" "X" (Some "node-100")]
        /\ hasChildren P' = Some true
        /\ isExpanded P' = Some true).
Proof.
  intros X. split.
  - destruct (proj1 (proj2 (addNodeToTree_spec ex_family X)) ex_A)
      as (P' & l1 & l2 & Hin & _ & _ & _ & Hc & _ & _ & _ & E1 & E2).
    + vm_compute. repeat constructor; simpl; intuition discriminate.
    + vm_compute. now left.
    + exists P'. split; [exact Hin | exact (Hc _ eq_refl)].
  - destruct (proj1 (proj2 (addNodeToTree_spec createInitialTree X))
                (mkNode "node-100" "Root A (Lazy Children)" Unloaded
                        (Some false) (Some true) None))
      as (P' & l1 & l2 & Hin & _ & _ & _ & _ & Hc & Hh & He & _).
    + vm_compute. repeat constructor; simpl; intuition discriminate.
    + vm_compute. now left.
    + exists P'. split; [exact Hin|]. split; [exact (Hc (or_intror eq_refl))|].
      split; assumption.
Defined.

(** X28. [addNodeToTree] loses nothing: with parent [null], or with the id
    of a node of a tree with unique ids, the ids of the result are those
    of the tree and of the new node together. *)
Theorem addNodeToTree_conserves_nodes
    (tree : TreeData) (parentId : option string) (newNode : ITreeNode) :
  NoDup (tree_ids tree) ->
  (parentId = None \/ exists p, parentId = Some p /\ In p (tree_ids tree)) ->
  Permutation (tree_ids (addNodeToTree tree parentId newNode))
              (tree_ids [newNode] ++ tree_ids tree)
  /\ List.length (all_nodes (addNodeToTree tree parentId newNode))
     = List.length (all_nodes tree) + List.length (subtree_nodes newNode).
Proof.
  intros Hnd Hp.
  assert (Hperm : Permutation (tree_ids (addNodeToTree tree parentId newNode))
                              (tree_ids [newNode] ++ tree_ids tree)).
  { destruct Hp as [-> | (p & -> & Hin)]; simpl.
    - rewrite tree_ids_app, tree_ids_with_parentId.
      apply Permutation_app_comm.
    - apply in_map_iff in Hin. destruct Hin as (P & <- & HP).
      exact (adopt_permutation tree newNode P Hnd HP). }
  split; [exact Hperm|].
  apply Permutation_length in Hperm.
  rewrite length_app, tree_ids_subtree in Hperm. unfold tree_ids in Hperm.
  rewrite !length_map in Hperm. lia.
Qed.

Lemma addNodeToTree_conserves_nodes_witness :
  List.length (all_nodes (addNodeToTree ex_family (Some "node-101")
                            (newLeaf "node-103" "X" None)))
  = 3 + 1.
Proof.
  refine (proj2 (addNodeToTree_conserves_nodes ex_family (Some "node-101")
                   (newLeaf "node-103" "X" None) _ _)).
  - vm_compute. repeat constructor; simpl; intuition discriminate.
  - right. exists "node-101". split; [reflexivity|].
    vm_compute. right. now left.
Defined.
